(** * tool-json: reference resolution, frame stack and tree shaking

  A shallow embedding of the TypeScript sources [pointer.ts], [node.ts],
  [error.ts], [context.ts], [resource.ts] and [reference.ts], and the
  properties their specification states about them.

  Conventions of the embedding.
  - A JS string is a [string]: an ASCII character is itself, any other
    character is the sequence of its UTF-8 bytes.  The algorithms look for
    the ASCII characters [/], [~], [#], [0] and [1] and cut strings next
    to them, so a cut never falls inside a character and every string
    they build is the encoding of the string the code builds.  The one
    cut that is made by counting, the two code units that
    [unescapePointer] quotes in its error message, is made on code units
    ([Js.stringifyTwo]).
  - A JS object or array is a cell of an arena ([Heap]); a node that is
    an object is the address of its cell, which is what [===], [WeakMap],
    [Map] and [Set] compare.
  - A function that can throw returns a [completion]; a function that
    mutates the context or the heap passes the state explicitly.
  - [await e] is sequential: the awaited operation runs to completion
    before the next statement, and nothing else touches the context in
    between (the specification's single-writer rule).
  - A function that the caller injects (the resolver of a context) is
    handed the context: it is a function of the state, and may change
    every part of it. *)

From Stdlib Require Import ZArith Ascii DecimalString Lia.
From stdpp Require Import base option list gmap strings.

Local Open Scope Z_scope.
Local Open Scope nat_scope.

(** ** Thrown values ([error.ts]) and completions *)

(** The classes the sources throw or test with [instanceof]: the built-in
  [Error] and [TypeError], [ResolutionError] (with the [location] of
  [ProcessingError] and the [cause] of [ErrorOptions]), and [Foreign]
  for any other value an injected function may throw. *)
#[local] Unset Elimination Schemes.
Inductive exn : Type :=
| JsError (message : string)
| TypeError (message : string)
| ResolutionError (message : string) (location : option string)
    (cause : option (list exn))
| Foreign (payload : string).
#[local] Set Elimination Schemes.

(** [error instanceof ResolutionError] *)
Definition isResolutionError (e : exn) : bool :=
match e with ResolutionError _ _ _ => true | _ => false end.

(** [error.message] *)
Definition message (e : exn) : string :=
match e with
| JsError m | TypeError m | ResolutionError m _ _ => m
| Foreign m => m
end.

Inductive completion (A : Type) : Type :=
| Normal (a : A)
| Throw (e : exn).
Arguments Normal {A} a.
Arguments Throw {A} e.

(** ** JS string primitives *)
Module Js.

Definition slash : ascii := "/"%char.
Definition tilde : ascii := "~"%char.
Definition hash : ascii := "#"%char.
Definition quote : ascii := ascii_of_nat 34.
Definition backslash : ascii := ascii_of_nat 92.

Definition str (c : ascii) : string := String c EmptyString.

(** [s.slice(from, to)] for [0 <= from], [0 <= to] *)
Definition slice (s : string) (from to : nat) : string :=
  String.substring from (to - from) s.

(** [s.slice(from)] *)
Definition sliceFrom (s : string) (from : nat) : string :=
  String.substring from (String.length s - from) s.

(** [s.startsWith(c)] for a one-character [c] *)
Definition startsWith (c : ascii) (s : string) : bool :=
  match s with
  | String d _ => Ascii.eqb d c
  | EmptyString => false
  end.

(** [s.endsWith(c)] for a one-character [c] *)
Fixpoint endsWith (c : ascii) (s : string) : bool :=
  match s with
  | EmptyString => false
  | String d EmptyString => Ascii.eqb d c
  | String _ r => endsWith c r
  end.

(** [s.includes(c)] *)
Fixpoint includes (c : ascii) (s : string) : bool :=
  match s with
  | EmptyString => false
  | String d r => Ascii.eqb d c || includes c r
  end.

(** First position of [c] in [s], if any. *)
Fixpoint find (c : ascii) (s : string) : option nat :=
  match s with
  | EmptyString => None
  | String d r => if Ascii.eqb d c then Some 0 else S <$> find c r
  end.

(** [s.indexOf(c, from)]: [None] stands for [-1]. *)
Definition indexOf (c : ascii) (from : nat) (s : string) : option nat :=
  (fun i => from + i) <$> find c (sliceFrom s from).

(** [s.lastIndexOf(c)], with JS's [-1] when [c] does not occur. *)
Fixpoint lastIndexOf (c : ascii) (s : string) : Z :=
  match s with
  | EmptyString => (-1)%Z
  | String d r =>
      let i := lastIndexOf c r in
      if (0 <=? i)%Z then (i + 1)%Z
      else if Ascii.eqb d c then 0%Z else (-1)%Z
  end.

(** The pieces of [s.split(c)]: never empty, the separators removed. *)
Fixpoint pieces (c : ascii) (s : string) : list string :=
  match s with
  | EmptyString => [EmptyString]
  | String d r =>
      if Ascii.eqb d c then EmptyString :: pieces c r
      else match pieces c r with
           | p :: ps => String d p :: ps
           | [] => [String d EmptyString]
           end
  end.

(** [s.split(c, limit)]: JS keeps the first [limit] pieces and drops
    the rest of the string. *)
Definition split (c : ascii) (limit : nat) (s : string) : list string :=
  take limit (pieces c s).

(** [String(n)] for a non-negative integer [n] *)
Definition ofNat (n : nat) : string :=
  NilZero.string_of_uint (Nat.to_uint n).

Definition hexDigit (n : nat) : ascii :=
  ascii_of_nat (if n <? 10 then 48 + n else 87 + n).

(** The escapes of [JSON.stringify] on a string. *)
Definition jsonChar (c : ascii) : string :=
  let n := nat_of_ascii c in
  if Ascii.eqb c quote then String backslash (str quote)
  else if Ascii.eqb c backslash then String backslash (str backslash)
  else if n =? 8 then String backslash "b"
  else if n =? 9 then String backslash "t"
  else if n =? 10 then String backslash "n"
  else if n =? 12 then String backslash "f"
  else if n =? 13 then String backslash "r"
  else if n <? 32 then
    String backslash ("u00" +:+
      String (hexDigit (n / 16)) (str (hexDigit (n mod 16))))
  else str c.

Fixpoint jsonChars (s : string) : string :=
  match s with
  | EmptyString => EmptyString
  | String c r => jsonChar c +:+ jsonChars r
  end.

(** [JSON.stringify(s)] for a string [s] *)
Definition stringify (s : string) : string :=
  String quote (jsonChars s +:+ str quote).

(** The number of bytes of the UTF-8 encoding of the character whose
    first byte is [c]. *)
Definition charBytes (c : ascii) : nat :=
  let n := nat_of_ascii c in
  if n <? 224 then (if n <? 192 then 1 else 2)
  else if n <? 240 then 3 else 4.

(** The first UTF-16 code unit of the character beyond the basic plane
    that [s] begins with, as [JSON.stringify] shows a lone surrogate: a
    [\u] escape with four lowercase hexadecimal digits. *)
Definition surrogateEscape (s : string) : string :=
  let byte i :=
    match String.get i s with Some c => N_of_ascii c | None => 0%N end in
  let '(b0, b1, b2, b3) := (byte 0, byte 1, byte 2, byte 3) in
  let point :=
    ((b0 mod 8) * 262144 + (b1 mod 64) * 4096 + (b2 mod 64) * 64
     + b3 mod 64)%N in
  let unit := (55296 + (point - 65536) / 1024)%N in
  let digit n := hexDigit (N.to_nat n) in
  String backslash
    (String "u"
       (String (digit (unit / 4096)%N)
          (String (digit (unit / 256 mod 16)%N)
             (String (digit (unit / 16 mod 16)%N)
                (str (digit (unit mod 16)%N)))))).

(** [JSON.stringify(s.slice(i, i + 2))] where [s.slice(i, i + 1)] is the
    ASCII character [c] and [rest] is [s.slice(i + 1)].  The slice holds
    [c] and one UTF-16 code unit.  That unit is the whole character that
    [rest] begins with when the character is in the basic plane, which is
    at most three bytes in UTF-8; beyond the basic plane it is the first
    half of a surrogate pair, which [JSON.stringify] shows as an
    escape. *)
Definition stringifyTwo (c : ascii) (rest : string) : string :=
  match rest with
  | EmptyString => stringify (str c)
  | String d _ =>
      if charBytes d <? 4 then
        stringify (String c (String.substring 0 (charBytes d) rest))
      else String quote (jsonChar c +:+ surrogateEscape rest +:+ str quote)
  end.

End Js.

(** ** JSON Pointer tokens ([pointer.ts]) *)
Module Pointer.

(** The [while (offset < input.length)] loop of [escapePointer].  [rest]
    is the part of [input] from [offset] on: its head is
    [input.charCodeAt(offset)], and it is empty exactly when the loop
    condition fails.  The result is the final [(output, start)]. *)
Fixpoint escapeLoop (input rest output : string) (offset start : nat)
  : string * nat :=
  match rest with
  | EmptyString => (output, start)
  | String c rest' =>
      if Ascii.eqb c Js.tilde then
        escapeLoop input rest'
          ((output +:+ Js.slice input start offset) +:+ "~0")
          (offset + 1) (offset + 1)
      else if Ascii.eqb c Js.slash then
        escapeLoop input rest'
          ((output +:+ Js.slice input start offset) +:+ "~1")
          (offset + 1) (offset + 1)
      else escapeLoop input rest' output (offset + 1) start
  end.

Definition escapePointer (input : string) : string :=
  let '(output, start) := escapeLoop input input EmptyString 0 0 in
  if start =? 0 then input
  else if start <? String.length input then
    output +:+ Js.sliceFrom input start
  else output.

(** The loop of [unescapePointer]; after a [~] the next character is
    [input.charCodeAt(offset)] when there is one and [-1] otherwise.  The
    slice [input.slice(offset - 1, offset + 1)] of the error message is
    the [~] and the code unit after it, or the [~] alone at the end. *)
Fixpoint unescapeLoop (input rest output : string) (offset start : nat)
  : completion (string * nat) :=
  match rest with
  | EmptyString => Normal (output, start)
  | String c rest' =>
      if Ascii.eqb c Js.tilde then
        let output := output +:+ Js.slice input start offset in
        let offset := offset + 1 in
        match rest' with
        | String d rest'' =>
            if Ascii.eqb d "0" then
              unescapeLoop input rest'' (output +:+ "~")
                (offset + 1) (offset + 1)
            else if Ascii.eqb d "1" then
              unescapeLoop input rest'' (output +:+ "/")
                (offset + 1) (offset + 1)
            else
              Throw (TypeError
                ("Invalid JSON pointer escape sequence: " +:+
                 Js.stringifyTwo c rest'))
        | EmptyString =>
            Throw (TypeError
              ("Invalid JSON pointer escape sequence: " +:+
               Js.stringify (Js.slice input (offset - 1) (offset + 1))))
        end
      else unescapeLoop input rest' output (offset + 1) start
  end.

Definition unescapePointer (input : string) : completion string :=
  match unescapeLoop input input EmptyString 0 0 with
  | Throw e => Throw e
  | Normal (output, start) =>
      if start =? 0 then Normal input
      else if start <? String.length input then
        Normal (output +:+ Js.sliceFrom input start)
      else Normal output
  end.

(** [formatPointer] *)
Definition formatPointer (tokens : list string) : string :=
  foldl (fun pointer token => pointer +:+ "/" +:+ escapePointer token)
    EmptyString tokens.

End Pointer.


(** ** Nodes ([node.ts]) *)

Abbreviation addr := nat.

(** A node.  [VObj a] is the object or array stored in cell [a]; [VHost]
    is a value of the host that is not JSON data: a built-in function or
    a prototype object found along a prototype chain. *)
Inductive value : Type :=
  | VNull
  | VBool (b : bool)
  | VNum (n : Z)
  | VStr (s : string)
  | VObj (a : addr)
  | VHost (name : string).

Global Instance value_eq_dec : EqDecision value.
Proof. solve_decision. Defined.

(** A cell holds an array or a plain object; the properties of an object
    are listed in the order [Object.entries] enumerates them. *)
Inductive Cell : Type :=
  | Arr (items : list value)
  | Obj (props : list (string * value)).

Abbreviation Heap := (list Cell).

(** What a value of the host holds under a name: [null], a number, or
    another value of the host.  (A prototype object holds functions, the
    prototype it inherits from, and the [length] of [Array.prototype]; it
    holds no string and no document.) *)
Inductive hosted : Type :=
  | HostNull
  | HostNum (n : Z)
  | HostValue (name : string).

Definition ofHosted (x : hosted) : value :=
  match x with
  | HostNull => VNull
  | HostNum n => VNum n
  | HostValue name => VHost name
  end.

(** What [typeof] and [Array.isArray] say of a value of the host: a
    function, or an object that is or is not an array.  The objects of the
    host are prototype objects: they have no enumerable property and no
    item. *)
Inductive hostType : Type :=
  | HostFunction
  | HostObject
  | HostArray.

(** What plain objects and arrays inherit from their prototypes, and
    what the values of the host hold.  Property reads ([node[key]]) and
    the [in] operator see the inherited names besides the own properties.
    [hostTypeOf name] is the type of the host value [v] of that name, and
    [hostProperty name key] is [v[key]], [None] when there is no such
    property.  Every statement below is proved for an arbitrary host. *)
Class Host : Type := {
  objectProto : string -> option value;
  arrayProto : string -> option value;
  hostTypeOf : string -> hostType;
  hostProperty : string -> string -> option hosted;
}.

Fixpoint assoc {A : Type} (k : string) (l : list (string * A)) : option A :=
  match l with
  | [] => None
  | (k', v) :: r => if String.eqb k' k then Some v else assoc k r
  end.

(** [o[k] = v] on the own properties of a plain object: an existing
    property keeps its place, a new one is enumerated last. *)
Fixpoint assocSet {A : Type} (k : string) (v : A) (l : list (string * A))
  : list (string * A) :=
  match l with
  | [] => [(k, v)]
  | (k', v') :: r =>
      if String.eqb k' k then (k', v) :: r else (k', v') :: assocSet k v r
  end.

(** The array index a property name denotes, if it is a canonical one. *)
Definition parseIndex (s : string) : option nat :=
  match NilZero.uint_of_string s with
  | Some u =>
      let n := Nat.of_uint u in
      if String.eqb (Js.ofNat n) s then Some n else None
  | None => None
  end.

(** [isObject]: [node !== null && typeof node === "object"] *)
Definition isObject `{Host} (v : value) : bool :=
  match v with
  | VObj _ => true
  | VHost name =>
      match hostTypeOf name with HostFunction => false | _ => true end
  | _ => false
  end.

(** [isArray]: [Array.isArray(node)] *)
Definition isArray `{Host} (h : Heap) (v : value) : bool :=
  match v with
  | VObj a => match h !! a with Some (Arr _) => true | _ => false end
  | VHost name =>
      match hostTypeOf name with HostArray => true | _ => false end
  | _ => false
  end.

(** [Object.values(node)] for an object or array node *)
Definition values (h : Heap) (a : addr) : list value :=
  match h !! a with
  | Some (Arr items) => items
  | Some (Obj props) => props.*2
  | None => []
  end.

(** [Object.entries(node)] for a plain object *)
Definition entries (h : Heap) (a : addr) : list (string * value) :=
  match h !! a with
  | Some (Obj props) => props
  | _ => []
  end.

(** [getChild]: [node[key]], or [undefined] ([None]) when [node] is
    [null] or not of type [object]. *)
Definition getChild `{Host} (h : Heap) (node : value) (key : string)
  : option value :=
  match node with
  | VObj a =>
      match h !! a with
      | Some (Obj props) =>
          match assoc key props with
          | Some v => Some v
          | None => objectProto key
          end
      | Some (Arr items) =>
          if String.eqb key "length" then
            Some (VNum (Z.of_nat (length items)))
          else
            match parseIndex key ≫= (items !!.) with
            | Some v => Some v
            | None => arrayProto key
            end
      | None => None
      end
  | VHost name =>
      if isObject node then ofHosted <$> hostProperty name key else None
  | _ => None
  end.

(** ** Resolving a pointer ([pointer.ts]) *)

(** The [while (offset < pointer.length)] loop of [resolvePointer].  Every
    round moves [offset] to a strictly larger [end], so
    [String.length pointer] rounds are enough ([resolvePointerLoop_fuel]);
    the loop has ended when the fuel is used up. *)
Fixpoint resolvePointerLoop `{Host} (fuel : nat) (h : Heap) (pointer : string)
  (offset : nat) (node : value) : completion value :=
  match fuel with
  | 0 => Normal node
  | S fuel =>
      if offset <? String.length pointer then
        let end_ :=
          match Js.indexOf Js.slash (offset + 1) pointer with
          | Some e => e
          | None => String.length pointer
          end in
        match Pointer.unescapePointer (Js.slice pointer (offset + 1) end_) with
        | Throw e => Throw e
        | Normal token =>
            match getChild h node token with
            | None =>
                Throw (ResolutionError
                  ("Property " +:+ Js.stringify token +:+
                   " not found while resolving JSON pointer " +:+
                   Js.stringify pointer)
                  (Some (Js.slice pointer 0 end_)) None)
            | Some next => resolvePointerLoop fuel h pointer end_ next
            end
        end
      else Normal node
  end.

Definition resolvePointer `{Host} (h : Heap) (pointer : string) (node : value)
  : completion value :=
  if negb (String.length pointer =? 0) && negb (Js.startsWith Js.slash pointer)
  then
    Throw (TypeError
      ("Expected JSON pointer to start with " +:+ Js.stringify "/" +:+ ": " +:+
       Js.stringify pointer))
  else resolvePointerLoop (String.length pointer) h pointer 0 node.


(** ** Resources, references, frames and the context *)

(** [Resource] of [resource.ts].  The sources never write to a resource
    while resolving, so the registry stores resources as values. *)
Module Resource.
Record t : Type := mk {
  uri : option string;
  node : addr;
  baseUri : option string;
  anchors : option (gmap string addr);
}.
End Resource.

(** [Reference] of [reference.ts].  References are mutable objects that
    the permanent map and the unresolved map share: they live in the
    state's [referenceObjs] and the maps hold their identifiers. *)
Module Reference.
Record t : Type := mk {
  key : string;
  uri : string;
  target : option value;
}.
End Reference.

Abbreviation rid := nat.

(** [Frame] of [context.ts].  [parent] is [readonly]: a frame is its
    identity together with its parent chain, and [===] on frames is
    equality of these.  The writable fields are kept per identity in the
    state's [frameObjs]. *)
Module Frame.
#[local] Unset Elimination Schemes.
Inductive t : Type := mk { id : nat; parent : option t }.
#[local] Set Elimination Schemes.

Inductive key : Type :=
  | KeyStr (s : string)
  | KeyNum (n : nat).

Record fields : Type := mkFields {
  baseUri : option string;
  nodeKey : option key;
  node : option value;
}.

Fixpoint eqb (f g : t) : bool :=
  Nat.eqb (id f) (id g) &&
  match parent f, parent g with
  | Some p, Some q => eqb p q
  | None, None => true
  | _, _ => false
  end.

(** [context.stack === frame] *)
Definition same (top : option t) (frame : t) : bool :=
  match top with
  | Some f => eqb f frame
  | None => false
  end.

(** [String(key)] *)
Definition keyString (k : key) : string :=
  match k with
  | KeyStr s => s
  | KeyNum n => Js.ofNat n
  end.
End Frame.

(** The identity of an injected function. *)
Abbreviation fid := nat.

(** [Context] of [context.ts] (the internal [createFrame] hook is taken
    to be the default [createFrame]).  The context holds its resolver by
    identity; the function behind an identity is given by [resolverOf]
    below. *)
Module Context.
Record t : Type := mk {
  stack : option Frame.t;
  resolveResource : option fid;
  resources : option (gmap addr Resource.t);
  canonical : option (gmap string Resource.t);
  references : option (gmap addr rid);
  unresolved : option (list (addr * rid));
}.

Definition withStack (c : t) (s : option Frame.t) : t :=
  mk s (resolveResource c) (resources c) (canonical c) (references c)
    (unresolved c).
Definition withResources (c : t) (r : option (gmap addr Resource.t)) : t :=
  mk (stack c) (resolveResource c) r (canonical c) (references c)
    (unresolved c).
Definition withCanonical (c : t) (m : option (gmap string Resource.t)) : t :=
  mk (stack c) (resolveResource c) (resources c) m (references c)
    (unresolved c).
Definition withReferences (c : t) (m : option (gmap addr rid)) : t :=
  mk (stack c) (resolveResource c) (resources c) (canonical c) m
    (unresolved c).
Definition withUnresolved (c : t) (u : option (list (addr * rid))) : t :=
  mk (stack c) (resolveResource c) (resources c) (canonical c)
    (references c) u.
End Context.

(** The context together with the objects it points to. *)
Record State : Type := mkState {
  heap : Heap;
  frameObjs : list Frame.fields;
  referenceObjs : list Reference.t;
  context : Context.t;
}.

Definition withContext (st : State) (c : Context.t) : State :=
  mkState (heap st) (frameObjs st) (referenceObjs st) c.
Definition withFrameObjs (st : State) (f : list Frame.fields) : State :=
  mkState (heap st) f (referenceObjs st) (context st).
Definition withReferenceObjs (st : State) (r : list Reference.t) : State :=
  mkState (heap st) (frameObjs st) r (context st).
Definition withHeap (st : State) (h : Heap) : State :=
  mkState h (frameObjs st) (referenceObjs st) (context st).

(** The injected resolvers: [resolverOf id] is the function
    [(uri, context) => Resource | undefined] of identity [id].  It is
    called with the URI and the context, that is with the state, and
    returns or throws in the state it leaves; a resolver that returns a
    promise is awaited, and the state it leaves is the one the promise
    settles in.  Every statement below is proved for arbitrary
    resolvers, under the assumptions it states. *)
Class Resolvers : Type :=
  resolverOf : fid -> string -> State -> completion (option Resource.t) * State.

(** [createContext(options)] with [options.resolveResource] only. *)
Definition createContext (resolver : option fid) : Context.t :=
  Context.mk None resolver (Some ∅) (Some ∅) (Some ∅) None.

Definition initialState (h : Heap) (resolver : option fid) : State :=
  mkState h [] [] (createContext resolver).

(** *** The frame stack ([context.ts]) *)

Definition createFrame (id : nat) (parent : option Frame.t)
  : Frame.t * Frame.fields :=
  (Frame.mk id parent, Frame.mkFields None None None).

Definition pushFrame (st : State) : Frame.t * State :=
  let '(frame, fields) :=
    createFrame (length (frameObjs st)) (Context.stack (context st)) in
  (frame,
   withContext (withFrameObjs st (frameObjs st ++ [fields]))
     (Context.withStack (context st) (Some frame))).

Definition popFrame (st : State) : option Frame.t * State :=
  let frame := Context.stack (context st) in
  let parent := frame ≫= Frame.parent in
  (frame, withContext st (Context.withStack (context st) parent)).

(** What a unit of work hands back: a plain result, or a promise.  A
    promise is the rest of the work: it settles, fulfilled ([Normal]) or
    rejected ([Throw]), on the state it finds when it is resumed. *)
Definition Promise (A : Type) : Type := State -> completion A * State.

Inductive returned (A : Type) : Type :=
  | Plain (a : A)
  | Pending (p : Promise A).
Arguments Plain {A} a.
Arguments Pending {A} p.

(** [p.then(onFulfilled, onRejected)] *)
Definition andThen {A B : Type} (p : Promise A)
  (onFulfilled : State -> A -> completion B * State)
  (onRejected : State -> exn -> completion B * State) : Promise B :=
  fun st =>
    match p st with
    | (Normal a, st') => onFulfilled st' a
    | (Throw e, st') => onRejected st' e
    end.

Definition corrupted : exn :=
  JsError "Stack frame was replaced during execution".

Definition unnestFrame {A : Type} (frame : Frame.t) (st : State) (result : A)
  : completion A * State :=
  if negb (Frame.same (Context.stack (context st)) frame) then
    (Throw corrupted, st)
  else (Normal result, (popFrame st).2).

Definition unwindFrame {A : Type} (frame : Frame.t) (st : State) (error : exn)
  : completion A * State :=
  if Frame.same (Context.stack (context st)) frame then
    (Throw error, (popFrame st).2)
  else (Throw error, st).

(** [nestFrame] of [context.ts], the revision that supports promises. *)
Definition nestFrame {A : Type}
  (fn : Frame.t -> State -> completion (returned A) * State) (st : State)
  : completion (returned A) * State :=
  let '(frame, st) := pushFrame st in
  match fn frame st with
  | (Throw error, st) => unwindFrame frame st error
  | (Normal (Plain result), st) =>
      match unnestFrame frame st result with
      | (Normal r, st) => (Normal (Plain r), st)
      | (Throw e, st) => (Throw e, st)
      end
  | (Normal (Pending result), st) =>
      (Normal (Pending (andThen result (unnestFrame frame)
                          (unwindFrame frame))), st)
  end.

(** [nestFrame] of the earlier revision of [context.ts]: a [try] block
    that checks the stack and returns, and a [finally] block that pops. *)
Definition nestFrameSync {A : Type}
  (fn : Frame.t -> State -> completion (returned A) * State) (st : State)
  : completion (returned A) * State :=
  let '(frame, st) := pushFrame st in
  let finally_ (st : State) : State :=
    if Frame.same (Context.stack (context st)) frame then (popFrame st).2
    else st in
  match fn frame st with
  | (Throw error, st) => (Throw error, finally_ st)
  | (Normal result, st) =>
      if negb (Frame.same (Context.stack (context st)) frame) then
        (Throw corrupted, finally_ st)
      else (Normal result, finally_ st)
  end.

Definition fieldsOf (st : State) (frame : Frame.t) : Frame.fields :=
  default (Frame.mkFields None None None) (frameObjs st !! Frame.id frame).

(** [getResource] *)
Definition getResource (ctx : Context.t) (node : value)
  : option Resource.t :=
  match node with
  | VObj a => Context.resources ctx ≫= (.!! a)
  | _ => None
  end.

(** [currentLocation(context, frame)] for a defined [frame] *)
Fixpoint locationOf (st : State) (frame : Frame.t) : string :=
  let f := fieldsOf st frame in
  match (Frame.node f ≫= getResource (context st)) ≫= Resource.uri with
  | Some uri => uri
  | None =>
      let uri :=
        match Frame.parent frame with
        | Some parent =>
            let uri := locationOf st parent in
            if negb (Js.includes Js.hash uri) then uri +:+ "#" else uri
        | None => "#"
        end in
      match Frame.nodeKey f with
      | Some key => uri +:+ "/" +:+ Pointer.escapePointer (Frame.keyString key)
      | None => uri
      end
  end.

(** [currentLocation(context)] *)
Definition currentLocation (st : State) : string :=
  match Context.stack (context st) with
  | None => EmptyString
  | Some frame => locationOf st frame
  end.

(** *** The resource registry ([resource.ts]) *)

Definition createResource (canonicalUri : option string) (node : addr)
  : Resource.t :=
  Resource.mk canonicalUri node canonicalUri None.

Definition setResource (ctx : Context.t) (resource : Resource.t)
  : Context.t :=
  let resources := default ∅ (Context.resources ctx) in
  let ctx :=
    Context.withResources ctx
      (Some (<[Resource.node resource := resource]> resources)) in
  match Resource.uri resource with
  | None => ctx
  | Some canonicalUri =>
      let canonical := default ∅ (Context.canonical ctx) in
      let canonical := <[canonicalUri := resource]> canonical in
      let canonical :=
        if Js.endsWith Js.hash canonicalUri then
          <[Js.slice canonicalUri 0 (String.length canonicalUri - 1)
            := resource]> canonical
        else canonical in
      Context.withCanonical ctx (Some canonical)
  end.

Definition getResourceAnchor (resource : Resource.t) (name : string)
  : option addr :=
  Resource.anchors resource ≫= (.!! name).

Definition setResourceAnchor (resource : Resource.t) (name : string)
  (anchor : addr) : Resource.t :=
  Resource.mk (Resource.uri resource) (Resource.node resource)
    (Resource.baseUri resource)
    (Some (<[name := anchor]> (default ∅ (Resource.anchors resource)))).

(** [resolveResource]: the canonical map first, then the injected
    resolver, called with the URI and the context; the resource it
    returns is registered, in the context as the resolver left it, before
    it is returned. *)
Definition resolveResource `{Resolvers} (st : State) (canonicalUri : string)
  : completion (option Resource.t) * State :=
  match Context.canonical (context st) ≫= (.!! canonicalUri) with
  | Some resource => (Normal (Some resource), st)
  | None =>
      match Context.resolveResource (context st) with
      | None => (Normal None, st)
      | Some resolver =>
          match resolverOf resolver canonicalUri st with
          | (Throw e, st) => (Throw e, st)
          | (Normal None, st) => (Normal None, st)
          | (Normal (Some resource), st) =>
              (Normal (Some resource),
               withContext st (setResource (context st) resource))
          end
      end
  end.

Definition resolveResourceFragment `{Host} (st : State)
  (resource : Resource.t) (fragment : string) : completion value :=
  if String.length fragment =? 0 then Normal (VObj (Resource.node resource))
  else if Js.startsWith Js.slash fragment then
    resolvePointer (heap st) fragment (VObj (Resource.node resource))
  else
    match getResourceAnchor resource fragment with
    | Some node => Normal (VObj node)
    | None =>
        Throw (ResolutionError
          ("Cannot resolve plain name fragment " +:+ Js.stringify fragment +:+
           " because the current resource has no corresponding anchor")
          (Some (currentLocation st)) None)
    end.

(** The second half of [resolveResourceUri]: [fragment] is [None] when
    the URI has no [#]. *)
Definition resolveFragmentPart `{Host} (st : State) (resource : Resource.t)
  (fragment : option string) : completion value :=
  match fragment with
  | Some fragment =>
      if negb (String.length fragment =? 0) then
        resolveResourceFragment st resource fragment
      else Normal (VObj (Resource.node resource))
  | None => Normal (VObj (Resource.node resource))
  end.

Definition resolveResourceUri `{Host} `{Resolvers} (st : State)
  (resource : option Resource.t) (uri : string) : completion value * State :=
  let parts := Js.split Js.hash 2 uri in
  let canonicalUri := default EmptyString (parts !! 0) in
  let fragment := parts !! 1 in
  if negb (String.length canonicalUri =? 0) then
    match resolveResource st canonicalUri with
    | (Throw e, st) => (Throw e, st)
    | (Normal None, st) =>
        (Throw (ResolutionError
           ("Unknown resource " +:+ Js.stringify canonicalUri)
           (Some (currentLocation st)) None), st)
    | (Normal (Some resource), st) =>
        (resolveFragmentPart st resource fragment, st)
    end
  else
    match resource with
    | None =>
        (Throw (ResolutionError
           ("Cannot resolve relative URI reference " +:+ Js.stringify uri +:+
            " because the stack has no base node")
           (Some (currentLocation st)) None), st)
    | Some resource => (resolveFragmentPart st resource fragment, st)
    end.

(** *** The reference engine ([reference.ts]) *)

Definition createReference (key uri : string) : Reference.t :=
  Reference.mk key uri None.

(** The reference object behind an identifier. *)
Definition deref (st : State) (r : rid) : Reference.t :=
  default (createReference EmptyString EmptyString) (referenceObjs st !! r).

(** [getReference]: [WeakMap.get] is [undefined] on a non-object. *)
Definition getReference (st : State) (node : value) : option rid :=
  match node with
  | VObj a => Context.references (context st) ≫= (.!! a)
  | _ => None
  end.

(** [Map.prototype.set] and [delete] on the insertion-ordered unresolved
    map. *)
Fixpoint mapSet (k : addr) (v : rid) (m : list (addr * rid))
  : list (addr * rid) :=
  match m with
  | [] => [(k, v)]
  | (k', v') :: r =>
      if Nat.eqb k' k then (k', v) :: r else (k', v') :: mapSet k v r
  end.

Definition mapDelete (k : addr) (m : list (addr * rid)) : list (addr * rid) :=
  filter (fun e => e.1 ≠ k) m.

Definition registerReference (st : State) (node : addr) (key uri : string)
  : rid * State :=
  let references := Context.references (context st) in
  match references ≫= (.!! node) with
  | Some reference => (reference, st)
  | None =>
      let reference := length (referenceObjs st) in
      let st :=
        withReferenceObjs st (referenceObjs st ++ [createReference key uri]) in
      let references := <[node := reference]> (default ∅ references) in
      let unresolved :=
        mapSet node reference (default [] (Context.unresolved (context st))) in
      (reference,
       withContext st
         (Context.withUnresolved
            (Context.withReferences (context st) (Some references))
            (Some unresolved)))
  end.

(** The variable [cause] of [resolveReferences]. *)
Inductive Cause : Type :=
  | CauseUndefined
  | CauseOne (error : exn)
  | CauseArray (errors : list exn).

Definition capture (cause : Cause) (error : exn) : Cause :=
  match cause with
  | CauseUndefined => CauseOne error
  | CauseOne first => CauseArray [first; error]
  | CauseArray errors => CauseArray (errors ++ [error])
  end.

(** [reference.target = node] *)
Definition setTarget (st : State) (r : rid) (node : value) : State :=
  let ref := deref st r in
  withReferenceObjs st
    (<[r := Reference.mk (Reference.key ref) (Reference.uri ref) (Some node)]>
       (referenceObjs st)).

(** [unresolved.delete(node)] *)
Definition deleteUnresolved (st : State) (node : addr) : State :=
  withContext st
    (Context.withUnresolved (context st)
       (mapDelete node <$> Context.unresolved (context st))).

(** The [for (const [node, reference] of unresolved)] loop.  The
    iterator of a [Map] is live: it yields the first entry behind its
    position that the map holds when it is asked.  The body deletes every
    entry it is given, and a deleted entry never comes back at its old
    place ([set] appends), so that entry is the first entry of the map,
    the entries that a resolver has added in the meantime included.  The
    loop ends when the map is empty.  [fuel] bounds the number of rounds:
    [None] is a loop that is still running when the fuel is used up, as a
    resolver that keeps registering references makes it.  (The context
    keeps the one [Map] it has: nothing in the sources replaces it.) *)
Fixpoint drainLoop `{Host} `{Resolvers} (fuel : nat)
  (resource : option Resource.t) (st : State) (cause : Cause)
  : option (completion Cause * State) :=
  match default [] (Context.unresolved (context st)) with
  | [] => Some (Normal cause, st)
  | (node, reference) :: _ =>
      match fuel with
      | 0 => None
      | S fuel =>
          let st := deleteUnresolved st node in
          match resolveResourceUri st resource
                  (Reference.uri (deref st reference)) with
          | (Normal target, st) =>
              drainLoop fuel resource (setTarget st reference target) cause
          | (Throw error, st) =>
              if negb (isResolutionError error) then Some (Throw error, st)
              else drainLoop fuel resource st (capture cause error)
          end
      end
  end.

Definition multipleMessage (errors : list exn) : string :=
  foldl (fun msg error => msg +:+ String (ascii_of_nat 10) "  " +:+
                          message error)
    "Unable to resolve multiple references" errors.

(** [resolveReferences]: [None] when the loop is still running after
    [fuel] rounds. *)
Definition resolveReferences `{Host} `{Resolvers} (fuel : nat) (st : State)
  (resource : option Resource.t) : option (completion unit * State) :=
  match Context.unresolved (context st) with
  | None => Some (Normal tt, st)
  | Some _ =>
      match drainLoop fuel resource st CauseUndefined with
      | None => None
      | Some (Throw error, st) => Some (Throw error, st)
      | Some (Normal (CauseArray errors), st) =>
          Some (Throw (ResolutionError (multipleMessage errors)
                         (Some (currentLocation st)) (Some errors)), st)
      | Some (Normal (CauseOne error), st) => Some (Throw error, st)
      | Some (Normal CauseUndefined, st) => Some (Normal tt, st)
      end
  end.


(** *** Tree shaking ([treeShakeReferences] of [reference.ts]) *)

Module Shake.
(** The [options] argument.  The transform may allocate; it is handed
    the heap and returns the heap it leaves. *)
Record options : Type := mkOptions {
  roots : list addr;
  defsUri : string;
  transform : option (Heap -> value -> value * Heap);
}.

(** The variables [visited], [refs] and [defs] of the closure.  A
    property of [defs] holding [None] is the placeholder
    [defs[refName] = undefined]. *)
Record vars : Type := mkVars {
  visited : gset addr;
  refs : list (value * string);
  defs : option (list (string * option value));
}.

Definition withVisited (v : vars) (s : gset addr) : vars :=
  mkVars s (refs v) (defs v).
Definition withRefs (v : vars) (r : list (value * string)) : vars :=
  mkVars (visited v) r (defs v).
Definition withDefs (v : vars) (d : option (list (string * option value)))
  : vars :=
  mkVars (visited v) (refs v) d.

(** The returned [{ roots, defs }]. *)
Record output : Type := mkOutput {
  outRoots : list value;
  outDefs : option (list (string * option value));
}.
End Shake.

(** [refs.get(target)]: a [Map] compares objects by identity and
    primitives by value. *)
Fixpoint refsGet (target : value) (refs : list (value * string))
  : option string :=
  match refs with
  | [] => None
  | (t, name) :: r =>
      if decide (t = target) then Some name else refsGet target r
  end.

(** [o[k] = v] on a plain object: assigning to [__proto__] goes to the
    inherited setter and creates no own property. *)
Definition objSet {A : Type} (k : string) (v : A) (l : list (string * A))
  : list (string * A) :=
  if String.eqb k "__proto__" then l else assocSet k v l.

(** [key in defs] *)
Definition inDefs `{Host} (key : string)
  (defs : list (string * option value)) : bool :=
  match assoc key defs with
  | Some _ => true
  | None => match objectProto key with Some _ => true | None => false end
  end.

(** [defs[key]] *)
Definition defsGet `{Host} (key : string)
  (defs : list (string * option value)) : option value :=
  match assoc key defs with
  | Some v => v
  | None => objectProto key
  end.

(** [uri.slice(Math.max(uri.lastIndexOf("/"), uri.lastIndexOf("#")) + 1)] *)
Definition nameOfUri (uri : string) : string :=
  Js.sliceFrom uri
    (Z.to_nat
       (Z.max (Js.lastIndexOf Js.slash uri) (Js.lastIndexOf Js.hash uri) + 1)).

(** [while (key in defs) { key = name + counter; counter += 1; }] *)
Fixpoint uniqueKey `{Host} (fuel : nat) (name key : string) (counter : nat)
  (defs : list (string * option value)) : option string :=
  if inDefs key defs then
    match fuel with
    | 0 => None
    | S fuel =>
        uniqueKey fuel name (name +:+ Js.ofNat counter) (counter + 1) defs
    end
  else Some key.

(** [options.roots.includes(target)] *)
Definition includesRoot (roots : list addr) (target : value) : bool :=
  match target with
  | VObj a => bool_decide (a ∈ roots)
  | _ => false
  end.

(** A loop that threads the closure variables through a list. *)
Fixpoint forEach {A S : Type} (body : A -> S -> option S) (l : list A) (s : S)
  : option S :=
  match l with
  | [] => Some s
  | x :: r =>
      match body x s with
      | Some s => forEach body r s
      | None => None
      end
  end.

(** The body of [if (!refs.has(ref.target)) { ... }]: a target without a
    name gets one.  [fuel] bounds the [while] loop. *)
Definition nameTarget `{Host} (fuel : nat) (st : State) (r : rid)
  (target : value) (sh : Shake.vars) : option Shake.vars :=
  match refsGet target (Shake.refs sh) with
  | Some _ => Some sh
  | None =>
      let name := nameOfUri (Reference.uri (deref st r)) in
      let key :=
        match Shake.defs sh with
        | Some defs => uniqueKey fuel name name 1 defs
        | None => Some name
        end in
      (fun key => Shake.withRefs sh (Shake.refs sh ++ [(target, key)]))
      <$> key
  end.

(** The body of [collectReferences]; [self] is the function itself.  A
    prototype object of the host is no registered node and has no item and
    no enumerable property: visiting it changes [visited] only, which
    nothing else reads, and is left out. *)
Definition collectBody `{Host} (fuel : nat)
  (self : value -> Shake.vars -> option Shake.vars) (o : Shake.options)
  (st : State) (node : value) (sh : Shake.vars) : option Shake.vars :=
  match node with
  | VObj a =>
      if bool_decide (a ∈ Shake.visited sh) then Some sh
      else
        let sh := Shake.withVisited sh ({[a]} ∪ Shake.visited sh) in
        let marked :=
          match getReference st node with
          | Some r =>
              match Reference.target (deref st r) with
              | Some target =>
                  if negb (includesRoot (Shake.roots o) target) then
                    nameTarget fuel st r target sh ≫= self target
                  else Some sh
              | None => Some sh
              end
          | None => Some sh
          end in
        marked ≫= forEach self (values (heap st) a)
  | _ => Some sh
  end.

(** [collectReferences]: [None] when the fuel does not cover the depth of
    the recursion. *)
Fixpoint collectReferences `{Host} (fuel : nat) (o : Shake.options)
  (st : State) (node : value) (sh : Shake.vars) : option Shake.vars :=
  match fuel with
  | 0 => None
  | S fuel => collectBody fuel (collectReferences fuel o st) o st node sh
  end.

Definition alloc (st : State) (c : Cell) : addr * State :=
  (length (heap st), withHeap st (heap st ++ [c])).

(** What [rewriteNode] gives: the new node, and the state and closure
    variables it leaves. *)
Abbreviation rewriting := (option (value * (State * Shake.vars))).

(** [isObject(item) ? rewriteNode(item) : item] *)
Definition rewriteChild `{Host}
  (self : value -> State -> Shake.vars -> rewriting)
  (item : value) (s : State * Shake.vars) : rewriting :=
  if isObject item then self item s.1 s.2 else Some (item, s).

(** [context.references.set(node, reference)] for a new reference
    object *)
Definition registerRewritten (st : State) (node : addr)
  (reference : Reference.t) : State :=
  let id := length (referenceObjs st) in
  let st := withReferenceObjs st (referenceObjs st ++ [reference]) in
  withContext st
    (Context.withReferences (context st)
       (Some (<[node := id]> (default ∅ (Context.references (context st)))))).

(** The branch [if (refName !== undefined)] of [rewriteNode]. *)
Definition relocate `{Host} (self : value -> State -> Shake.vars -> rewriting)
  (o : Shake.options) (r : rid) (target : value) (refName : string)
  (st : State) (sh : Shake.vars) : rewriting :=
  let defs := default [] (Shake.defs sh) in
  let relocated :=
    if negb (inDefs refName defs) then
      let sh := Shake.withDefs sh (Some (objSet refName None defs)) in
      match self target st sh with
      | Some (def, (st, sh)) =>
          Some (st,
                Shake.withDefs sh
                  (Some (objSet refName (Some def)
                           (default [] (Shake.defs sh)))))
      | None => None
      end
    else Some (st, Shake.withDefs sh (Some defs)) in
  match relocated with
  | Some (st, sh) =>
      let refKey := Reference.key (deref st r) in
      let refUri :=
        Shake.defsUri o +:+ "/" +:+ Pointer.escapePointer refName in
      let '(a, st) := alloc st (Obj [(refKey, VStr refUri)]) in
      let reference :=
        Reference.mk refKey refUri
          (defsGet refName (default [] (Shake.defs sh))) in
      Some (VObj a, (registerRewritten st a reference, sh))
  | None => None
  end.

(** The branch [else if (isArray(node))]. *)
Definition rewriteArray `{Host}
  (self : value -> State -> Shake.vars -> rewriting)
  (items : list value) (st : State) (sh : Shake.vars) : rewriting :=
  let push item (acc : list value * (State * Shake.vars)) :=
    match rewriteChild self item acc.2 with
    | Some (v, s) => Some (acc.1 ++ [v], s)
    | None => None
    end in
  match forEach push items ([], (st, sh)) with
  | Some (result, (st, sh)) =>
      let '(a, st) := alloc st (Arr result) in
      Some (VObj a, (st, sh))
  | None => None
  end.

(** The branch [else if (isObject(node))]. *)
Definition rewriteObject `{Host}
  (self : value -> State -> Shake.vars -> rewriting)
  (props : list (string * value)) (st : State) (sh : Shake.vars)
  : rewriting :=
  let put (kv : string * value)
    (acc : list (string * value) * (State * Shake.vars)) :=
    match rewriteChild self kv.2 acc.2 with
    | Some (v, s) => Some (objSet kv.1 v acc.1, s)
    | None => None
    end in
  match forEach put props ([], (st, sh)) with
  | Some (result, (st, sh)) =>
      let '(a, st) := alloc st (Obj result) in
      Some (VObj a, (st, sh))
  | None => None
  end.

(** [if (options.transform !== undefined) node = options.transform(node)] *)
Definition applyTransform (o : Shake.options)
  (r : value * (State * Shake.vars)) : rewriting :=
  match Shake.transform o with
  | Some transform =>
      let '(node, h) := transform (heap r.2.1) r.1 in
      Some (node, (withHeap r.2.1 h, r.2.2))
  | None => Some r
  end.

(** [refs.get(ref?.target)], with the reference and the target it
    comes from: [None] when the node is not a reference, when its
    reference has no target, or when the target has no name. *)
Definition refNameOf (st : State) (sh : Shake.vars) (node : value)
  : option (rid * value * string) :=
  match getReference st node with
  | Some r =>
      match Reference.target (deref st r) with
      | Some target =>
          match refsGet target (Shake.refs sh) with
          | Some refName => Some (r, target, refName)
          | None => None
          end
      | None => None
      end
  | None => None
  end.

(** The branches [else if (isArray(node))] and [else if (isObject(node))],
    and the node left as it is otherwise.  A prototype object of the host
    has no item and no enumerable property. *)
Definition rewriteStructure `{Host}
  (self : value -> State -> Shake.vars -> rewriting) (node : value)
  (st : State) (sh : Shake.vars) : rewriting :=
  match node with
  | VObj a =>
      match default (Obj []) (heap st !! a) with
      | Arr items => rewriteArray self items st sh
      | Obj props => rewriteObject self props st sh
      end
  | VHost name =>
      match hostTypeOf name with
      | HostArray => rewriteArray self [] st sh
      | HostObject => rewriteObject self [] st sh
      | HostFunction => Some (node, (st, sh))
      end
  | _ => Some (node, (st, sh))
  end.

(** The body of [rewriteNode]; [self] is the function itself.  The
    object or array a call builds is allocated when its contents are
    complete: nothing can reach it before. *)
Definition rewriteBody `{Host}
  (self : value -> State -> Shake.vars -> rewriting) (o : Shake.options)
  (node : value) (st : State) (sh : Shake.vars) : rewriting :=
  let rewritten :=
    match refNameOf st sh node with
    | Some (r, target, refName) => relocate self o r target refName st sh
    | None => rewriteStructure self node st sh
    end in
  rewritten ≫= applyTransform o.

(** [rewriteNode]: [None] when the fuel does not cover the depth of the
    recursion. *)
Fixpoint rewriteNode `{Host} (fuel : nat) (o : Shake.options) (node : value)
  (st : State) (sh : Shake.vars) : rewriting :=
  match fuel with
  | 0 => None
  | S fuel => rewriteBody (rewriteNode fuel o) o node st sh
  end.

(** The mark phase: [for (const root of options.roots)
    collectReferences(root)]. *)
Definition markRoots `{Host} (fuel : nat) (o : Shake.options) (st : State)
  : option Shake.vars :=
  forEach (fun root => collectReferences fuel o st (VObj root))
    (Shake.roots o) (Shake.mkVars ∅ [] None).

(** The rewrite phase: [options.roots.map(rewriteNode)]. *)
Definition rewriteRoots `{Host} (fuel : nat) (o : Shake.options) (st : State)
  (sh : Shake.vars) : option (list value * (State * Shake.vars)) :=
  let map root (acc : list value * (State * Shake.vars)) :=
    match rewriteNode fuel o (VObj root) acc.2.1 acc.2.2 with
    | Some (v, s) => Some (acc.1 ++ [v], s)
    | None => None
    end in
  forEach map (Shake.roots o) ([], (st, sh)).

Definition treeShakeReferences `{Host} (fuel : nat) (o : Shake.options)
  (st : State) : option (Shake.output * State) :=
  match markRoots fuel o st with
  | Some sh =>
      match rewriteRoots fuel o st sh with
      | Some (roots, (st, sh)) =>
          Some (Shake.mkOutput roots (Shake.defs sh), st)
      | None => None
      end
  | None => None
  end.

(** *** A concrete host *)

(** The functions that are own properties of [Object.prototype] in
    ECMAScript. *)
Definition objectPrototypeNames : list string :=
  ["constructor"; "__defineGetter__"; "__defineSetter__"; "hasOwnProperty";
   "__lookupGetter__"; "__lookupSetter__"; "isPrototypeOf";
   "propertyIsEnumerable"; "toString"; "valueOf"; "toLocaleString"].

(** The functions that are own properties of [Array.prototype] in
    ECMAScript 2023. *)
Definition arrayPrototypeNames : list string :=
  ["at"; "concat"; "constructor"; "copyWithin"; "entries"; "every"; "fill";
   "filter"; "find"; "findIndex"; "findLast"; "findLastIndex"; "flat";
   "flatMap"; "forEach"; "includes"; "indexOf"; "join"; "keys";
   "lastIndexOf"; "map"; "pop"; "push"; "reduce"; "reduceRight"; "reverse";
   "shift"; "slice"; "some"; "sort"; "splice"; "toLocaleString";
   "toReversed"; "toSorted"; "toSpliced"; "toString"; "unshift"; "values";
   "with"].

(** The function found under [key] on [Object.prototype], and on
    [Array.prototype] or, through it, on [Object.prototype]. *)
Definition objectFunction (key : string) : option string :=
  if bool_decide (key ∈ objectPrototypeNames)
  then Some ("Object.prototype." +:+ key)
  else None.

Definition arrayFunction (key : string) : option string :=
  if bool_decide (key ∈ arrayPrototypeNames)
  then Some ("Array.prototype." +:+ key)
  else objectFunction key.

(** The host the closed examples run on.  The accessor [__proto__] of
    [Object.prototype] gives the prototype of the object it is read on:
    [Object.prototype] on a plain object, [Array.prototype] on an array
    (which is itself an array, of length 0), [Object.prototype] on
    [Array.prototype] and [null] on [Object.prototype]. *)
Global Instance ecmaHost : Host := {|
  objectProto key :=
    if String.eqb key "__proto__" then Some (VHost "Object.prototype")
    else VHost <$> objectFunction key;
  arrayProto key :=
    if String.eqb key "__proto__" then Some (VHost "Array.prototype")
    else VHost <$> arrayFunction key;
  hostTypeOf name :=
    if String.eqb name "Object.prototype" then HostObject
    else if String.eqb name "Array.prototype" then HostArray
    else HostFunction;
  hostProperty name key :=
    if String.eqb name "Object.prototype" then
      if String.eqb key "__proto__" then Some HostNull
      else HostValue <$> objectFunction key
    else if String.eqb name "Array.prototype" then
      if String.eqb key "length" then Some (HostNum 0)
      else if String.eqb key "__proto__" then
        Some (HostValue "Object.prototype")
      else HostValue <$> arrayFunction key
    else None;
|}.

(** The resolvers of a context that has none. *)
Global Instance noResolvers : Resolvers :=
  fun _ _ st => (Normal None, st).

From Stdlib Require DecimalNat DecimalFacts.

(** ** Parsing a pointer ([pointer.ts]) *)

(** [InputBuffer]: the text, the position reached and the position to
    stop at. *)
Module InputBuffer.
Record t : Type := mk {
  input : string;
  offset : nat;
  limit : nat;
}.
End InputBuffer.

(** The [while (buf.offset < buf.limit)] loop of [parsePointer]; the
    result is the list of tokens and the final [buf.offset].  Every round
    moves the offset forward, so [limit] rounds are enough
    ([parsePointerLoop_fuel]). *)
Fixpoint parsePointerLoop (fuel : nat) (input : string) (offset limit : nat)
  (tokens : list string) : completion (list string * nat) :=
  match fuel with
  | 0 => Normal (tokens, offset)
  | S fuel =>
      if offset <? limit then
        let end_ :=
          match Js.indexOf Js.slash (offset + 1) input with
          | Some e => e
          | None => limit
          end in
        match Pointer.unescapePointer (Js.slice input (offset + 1) end_) with
        | Throw e => Throw e
        | Normal token =>
            parsePointerLoop fuel input end_ limit (tokens ++ [token])
        end
      else Normal (tokens, offset)
  end.

(** [parsePointer(buf)]: the tokens, and the buffer as the call leaves
    it. *)
Definition parsePointerBuffer (buf : InputBuffer.t)
  : completion (list string * InputBuffer.t) :=
  let input := InputBuffer.input buf in
  if (InputBuffer.offset buf <? InputBuffer.limit buf) &&
     negb (match String.get (InputBuffer.offset buf) input with
           | Some c => Ascii.eqb c Js.slash
           | None => false
           end)
  then
    Throw (TypeError
      ("Expected JSON pointer to start with " +:+ Js.stringify "/" +:+ ": " +:+
       Js.stringify input))
  else
    match parsePointerLoop (InputBuffer.limit buf) input
            (InputBuffer.offset buf) (InputBuffer.limit buf) [] with
    | Throw e => Throw e
    | Normal (tokens, offset) =>
        Normal (tokens, InputBuffer.mk input offset (InputBuffer.limit buf))
    end.

(** [parsePointer(input)] for a string *)
Definition parsePointer (input : string) : completion (list string) :=
  match parsePointerBuffer
          (InputBuffer.mk input 0 (String.length input)) with
  | Throw e => Throw e
  | Normal (tokens, _) => Normal tokens
  end.

(** ** More of the frame stack ([context.ts]) *)

(** [frame.baseUri = uri] *)
Definition setBaseUri (st : State) (frame : Frame.t) (uri : option string)
  : State :=
  let f := fieldsOf st frame in
  withFrameObjs st
    (<[Frame.id frame := Frame.mkFields uri (Frame.nodeKey f) (Frame.node f)]>
       (frameObjs st)).

(** [frame.nodeKey = key; frame.node = node] *)
Definition setNode (st : State) (frame : Frame.t) (key : Frame.key)
  (node : value) : State :=
  let f := fieldsOf st frame in
  withFrameObjs st
    (<[Frame.id frame := Frame.mkFields (Frame.baseUri f) (Some key)
                           (Some node)]>
       (frameObjs st)).

(** [currentBaseUri(frame)] for a defined [frame] *)
Fixpoint baseUriOf (st : State) (frame : Frame.t) : option string :=
  match Frame.baseUri (fieldsOf st frame) with
  | Some uri => Some uri
  | None =>
      match Frame.parent frame with
      | Some parent => baseUriOf st parent
      | None => None
      end
  end.

(** [currentBaseUri(context)] *)
Definition currentBaseUri (st : State) : option string :=
  Context.stack (context st) ≫= baseUriOf st.

(** [currentPath(frame)] for a defined [frame] *)
Fixpoint pathOf (st : State) (frame : Frame.t) : list Frame.key :=
  let path :=
    match Frame.parent frame with
    | Some parent => pathOf st parent
    | None => []
    end in
  match Frame.nodeKey (fieldsOf st frame) with
  | Some key => path ++ [key]
  | None => path
  end.

(** [currentPath(context)] *)
Definition currentPath (st : State) : list Frame.key :=
  match Context.stack (context st) with
  | Some frame => pathOf st frame
  | None => []
  end.

(** [currentPointer(frame)] for a defined [frame] *)
Fixpoint pointerOf (st : State) (frame : Frame.t) : string :=
  let pointer :=
    match Frame.parent frame with
    | Some parent => pointerOf st parent
    | None => EmptyString
    end in
  match Frame.nodeKey (fieldsOf st frame) with
  | Some key =>
      pointer +:+ "/" +:+ Pointer.escapePointer (Frame.keyString key)
  | None => pointer
  end.

(** [currentPointer(context)] *)
Definition currentPointer (st : State) : string :=
  match Context.stack (context st) with
  | Some frame => pointerOf st frame
  | None => EmptyString
  end.

(** ** More of the resource registry ([resource.ts]) *)

(** The [while (frame !== undefined)] loop of [currentResource], from
    [frame] upwards; [current] is the variable of that name. *)
Fixpoint resourceOf (st : State) (frame : Frame.t)
  (current : option Resource.t) : option Resource.t :=
  let next (current : option Resource.t) :=
    match Frame.parent frame with
    | Some parent => resourceOf st parent current
    | None => current
    end in
  match Frame.node (fieldsOf st frame) ≫= getResource (context st) with
  | Some resource =>
      match Resource.uri resource with
      | Some _ => Some resource
      | None => next (Some resource)
      end
  | None => next current
  end.

(** [currentResource(context)] *)
Definition currentResource (st : State) : option Resource.t :=
  match Context.stack (context st) with
  | Some frame => resourceOf st frame None
  | None => None
  end.

(** ** More of the reference engine ([reference.ts]) *)

(** [traverseReference]: the [while (true)] loop, with [fuel] rounds at
    most; [None] when they do not reach a node without a target. *)
Fixpoint traverseReference (fuel : nat) (st : State) (node : value)
  : option value :=
  match getReference st node ≫= (fun r => Reference.target (deref st r)) with
  | None => Some node
  | Some target =>
      match fuel with
      | 0 => None
      | S fuel => traverseReference fuel st target
      end
  end.

(** *** Detecting references ([reference.ts]) *)

(** What [detectReference] uses of the package [tool-uri]:
    [resolveUri(baseUri, uri).href] and [parseUriReference(uri)], each of
    which may throw. *)
Class UriLibrary : Type := {
  resolveUri : string -> string -> completion string;
  parseUriReference : string -> completion unit;
}.

(** [detectReference(context, node, key)] *)
Definition detectReference `{Host} `{UriLibrary} (st : State) (node : value)
  (key : string) : completion (option rid) * State :=
  match node, getChild (heap st) node key with
  | VObj a, Some (VStr uri) =>
      let resolved :=
        match currentBaseUri st with
        | Some baseUri => resolveUri baseUri uri
        | None =>
            match parseUriReference uri with
            | Normal _ => Normal uri
            | Throw e => Throw e
            end
        end in
      match resolved with
      | Normal uri =>
          let '(reference, st) := registerReference st a key uri in
          (Normal (Some reference), st)
      | Throw e => (Throw e, st)
      end
  | _, _ => (Normal None, st)
  end.

(** A [for] loop whose body may throw, over a list: the first failure
    ends it.  [None] is a body that ran out of fuel. *)
Fixpoint forEachUntil {A : Type}
  (body : A -> State -> option (completion unit * State)) (l : list A)
  (st : State) : option (completion unit * State) :=
  match l with
  | [] => Some (Normal tt, st)
  | x :: r =>
      match body x st with
      | Some (Normal _, st) => forEachUntil body r st
      | Some (Throw e, st) => Some (Throw e, st)
      | None => None
      end
  end.

(** The keys and children a traversal visits: the indices and items of
    an array, the entries of an object. *)
Definition childEntries (h : Heap) (a : addr) : list (Frame.key * value) :=
  match h !! a with
  | Some (Arr items) => imap (fun i item => (Frame.KeyNum i, item)) items
  | Some (Obj props) => (fun kv => (Frame.KeyStr kv.1, kv.2)) <$> props
  | None => []
  end.

(** [nestFrame(context, (frame) => { frame.nodeKey = key; frame.node =
    child; detectReferences(context, child, keys); })]: [nestFrame] on a
    unit of work that returns no promise. *)
Definition visitChild (self : value -> State -> option (completion unit * State))
  (key : Frame.key) (child : value) (st : State)
  : option (completion unit * State) :=
  let '(frame, st) := pushFrame st in
  let st := setNode st frame key child in
  match self child st with
  | Some (Normal result, st) => Some (unnestFrame frame st result)
  | Some (Throw error, st) => Some (unwindFrame frame st error)
  | None => None
  end.

(** The body of [detectReferences]; [self] is the function itself and
    [keys] the list of keywords (a single keyword is a list of one). *)
Definition detectBody `{Host} `{UriLibrary}
  (self : value -> State -> option (completion unit * State))
  (keys : list string) (node : value) (st : State)
  : option (completion unit * State) :=
  let detect key st :=
    match detectReference st node key with
    | (Normal _, st) => Some (Normal tt, st)
    | (Throw e, st) => Some (Throw e, st)
    end in
  match forEachUntil detect keys st with
  | Some (Normal _, st) =>
      match node with
      | VObj a =>
          forEachUntil (fun entry => visitChild self entry.1 entry.2)
            (childEntries (heap st) a) st
      | _ => Some (Normal tt, st)
      end
  | other => other
  end.

(** [detectReferences]: [None] when the fuel does not cover the depth of
    the tree. *)
Fixpoint detectReferences `{Host} `{UriLibrary} (fuel : nat)
  (keys : list string) (node : value) (st : State)
  : option (completion unit * State) :=
  match fuel with
  | 0 => None
  | S fuel => detectBody (detectReferences fuel keys) keys node st
  end.

(** *** Creating a context with options ([context.ts]) *)

Module ContextOptions.
(** [options.resources]: an array of resources, a [Map] from nodes to
    resources (its entries in insertion order), or a [WeakMap]. *)
Inductive resourcesOption : Type :=
  | FromArray (resources : list Resource.t)
  | FromMap (entries : list (addr * Resource.t))
  | FromWeakMap (resources : gmap addr Resource.t).

Record t : Type := mk {
  resolveResource : option fid;
  resources : option resourcesOption;
  canonical : option (gmap string Resource.t);
  references : option (gmap addr rid);
}.
End ContextOptions.

(** [canonical.set(resource.uri, resource)], and again without the
    trailing [#], for a resource that has a canonical URI. *)
Definition registerCanonical (canonical : gmap string Resource.t)
  (resource : Resource.t) : gmap string Resource.t :=
  match Resource.uri resource with
  | Some uri =>
      let canonical := <[uri := resource]> canonical in
      if Js.endsWith Js.hash uri then
        <[Js.slice uri 0 (String.length uri - 1) := resource]> canonical
      else canonical
  | None => canonical
  end.

(** [initContext(context, options)] *)
Definition initContext (ctx : Context.t) (options : option ContextOptions.t)
  : Context.t :=
  match options with
  | None => ctx
  | Some options =>
      let ctx :=
        match ContextOptions.resolveResource options with
        | Some resolver =>
            Context.mk (Context.stack ctx) (Some resolver)
              (Context.resources ctx) (Context.canonical ctx)
              (Context.references ctx) (Context.unresolved ctx)
        | None => ctx
        end in
      let ctx :=
        match ContextOptions.resources options with
        | None => ctx
        | Some given =>
            let '(ctx, listed) :=
              match given, Context.resources ctx with
              | ContextOptions.FromArray resources, existing =>
                  (Context.withResources ctx
                     (Some (foldl (fun m r => <[Resource.node r := r]> m)
                              (default ∅ existing) resources)),
                   Some resources)
              | ContextOptions.FromMap entries, Some existing =>
                  (Context.withResources ctx
                     (Some (foldl (fun m e => <[e.1 := e.2]> m)
                              existing entries)),
                   Some entries.*2)
              | ContextOptions.FromMap entries, None =>
                  (Context.withCanonical
                     (Context.withResources ctx (Some (list_to_map entries)))
                     (ContextOptions.canonical options),
                   None)
              | ContextOptions.FromWeakMap resources, _ =>
                  (Context.withCanonical
                     (Context.withResources ctx (Some resources))
                     (ContextOptions.canonical options),
                   None)
              end in
            let canonical := default ∅ (Context.canonical ctx) in
            Context.withCanonical ctx
              (Some (match listed with
                     | Some resources =>
                         foldl registerCanonical canonical resources
                     | None => canonical
                     end))
        end in
      match ContextOptions.references options with
      | Some references => Context.withReferences ctx (Some references)
      | None => ctx
      end
  end.

(** [createContext(options)] *)
Definition createContextWith (options : option ContextOptions.t)
  : Context.t :=
  let ctx := initContext (Context.mk None None None None None None) options in
  Context.mk (Context.stack ctx) (Context.resolveResource ctx)
    (Some (default ∅ (Context.resources ctx)))
    (Some (default ∅ (Context.canonical ctx)))
    (Some (default ∅ (Context.references ctx)))
    (Context.unresolved ctx).
(** * Specification-level definitions *)

(** Token escaping, character by character. *)
Fixpoint escapeChars (s : string) : string :=
  match s with
  | EmptyString => EmptyString
  | String c r =>
      if Ascii.eqb c Js.tilde then String Js.tilde (String "0" (escapeChars r))
      else if Ascii.eqb c Js.slash then
        String Js.tilde (String "1" (escapeChars r))
      else String c (escapeChars r)
  end.

(** Token unescaping, character by character; [None] for a [~] that is
    not followed by [0] or [1]. *)
Fixpoint unescapeChars (s : string) : option string :=
  match s with
  | EmptyString => Some EmptyString
  | String c r =>
      if Ascii.eqb c Js.tilde then
        match r with
        | String d r' =>
            if Ascii.eqb d "0" then String Js.tilde <$> unescapeChars r'
            else if Ascii.eqb d "1" then String Js.slash <$> unescapeChars r'
            else None
        | EmptyString => None
        end
      else String c <$> unescapeChars r
  end.

(** The text of [uri] before its first [#]: all of it when there is
    none. *)
Definition beforeHash (uri : string) : string :=
  match Js.find Js.hash uri with
  | Some i => Js.slice uri 0 i
  | None => uri
  end.

(** The text of [uri] after its first [#]; [None] when there is none. *)
Definition afterHash (uri : string) : option string :=
  match Js.find Js.hash uri with
  | Some i => Some (Js.sliceFrom uri (i + 1))
  | None => None
  end.

(** The reference tokens of a pointer that starts with [/], still
    escaped: the texts between consecutive slashes. *)
Definition rawTokens (pointer : string) : list string :=
  match pointer with
  | EmptyString => []
  | String _ r => Js.pieces Js.slash r
  end.

(** What a node of a document holds under a name: the value of an own
    property of an object, the item of an array at a canonical index. *)
Definition member (h : Heap) (node : value) (name : string) : option value :=
  match node with
  | VObj a =>
      match h !! a with
      | Some (Obj props) => assoc name props
      | Some (Arr items) => parseIndex name ≫= (items !!.)
      | None => None
      end
  | _ => None
  end.

(** What the host adds to a node: the [length] of an array, what an
    object or an array inherits from its prototype, and what a value of
    the host holds when it is an object. *)
Definition inherited `{Host} (h : Heap) (node : value) (name : string)
  : option value :=
  match node with
  | VObj a =>
      match h !! a with
      | Some (Obj _) => objectProto name
      | Some (Arr items) =>
          if String.eqb name "length" then
            Some (VNum (Z.of_nat (length items)))
          else arrayProto name
      | None => None
      end
  | VHost host =>
      match hostTypeOf host with
      | HostFunction => None
      | _ => ofHosted <$> hostProperty host name
      end
  | _ => None
  end.

(** A property read: the member of that name, or else what the host
    adds under that name. *)
Definition property `{Host} (h : Heap) (node : value) (name : string)
  : option value :=
  match member h node name with
  | Some v => Some v
  | None => inherited h node name
  end.

(** Pointer addressing, token by token, for a given reading [childOf] of
    "the segment is present".  [prefix] is the part of the pointer already
    followed; a token is unescaped when it is reached, and a segment that
    is absent fails with the pointer up to and including that segment as
    the location. *)
Fixpoint followTokens (childOf : Heap -> value -> string -> option value)
  (h : Heap) (pointer prefix : string) (tokens : list string) (node : value)
  : completion value :=
  match tokens with
  | [] => Normal node
  | raw :: tokens =>
      match Pointer.unescapePointer raw with
      | Throw e => Throw e
      | Normal token =>
          match childOf h node token with
          | None =>
              Throw (ResolutionError
                ("Property " +:+ Js.stringify token +:+
                 " not found while resolving JSON pointer " +:+
                 Js.stringify pointer)
                (Some (prefix +:+ "/" +:+ raw)) None)
          | Some next =>
              followTokens childOf h pointer (prefix +:+ "/" +:+ raw) tokens
                next
          end
      end
  end.

(** Fragment resolution as the specification words it, for a given
    reading [childOf] of "the segment is present". *)
Definition resolveFragmentSpec
  (childOf : Heap -> value -> string -> option value) (st : State)
  (resource : Resource.t) (fragment : string) : completion value :=
  match fragment with
  | EmptyString => Normal (VObj (Resource.node resource))
  | String c _ =>
      if Ascii.eqb c Js.slash then
        followTokens childOf (heap st) fragment EmptyString
          (rawTokens fragment) (VObj (Resource.node resource))
      else
        match Resource.anchors resource ≫= (.!! fragment) with
        | Some anchor => Normal (VObj anchor)
        | None =>
            Throw (ResolutionError
              ("Cannot resolve plain name fragment " +:+
               Js.stringify fragment +:+
               " because the current resource has no corresponding anchor")
              (Some (currentLocation st)) None)
        end
  end.

(** Whether a thrown value is a resolution error that carries a
    location. *)
Definition locationTagged (e : exn) : bool :=
  match e with
  | ResolutionError _ (Some _) _ => true
  | _ => false
  end.

(** URI resolution as the specification words it, for a given reading
    [fragmentOf] of "the fragment part". *)
Definition resolveUriSpec `{Host} `{Resolvers}
  (fragmentOf : string -> option string)
  (st : State) (resource : option Resource.t) (uri : string)
  : completion value * State :=
  let canonicalPart := beforeHash uri in
  let fragmentPart := fragmentOf uri in
  let against (st : State) (chosen : Resource.t) : completion value :=
    match fragmentPart with
    | None | Some EmptyString => Normal (VObj (Resource.node chosen))
    | Some fragment => resolveFragmentSpec property st chosen fragment
    end in
  match canonicalPart with
  | EmptyString =>
      match resource with
      | Some base => (against st base, st)
      | None =>
          (Throw (ResolutionError
             ("Cannot resolve relative URI reference " +:+
              Js.stringify uri +:+ " because the stack has no base node")
             (Some (currentLocation st)) None), st)
      end
  | _ =>
      match resolveResource st canonicalPart with
      | (Normal (Some found), st) => (against st found, st)
      | (Normal None, st) =>
          (Throw (ResolutionError
             ("Unknown resource " +:+ Js.stringify canonicalPart)
             (Some (currentLocation st)) None), st)
      | (Throw e, st) => (Throw e, st)
      end
  end.

(** The fragment part as the claim reads it: everything after the first
    [#]. *)
Definition fragmentAfterFirstHash (uri : string) : option string :=
  afterHash uri.

(** The fragment part as [uri.split("#", 2)] yields it: the text between
    the first [#] and the next one, if any. *)
Definition fragmentUpToSecondHash (uri : string) : option string :=
  beforeHash <$> afterHash uri.

(** A string with at most one [#], as every URI reference is: what
    follows the first [#], the fragment, holds none. *)
Definition atMostOneHash (uri : string) : Prop :=
  forall fragment, afterHash uri = Some fragment ->
    Js.find Js.hash fragment = None.

(** One entry of a batch resolution: remove it from the unresolved map,
    resolve its URI against the base resource, and store the target on
    success.  The result is the failure, if any, and the state. *)
Definition attempt `{Host} `{Resolvers} (st : State)
  (resource : option Resource.t) (entry : addr * rid) : option exn * State :=
  let st := deleteUnresolved st entry.1 in
  match resolveResourceUri st resource (Reference.uri (deref st entry.2)) with
  | (Normal target, st) => (None, setTarget st entry.2 target)
  | (Throw error, st) => (Some error, st)
  end.

(** A batch of attempts: the resolution errors captured in order, the
    failure that aborted the batch (if one did), how many entries were
    attempted, and the state at the end. *)
Record BatchRun : Type := mkBatchRun {
  captured : list exn;
  aborted : option exn;
  attempted : nat;
  final : State;
}.

(** The batch with one more attempt in front: one that succeeded
    ([None]) or one whose resolution error is captured. *)
Definition andThenRun (failure : option exn) (run : BatchRun) : BatchRun :=
  mkBatchRun (option_list failure ++ captured run) (aborted run)
    (S (attempted run)) (final run).

(** The unresolved map is drained one entry at a time, the first entry
    it holds first, until it is empty; a resolution error is captured and
    the batch goes on, any other failure ends it.  [None] is a batch that
    is not over after [fuel] attempts. *)
Fixpoint batch `{Host} `{Resolvers} (fuel : nat) (st : State)
  (resource : option Resource.t) : option BatchRun :=
  match default [] (Context.unresolved (context st)) with
  | [] => Some (mkBatchRun [] None 0 st)
  | entry :: _ =>
      match fuel with
      | 0 => None
      | S fuel =>
          match attempt st resource entry with
          | (None, st) => andThenRun None <$> batch fuel st resource
          | (Some error, st) =>
              if isResolutionError error then
                andThenRun (Some error) <$> batch fuel st resource
              else Some (mkBatchRun [] (Some error) 1 st)
          end
      end
  end.

(** The message of the aggregate: a heading, then one line per cause. *)
Definition enumerateCauses (causes : list exn) : string :=
  "Unable to resolve multiple references" +:+
  String.concat EmptyString
    (map (fun e => String (ascii_of_nat 10) "  " +:+ message e) causes).

(** What the caller of a batch sees. *)
Definition settle (run : BatchRun) : completion unit :=
  match aborted run with
  | Some error => Throw error
  | None =>
      match captured run with
      | [] => Normal tt
      | [error] => Throw error
      | errors =>
          Throw (ResolutionError (enumerateCauses errors)
                   (Some (currentLocation (final run))) (Some errors))
      end
  end.

(** The resolvers leave the unresolved map as they find it. *)
Definition keepUnresolved `{Resolvers} : Prop :=
  forall id uri st,
    Context.unresolved (context (resolverOf id uri st).2)
      = Context.unresolved (context st).

(** The "full drain" property as the claim states it: once a batch
    resolution of a non-empty unresolved map has returned, the unresolved
    map is empty and resolving the URI of any drained reference again
    gives its target. *)
Definition fullDrainClaim `{Host} `{Resolvers} (st : State)
  (resource : option Resource.t) : Prop :=
  forall fuel entries st',
    Context.unresolved (context st) = Some entries ->
    entries <> [] ->
    resolveReferences fuel st resource = Some (Normal tt, st') ->
    Context.unresolved (context st') = Some [] /\
    forall node r,
      (node, r) ∈ entries ->
      exists target,
        Reference.target (deref st' r) = Some target /\
        (resolveResourceUri st' resource (Reference.uri (deref st' r))).1
          = Normal target.

(** The part of the state a URI is resolved against: the documents,
    the frame stack (for error locations), the resolver and the two
    resource maps. *)
Definition registryOf (st : State) :=
  (heap st, frameObjs st, Context.stack (context st),
   Context.resolveResource (context st), Context.resources (context st),
   Context.canonical (context st)).

(** The part of the state that holds the references. *)
Definition referencesOf (st : State) :=
  (referenceObjs st, Context.references (context st),
   Context.unresolved (context st)).

(** The state with [previous] as the top of its stack. *)
Definition restored (st : State) (previous : option Frame.t) : State :=
  withContext st (Context.withStack (context st) previous).

(** A value that is not an object of the input, whose heap had [n0]
    cells: a primitive or host value, or an object allocated since. *)
Definition freshOrPrimitive (n0 : nat) (v : value) : Prop :=
  match v with
  | VObj a => n0 <= a
  | _ => True
  end.

(** An object allocated after the input. *)
Definition freshObject (n0 : nat) (v : value) : Prop :=
  exists a, v = VObj a /\ n0 <= a.

(** [h'] has every cell of the input as [h] has it, and no fewer cells
    than [h]. *)
Definition extendsHeap (n0 : nat) (h h' : Heap) : Prop :=
  length h <= length h' /\ forall a, a < n0 -> h' !! a = h !! a.

(** What tree shaking asks of the caller's transform: it leaves the cells
    of the input alone, and it does not hand back an object of the input
    that it was not given. *)
Definition transformFrame (n0 : nat) (o : Shake.options) : Prop :=
  forall f, Shake.transform o = Some f ->
    forall h v, n0 <= length h ->
      extendsHeap n0 h (f h v).2 /\
      (freshOrPrimitive n0 v -> freshOrPrimitive n0 (f h v).1).

(** Every definition stored so far is fresh or a primitive. *)
Definition defsFresh (n0 : nat) (sh : Shake.vars) : Prop :=
  forall k v, (k, Some v) ∈ default [] (Shake.defs sh) ->
    freshOrPrimitive n0 v.

(** What a call of [rewriteNode] guarantees, for an input of [n0] cells:
    the cells of the input stay as they are, the definitions stay fresh,
    and the node returned is fresh or a primitive; without a transform it
    is a fresh object when the node was an object and the node itself
    otherwise. *)
Definition rewritesWithin `{Host} (n0 : nat) (o : Shake.options)
  (self : value -> State -> Shake.vars -> rewriting) : Prop :=
  forall node st sh v st' sh',
    n0 <= length (heap st) ->
    defsFresh n0 sh ->
    self node st sh = Some (v, (st', sh')) ->
    extendsHeap n0 (heap st) (heap st') /\
    defsFresh n0 sh' /\
    freshOrPrimitive n0 v /\
    (Shake.transform o = None ->
     if isObject node then freshObject n0 v else v = node).

(** * Concrete scenarios *)

(** The state a batch resolution leaves; the state itself when the batch
    is not over after [fuel] rounds. *)
Definition afterResolving `{Host} `{Resolvers} (fuel : nat) (st : State)
  (resource : option Resource.t) : State :=
  match resolveReferences fuel st resource with
  | Some (_, st') => st'
  | None => st
  end.

(** The person that is its own friend, under the [$defs] of the root
    (the "handles cyclic references" test). *)
Definition cyclicHeap : Heap :=
  [ (* 0 *) Obj [("type", VStr "string")];
    (* 1 *) Obj [("$ref", VStr "#/$defs/person")];
    (* 2 *) Obj [("name", VObj 0); ("friend", VObj 1)];
    (* 3 *) Obj [("type", VStr "object"); ("properties", VObj 2)];
    (* 4 *) Obj [("person", VObj 3)];
    (* 5 *) Obj [("$defs", VObj 4)] ].

Definition cyclicState : State :=
  afterResolving 1
    (registerReference (initialState cyclicHeap None) 1 "$ref"
       "#/$defs/person").2
    (Some (createResource None 5)).

Definition cyclicOptions : Shake.options :=
  Shake.mkOptions [5] "#/components/schemas" None.


(** A base resource with the anchor [a]. *)
Definition anchored : Resource.t :=
  setResourceAnchor (createResource None 0) "a" 1.


(** Two type definitions in one document and two nodes that refer to
    them (the "resolves multiple references" test). *)
Definition typesHeap : Heap :=
  [ Obj [("type", VStr "string")];
    Obj [("type", VStr "number")];
    Obj [("string", VObj 0); ("number", VObj 1)];
    Obj [("$ref", VStr "https://example.com/types.json#/string")];
    Obj [("$ref", VStr "https://example.com/types.json#/number")];
    Obj [("$ref", VStr "https://example.com/more.json")] ].

Definition typesRegistered (resolver : option fid) : State :=
  withContext (initialState typesHeap resolver)
    (setResource (createContext resolver)
       (createResource (Some "https://example.com/types.json") 2)).

Definition typesState : State :=
  (registerReference
     (registerReference (typesRegistered None) 3 "$ref"
        "https://example.com/types.json#/string").2
     4 "$ref" "https://example.com/types.json#/number").2.

(** A resolver that fails with something that is not a resolution
    error. *)
Definition offline : Resolvers :=
  fun _ uri st => (Throw (Foreign "network unreachable"), st).

(** Three unresolved references: one whose document is known, one that
    needs the resolver, one more after it. *)
Definition offlineState : State :=
  (registerReference
     (registerReference
        (registerReference (typesRegistered (Some 0)) 3 "$ref"
           "https://example.com/types.json#/string").2
        5 "$ref" "https://example.com/more.json").2
     4 "$ref" "https://example.com/types.json#/number").2.

(** Two documents that declare the same canonical URI: the resolver
    serves the first under the URI [a.json] and the second under their
    common canonical URI. *)
Definition aliasHeap : Heap :=
  [ Obj [("version", VNum 1)];
    Obj [("version", VNum 2)];
    Obj [("$ref", VStr "https://example.com/b.json")];
    Obj [("$ref", VStr "https://example.com/a.json")] ].

Definition aliasResolver : Resolvers :=
  fun _ uri st =>
    if String.eqb uri "https://example.com/a.json" then
      (Normal (Some (createResource (Some "https://example.com/b.json") 0)),
       st)
    else if String.eqb uri "https://example.com/b.json" then
      (Normal (Some (createResource (Some "https://example.com/b.json") 1)),
       st)
    else (Normal None, st).

Definition aliasState : State :=
  (registerReference
     (registerReference (initialState aliasHeap (Some 0)) 2 "$ref"
        "https://example.com/b.json").2
     3 "$ref" "https://example.com/a.json").2.

(** A unit of work that returns a promise; when the promise is resumed
    it empties the frame stack and is fulfilled (the "detects stack
    corruption in async nested frames" test). *)
Definition corruptLater (frame : Frame.t) (st : State)
  : completion (returned value) * State :=
  (Normal
     (Pending (fun st' =>
        (Normal (VStr "corrupted-result"),
         withContext st' (Context.withStack (context st') None)))),
   st).

(** A context with one frame on its stack. *)
Definition outerState : State := (pushFrame (initialState [] None)).2.

(** Two documents that each define an [item], and a root that refers to
    both of them. *)
Definition itemsHeap : Heap :=
  [ (* 0 *) Obj [("type", VStr "string")];
    (* 1 *) Obj [("item", VObj 0)];
    (* 2 *) Obj [("$defs", VObj 1)];
    (* 3 *) Obj [("type", VStr "number")];
    (* 4 *) Obj [("item", VObj 3)];
    (* 5 *) Obj [("$defs", VObj 4)];
    (* 6 *) Obj [("$ref", VStr "https://example.com/a.json#/$defs/item")];
    (* 7 *) Obj [("$ref", VStr "https://example.com/b.json#/$defs/item")];
    (* 8 *) Obj [("first", VObj 6); ("second", VObj 7)] ].

Definition itemsRegistered : State :=
  withContext (initialState itemsHeap None)
    (setResource
       (setResource (createContext None)
          (createResource (Some "https://example.com/a.json") 2))
       (createResource (Some "https://example.com/b.json") 5)).

Definition itemsState : State :=
  afterResolving 2
    (registerReference
       (registerReference itemsRegistered 6 "$ref"
          "https://example.com/a.json#/$defs/item").2
       7 "$ref" "https://example.com/b.json#/$defs/item").2
    None.

Definition itemsOptions : Shake.options :=
  Shake.mkOptions [8] "#/$defs" None.

(** * More specification-level definitions *)

(** The first escape sequence of a token that is neither [~0] nor [~1]:
    the [~] and the character after it, or the [~] alone at the end. *)
Fixpoint badEscape (s : string) : option string :=
  match s with
  | EmptyString => None
  | String c r =>
      if Ascii.eqb c Js.tilde then
        match r with
        | String d r' =>
            if Ascii.eqb d "0" then badEscape r'
            else if Ascii.eqb d "1" then badEscape r'
            else Some (String c (Js.str d))
        | EmptyString => Some (Js.str c)
        end
      else badEscape r
  end.

(** Whether every character of a string is an ASCII character. *)
Fixpoint isAscii (s : string) : bool :=
  match s with
  | EmptyString => true
  | String c r => (nat_of_ascii c <? 128) && isAscii r
  end.

(** The tokens of a pointer, unescaped one after the other; the first
    failure ends the parse. *)
Fixpoint unescapeAll (raws : list string) : completion (list string) :=
  match raws with
  | [] => Normal []
  | raw :: raws =>
      match Pointer.unescapePointer raw with
      | Throw e => Throw e
      | Normal token =>
          match unescapeAll raws with
          | Throw e => Throw e
          | Normal tokens => Normal (token :: tokens)
          end
      end
  end.

(** Following a list of property names from a node.  [seen] are the
    names already followed; a name that is absent fails with the pointer
    of the names up to and including it as the location. *)
Fixpoint descend `{Host} (h : Heap) (pointer : string) (seen keys : list string)
  (node : value) : completion value :=
  match keys with
  | [] => Normal node
  | key :: keys =>
      match getChild h node key with
      | None =>
          Throw (ResolutionError
            ("Property " +:+ Js.stringify key +:+
             " not found while resolving JSON pointer " +:+
             Js.stringify pointer)
            (Some (Pointer.formatPointer (seen ++ [key]))) None)
      | Some next => descend h pointer (seen ++ [key]) keys next
      end
  end.

(** The canonical URI of the resource registered for the node of a
    frame, if there is one. *)
Definition boundaryOf (st : State) (frame : Frame.t) : option string :=
  (Frame.node (fieldsOf st frame) ≫= getResource (context st))
    ≫= Resource.uri.

(** The frame and its ancestors, innermost first. *)
Fixpoint chainOf (frame : Frame.t) : list Frame.t :=
  frame :: match Frame.parent frame with
           | Some parent => chainOf parent
           | None => []
           end.

(** The resource registered for the node of a frame. *)
Definition frameResource (st : State) (frame : Frame.t)
  : option Resource.t :=
  Frame.node (fieldsOf st frame) ≫= getResource (context st).

(** Every frame on the stack has its fields in the store: frames only
    come from [pushFrame]. *)
Definition framesAllocated (st : State) : Prop :=
  forall top, Context.stack (context st) = Some top ->
    Forall (fun f => Frame.id f < length (frameObjs st)) (chainOf top).

(** A frame at the key [a/b] of a document that is not registered. *)
Definition nestedState : State :=
  let '(frame, st) := pushFrame (pushFrame (initialState [] None)).2 in
  setNode st frame (Frame.KeyStr "a/b") VNull.

(** The nearest enclosing canonical resource, or else the outermost
    resource, among the resources registered for the nodes of a chain of
    frames (innermost first). *)
Definition nearestResource (st : State) (chain : list Frame.t)
  : option Resource.t :=
  let found := omap (frameResource st) chain in
  match list_find (fun r => is_Some (Resource.uri r)) found with
  | Some (_, r) => Some r
  | None => last found
  end.

(** A context whose only resource has a canonical URI that ends with
    [#]. *)
Definition hashedResource : Resource.t :=
  createResource (Some "https://example.com/schema#") 0.

(** The invariant of the reference maps: every registered node has a
    reference object of its own, and the unresolved map lists registered
    nodes with their reference objects, each node once. *)
Definition referencesConsistent (st : State) : Prop :=
  let references := default ∅ (Context.references (context st)) in
  (forall node r, references !! node = Some r ->
     r < length (referenceObjs st)) /\
  (forall node node' r,
     references !! node = Some r -> references !! node' = Some r ->
     node = node') /\
  (forall entries, Context.unresolved (context st) = Some entries ->
     NoDup entries.*1 /\
     forall node r, (node, r) ∈ entries -> references !! node = Some r).

(** [reference?.target] for the reference of a node *)
Definition targetOf (st : State) (node : value) : option value :=
  getReference st node ≫= (fun r => Reference.target (deref st r)).

(** A reference to a document that is not registered, in a context
    without a resolver. *)
Definition danglingState : State :=
  (registerReference (typesRegistered None) 5 "$ref"
     "https://example.com/more.json").2.

(** A document that is a reference to itself, resolved. *)
Definition selfState : State :=
  afterResolving 1
    (registerReference (initialState [Obj [("$ref", VStr "#")]] None)
       0 "$ref" "#").2
    (Some (createResource None 0)).

(** A heap with one array. *)
Definition listHeap : Heap :=
  [Arr [VStr "a"; VStr "b"; VStr "c"]].

(** Every name given so far is the last segment of the URI of a
    registered reference with that target, and no definition has been
    stored. *)
Definition namedByUri (st : State) (sh : Shake.vars) : Prop :=
  Shake.defs sh = None /\
  forall target name, (target, name) ∈ Shake.refs sh ->
    exists node r,
      getReference st node = Some r /\
      Reference.target (deref st r) = Some target /\
      name = nameOfUri (Reference.uri (deref st r)).

(** A value of the input, whose heap has [n0] cells: a primitive or
    host value, or an object that has a cell. *)
Definition oldValue (n0 : nat) (v : value) : Prop :=
  match v with
  | VObj a => a < n0
  | _ => True
  end.

(** Documents that are trees or directed acyclic graphs when references
    are left aside: [rank] decreases from every object or array to the
    objects it contains, and is below [bound] on every cell.  What an
    object contains and what a reference points to is in the heap, and
    the reference of a node is an allocated reference object. *)
Record treeShaped (st : State) (rank : addr -> nat) (bound : nat) : Prop :=
  mkTreeShaped {
    cells_closed :
      forall a b, VObj b ∈ values (heap st) a ->
        b < length (heap st) /\ rank b < rank a;
    targets_closed :
      forall node r target,
        getReference st node = Some r ->
        Reference.target (deref st r) = Some target ->
        oldValue (length (heap st)) target;
    references_allocated :
      forall node r, getReference st node = Some r ->
        r < length (referenceObjs st);
    rank_bounded : forall a, a < length (heap st) -> rank a < bound;
  }.

(** The addresses of the cells of the heap. *)
Definition cellsOf (st : State) : gset addr := set_seq 0 (length (heap st)).

(** The names of the definitions stored so far, placeholders
    included. *)
Definition keysOf (sh : Shake.vars) : list string :=
  (default [] (Shake.defs sh)).*1.

Definition rankOf (rank : addr -> nat) (v : value) : nat :=
  match v with
  | VObj a => rank a
  | _ => 0
  end.

(** The states the rewrite phase goes through, for the input [st0] and
    the names [refs0] of the mark phase: the cells, the references and
    the reference objects of the input are as they were, the names are
    those of the mark phase, and the definitions stored so far have
    distinct names among these. *)
Definition rewritable (st0 : State) (refs0 : list (value * string))
  (st : State) (sh : Shake.vars) : Prop :=
  extendsHeap (length (heap st0)) (heap st0) (heap st) /\
  (forall a, a < length (heap st0) ->
     getReference st (VObj a) = getReference st0 (VObj a)) /\
  (forall r, r < length (referenceObjs st0) ->
     referenceObjs st !! r = referenceObjs st0 !! r) /\
  Shake.refs sh = refs0 /\
  NoDup (keysOf sh) /\
  keysOf sh ⊆ refs0.*2.

(** How deep [rewriteNode] may still recurse from a node: one layer of
    containment per name that has no definition yet, and the rank of the
    node. *)
Definition budget (refs0 : list (value * string)) (rank : addr -> nat)
  (bound : nat) (sh : Shake.vars) (node : value) : nat :=
  (length refs0 - length (keysOf sh)) * bound + rankOf rank node.

(** A function that does what [rewriteNode] does on every node whose
    budget is below [limit]. *)
Definition rewritesBelow (st0 : State) (refs0 : list (value * string))
  (rank : addr -> nat) (bound limit : nat)
  (self : value -> State -> Shake.vars -> rewriting) : Prop :=
  forall node st sh,
    rewritable st0 refs0 st sh ->
    oldValue (length (heap st0)) node ->
    budget refs0 rank bound sh node < limit ->
    exists v st' sh',
      self node st sh = Some (v, (st', sh')) /\
      rewritable st0 refs0 st' sh' /\
      keysOf sh ⊆ keysOf sh'.

(** The nodes of a tree: the node itself, and the nodes of what it
    contains. *)
Inductive descendant (h : Heap) : value -> value -> Prop :=
  | descendant_here (v : value) : descendant h v v
  | descendant_below (a : addr) (child v : value) :
      child ∈ values h a -> descendant h child v ->
      descendant h (VObj a) v.

(** What a traversal that registers references leaves alone: the
    documents, the stack, and the references that were registered. *)
Definition registersOnly (st st' : State) : Prop :=
  heap st' = heap st /\
  Context.stack (context st') = Context.stack (context st) /\
  forall node r, getReference st node = Some r ->
                 getReference st' node = Some r.

(** A node that holds a string under one of the keywords. *)
Definition refersUnder `{Host} (h : Heap) (keys : list string) (node : value)
  : Prop :=
  exists key uri, key ∈ keys /\ getChild h node key = Some (VStr uri).

(** A library that accepts every URI and resolves by concatenation. *)
Definition lenientUris : UriLibrary := {|
  resolveUri baseUri uri := Normal (baseUri +:+ uri);
  parseUriReference uri := Normal tt;
|}.

(** The schema of the cyclic example before any reference is
    registered. *)
Definition unregisteredState : State := initialState cyclicHeap None.

(** How many nested calls a traversal of a node needs besides the
    first: none for a primitive, one more than its rank for an object. *)
Definition depthOf (rank : addr -> nat) (v : value) : nat :=
  match v with
  | VObj a => S (rank a)
  | _ => 0
  end.

(** What [nestFrame] hands back for a unit of work that returns no
    promise. *)
Definition settled (r : completion (returned unit) * State)
  : completion unit * State :=
  match r with
  | (Normal (Plain u), st) => (Normal u, st)
  | (Normal (Pending promise), st) => promise st
  | (Throw e, st) => (Throw e, st)
  end.

(** [canonical.get(uri)] *)
Definition lookupCanonical (st : State) (uri : string) : option Resource.t :=
  Context.canonical (context st) ≫= (.!! uri).

(** What is outside the two resource maps: the documents, the frames
    and the stack, the resolver, the reference objects, the permanent map
    and the unresolved map. *)
Definition beyondRegistry (st : State) :=
  (heap st, frameObjs st, referenceObjs st, Context.stack (context st),
   Context.resolveResource (context st), Context.references (context st),
   Context.unresolved (context st)).

(** What is registered in [st] is registered in [st']: a node that has a
    reference has the same one, and a reference object keeps its key and
    its URI, and has a target when it had one. *)
Definition keepsReferences (st st' : State) : Prop :=
  (forall node r, getReference st node = Some r ->
     getReference st' node = Some r) /\
  (forall r ref, referenceObjs st !! r = Some ref ->
     exists ref',
       referenceObjs st' !! r = Some ref' /\
       Reference.key ref' = Reference.key ref /\
       Reference.uri ref' = Reference.uri ref /\
       (is_Some (Reference.target ref) -> is_Some (Reference.target ref'))).

(** A context whose reference maps are consistent and whose references
    are on nodes of the documents. *)
Definition wellFormed (st : State) : Prop :=
  referencesConsistent st /\
  forall node r, getReference st (VObj node) = Some r ->
    node < length (heap st).

(** [st'] is [st] with more in it: the cells, the canonical URIs and the
    unresolved entries of [st] are in [st'] as they are in [st], and a
    reference object of [st] has, in [st'], the URI it had and, when it
    had one, the target it had. *)
Definition onlyAdds (st st' : State) : Prop :=
  (forall a cell, heap st !! a = Some cell -> heap st' !! a = Some cell) /\
  (forall uri resource, lookupCanonical st uri = Some resource ->
     lookupCanonical st' uri = Some resource) /\
  (forall r ref, referenceObjs st !! r = Some ref ->
     exists ref',
       referenceObjs st' !! r = Some ref' /\
       Reference.uri ref' = Reference.uri ref /\
       (forall target, Reference.target ref = Some target ->
          Reference.target ref' = Some target)) /\
  (forall entries, Context.unresolved (context st) = Some entries ->
     exists entries',
       Context.unresolved (context st') = Some entries' /\
       entries ⊆ entries').

(** Resolvers that only add and that are faithful: called in a
    well-formed context, a resolver leaves a well-formed context that is
    the one it was given with more in it, and the resource it returns for
    a URI, if any, has that URI as its canonical URI. *)
Definition conservative `{Resolvers} : Prop :=
  forall id uri st,
    wellFormed st ->
    wellFormed (resolverOf id uri st).2 /\
    onlyAdds st (resolverOf id uri st).2 /\
    forall resource,
      (resolverOf id uri st).1 = Normal (Some resource) ->
      Resource.uri resource = Some uri.

(** The node that a URI designates in the registry as it stands, the
    resolver not being asked: the canonical part is known to the canonical
    map, or is empty and there is a base resource, and the fragment
    resolves to the node in the resource found. *)
Definition designates `{Host} (st : State) (resource : option Resource.t)
  (uri : string) (target : value) : Prop :=
  exists chosen,
    (if String.length (beforeHash uri) =? 0 then resource = Some chosen
     else lookupCanonical st (beforeHash uri) = Some chosen) /\
    resolveFragmentPart st chosen (fragmentUpToSecondHash uri)
      = Normal target.

(** A reference object whose target is the node its URI designates. *)
Definition settledReference `{Host} (st : State)
  (resource : option Resource.t) (r : rid) : Prop :=
  exists ref target,
    referenceObjs st !! r = Some ref /\
    Reference.target ref = Some target /\
    designates st resource (Reference.uri ref) target.

(** Two documents, each served under its own canonical URI. *)
Definition mirrorResolver : Resolvers :=
  fun _ uri st =>
    if String.eqb uri "https://example.com/a.json" then
      (Normal (Some (createResource (Some "https://example.com/a.json") 0)),
       st)
    else if String.eqb uri "https://example.com/b.json" then
      (Normal (Some (createResource (Some "https://example.com/b.json") 1)),
       st)
    else (Normal None, st).

Definition mirrorState : State :=
  (registerReference
     (registerReference (initialState aliasHeap (Some 0)) 2 "$ref"
        "https://example.com/b.json").2
     3 "$ref" "https://example.com/a.json").2.

(** A resolver that loads documents: asked for [more.json], it stores a
    document that refers to the number type in a new cell, registers the
    reference of that document, and returns the document as the resource
    of the URI. *)
Definition loading : Resolvers :=
  fun _ uri st =>
    if String.eqb uri "https://example.com/more.json" then
      let '(a, st) :=
        alloc st
          (Obj [("$ref", VStr "https://example.com/types.json#/number")]) in
      let st :=
        (registerReference st a "$ref"
           "https://example.com/types.json#/number").2 in
      (Normal (Some (createResource (Some uri) a)), st)
    else (Normal None, st).

(** The types document, and one unresolved reference to a document that
    the resolver has to load. *)
Definition loadingState : State :=
  (registerReference (typesRegistered (Some 0)) 5 "$ref"
     "https://example.com/more.json").2.

(** ** Self-referential graphs *)

(** What the mark phase walks from the roots: the roots, what a walked
    object or array contains, and the target of a walked reference when it
    is not a root. *)
Inductive reached (o : Shake.options) (st : State) : addr -> Prop :=
  | reached_root (a : addr) :
      a ∈ Shake.roots o -> reached o st a
  | reached_child (a b : addr) :
      reached o st a -> VObj b ∈ values (heap st) a -> reached o st b
  | reached_target (a b : addr) :
      reached o st a -> targetOf st (VObj a) = Some (VObj b) ->
      b ∉ Shake.roots o -> reached o st b.

(** A graph that refers to itself in one node: [target] is not a root,
    some reference that the walk reaches points to it, every resolved
    reference that the walk reaches points to it or to a root, and the
    last segment of the URI of a reference to it is not the name of a
    property that plain objects inherit. *)
Record selfReferential `{Host} (o : Shake.options) (st : State)
  (target : addr) : Prop := mkSelfReferential {
    target_apart : target ∉ Shake.roots o;
    target_referenced :
      exists node,
        reached o st node /\ targetOf st (VObj node) = Some (VObj target);
    target_only :
      forall node t,
        reached o st node -> targetOf st (VObj node) = Some t ->
        t = VObj target \/ includesRoot (Shake.roots o) t = true;
    names_own :
      forall node r,
        reached o st node ->
        getReference st (VObj node) = Some r ->
        Reference.target (deref st r) = Some (VObj target) ->
        objectProto (nameOfUri (Reference.uri (deref st r))) = None;
  }.

(** The address a target is relocated to: its name under the
    definitions URI. *)
Definition relocatedUri (o : Shake.options) (name : string) : string :=
  Shake.defsUri o +:+ "/" +:+ Pointer.escapePointer name.

(** The own properties of the object that [result[key] = value] builds
    from entries, taken in order. *)
Definition fromEntries (l : list (string * value)) : list (string * value) :=
  foldl (fun acc kv => objSet kv.1 kv.2 acc) [] l.

(** What the rewrite phase makes of a value of the input [st], in the
    state [st'] it leaves, when [target] is the only target with a name
    and [uri] is the address it is relocated to.  A value that is not an
    object is itself.  A resolved reference to [target] is a new object
    whose only property is the keyword of the reference with [uri],
    registered as a reference with that keyword and URI.  Any other array
    or object is a new array or object of what its items and properties
    are rewritten to; for a prototype object of the host, which has none,
    it is empty. *)
#[warnings="-register-all"] Inductive rewritten `{Host} (st st' : State)
  (target : addr) (uri : string) : value -> value -> Prop :=
  | rewritten_primitive (v : value) :
      isObject v = false -> rewritten st st' target uri v v
  | rewritten_host (name : string) (a : addr) :
      isObject (VHost name) = true ->
      heap st' !! a
        = Some (if isArray (heap st) (VHost name) then Arr [] else Obj []) ->
      rewritten st st' target uri (VHost name) (VObj a)
  | rewritten_reference (node : addr) (r : rid) (a : addr) (r' : rid)
      (reference : Reference.t) :
      getReference st (VObj node) = Some r ->
      Reference.target (deref st r) = Some (VObj target) ->
      heap st' !! a = Some (Obj [(Reference.key (deref st r), VStr uri)]) ->
      getReference st' (VObj a) = Some r' ->
      referenceObjs st' !! r' = Some reference ->
      Reference.key reference = Reference.key (deref st r) ->
      Reference.uri reference = uri ->
      rewritten st st' target uri (VObj node) (VObj a)
  | rewritten_array (node : addr) (items : list value) (a : addr)
      (items' : list value) :
      targetOf st (VObj node) <> Some (VObj target) ->
      heap st !! node = Some (Arr items) ->
      heap st' !! a = Some (Arr items') ->
      Forall2 (rewritten st st' target uri) items items' ->
      rewritten st st' target uri (VObj node) (VObj a)
  | rewritten_object (node : addr) (props : list (string * value)) (a : addr)
      (props' : list (string * value)) :
      targetOf st (VObj node) <> Some (VObj target) ->
      heap st !! node = Some (Obj props) ->
      heap st' !! a = Some (Obj (fromEntries props')) ->
      Forall2 (fun kv kv' => kv'.1 = kv.1 /\
                             rewritten st st' target uri kv.2 kv'.2)
        props props' ->
      rewritten st st' target uri (VObj node) (VObj a).

(** What the mark phase keeps while it walks a self-referential graph,
    [open] being the nodes whose walk is under way: no definition is
    stored; the only name given, if any, is that of [target], after a
    reference to it that the walk reaches; and of every node whose walk is
    over, the name of [target] is given when the node refers to it, and
    what the node contains and what it points to outside the roots has
    been visited. *)
Definition markedSo (o : Shake.options) (st : State) (target : addr)
  (open : gset addr) (sh : Shake.vars) : Prop :=
  Shake.defs sh = None /\
  (Shake.refs sh = [] \/
   exists node r,
     reached o st node /\ getReference st (VObj node) = Some r /\
     Reference.target (deref st r) = Some (VObj target) /\
     Shake.refs sh
       = [(VObj target, nameOfUri (Reference.uri (deref st r)))]) /\
  (forall a, a ∈ Shake.visited sh -> a ∉ open ->
     targetOf st (VObj a) = Some (VObj target) -> Shake.refs sh <> []) /\
  (forall a b, a ∈ Shake.visited sh -> a ∉ open ->
     VObj b ∈ values (heap st) a \/
     (targetOf st (VObj a) = Some (VObj b) /\ b ∉ Shake.roots o) ->
     b ∈ Shake.visited sh).

(** A state of the rewrite phase that came after [st]: the cells, the
    references of the nodes and the reference objects of [st] are in
    [st'] as they are in [st]. *)
Definition grows (st st' : State) : Prop :=
  (forall a c, heap st !! a = Some c -> heap st' !! a = Some c) /\
  (forall a, a < length (heap st) ->
     getReference st' (VObj a) = getReference st (VObj a)) /\
  (forall r reference, referenceObjs st !! r = Some reference ->
     referenceObjs st' !! r = Some reference).

(** No node of the tree of [v] is a resolved reference to [target]. *)
Definition quiet (st : State) (target : addr) (v : value) : Prop :=
  forall a, descendant (heap st) v (VObj a) ->
    targetOf st (VObj a) <> Some (VObj target).

(** The definition of [target] is stored under [name], and it is what
    the rewrite phase makes of [target], in [s] and in every state that
    comes after. *)
Definition definedIn `{Host} (st : State) (target : addr) (uri name : string)
  (s : State) (sh : Shake.vars) : Prop :=
  exists def,
    Shake.defs sh = Some [(name, Some def)] /\
    forall s', grows s s' -> rewritten st s' target uri (VObj target) def.

(** How the definitions stand after a part of the rewrite phase that
    went from [sh] to [sh'] and left [s']: a placeholder or a definition
    that was stored is as it was; when nothing was stored, either nothing
    is, and [unseen] holds of what was rewritten, or the definition of
    [target] is. *)
Definition defsStep `{Host} (st : State) (target : addr) (uri name : string)
  (sh : Shake.vars) (s' : State) (sh' : Shake.vars) (unseen : Prop) : Prop :=
  Shake.refs sh' = Shake.refs sh /\
  (forall x, Shake.defs sh = Some [(name, x)] ->
             Shake.defs sh' = Some [(name, x)]) /\
  (Shake.defs sh = None ->
   (Shake.defs sh' = None /\ unseen) \/ definedIn st target uri name s' sh').

(** A function that does what [rewriteNode] does on a self-referential
    graph. *)
Definition rewritesAs `{Host} (st : State) (target : addr) (uri name : string)
  (self : value -> State -> Shake.vars -> rewriting) : Prop :=
  forall node s sh v s' sh',
    grows st s ->
    oldValue (length (heap st)) node ->
    Shake.refs sh = [(VObj target, name)] ->
    (Shake.defs sh = None \/ exists x, Shake.defs sh = Some [(name, x)]) ->
    self node s sh = Some (v, (s', sh')) ->
    grows s s' /\
    (forall s'', grows s' s'' -> rewritten st s'' target uri node v) /\
    defsStep st target uri name sh s' sh' (quiet st target node).

(** The person that is its own friend, tree-shaken from the document and
    from the person at once, and two persons that are each other's
    friend. *)
Definition rootedOptions : Shake.options :=
  Shake.mkOptions [5; 3] "#/components/schemas" None.

Definition pairHeap : Heap :=
  [ (* 0 *) Obj [("$ref", VStr "#/$defs/bob")];
    (* 1 *) Obj [("friend", VObj 0)];
    (* 2 *) Obj [("$ref", VStr "#/$defs/alice")];
    (* 3 *) Obj [("friend", VObj 2)];
    (* 4 *) Obj [("alice", VObj 1); ("bob", VObj 3)];
    (* 5 *) Obj [("$defs", VObj 4)] ].

Definition pairState : State :=
  afterResolving 2
    (registerReference
       (registerReference (initialState pairHeap None) 0 "$ref"
          "#/$defs/bob").2
       2 "$ref" "#/$defs/alice").2
    (Some (createResource None 5)).

Definition pairOptions : Shake.options :=
  Shake.mkOptions [5] "#/components/schemas" None.
(** * Properties *)

(** ** Strings *)

#[local] Arguments String.append : simpl nomatch.

Lemma append_nil_r (s : string) : s +:+ EmptyString = s.
Proof. induction s as [|c s IH]; simpl; [done | by rewrite IH]. Qed.

Lemma append_assoc (a b c : string) : (a +:+ b) +:+ c = a +:+ (b +:+ c).
Proof. induction a as [|x a IH]; simpl; [done | by rewrite IH]. Qed.

Lemma length_append (a b : string) :
  String.length (a +:+ b) = String.length a + String.length b.
Proof. induction a as [|x a IH]; simpl; [done | by rewrite IH]. Qed.

Lemma substring_prefix (a b : string) :
  String.substring 0 (String.length a) (a +:+ b) = a.
Proof. induction a as [|x a IH]; simpl; [by destruct b | by rewrite IH]. Qed.

Lemma substring_skip (a b : string) (n : nat) :
  String.substring (String.length a) n (a +:+ b) = String.substring 0 n b.
Proof. induction a as [|x a IH]; simpl; [done | by rewrite IH]. Qed.

Lemma substring_middle (a b c : string) :
  String.substring (String.length a) (String.length b) (a +:+ b +:+ c) = b.
Proof. by rewrite substring_skip, substring_prefix. Qed.

Lemma slice_middle (a b c : string) :
  Js.slice (a +:+ b +:+ c) (String.length a)
    (String.length a + String.length b) = b.
Proof.
  unfold Js.slice.
  replace (String.length a + String.length b - String.length a)
    with (String.length b) by lia.
  apply substring_middle.
Qed.

Lemma sliceFrom_suffix (a b : string) :
  Js.sliceFrom (a +:+ b) (String.length a) = b.
Proof.
  unfold Js.sliceFrom. rewrite length_append.
  replace (String.length a + String.length b - String.length a)
    with (String.length b) by lia.
  rewrite <- (append_nil_r b) at 2.
  rewrite substring_middle. done.
Qed.

(** ** Escaping and unescaping pointer tokens *)

Import Pointer.

Lemma escapeLoop_spec (rest : string) :
  forall (input pre pending output : string) (offset start : nat),
    input = pre +:+ pending +:+ rest ->
    start = String.length pre ->
    offset = String.length pre + String.length pending ->
    exists pre' pending',
      input = pre' +:+ pending' /\
      (escapeLoop input rest output offset start).2 = String.length pre' /\
      (escapeLoop input rest output offset start).1 +:+ pending'
        = output +:+ pending +:+ escapeChars rest /\
      (String.length pre' = 0 ->
         String.length pre = 0 /\ escapeChars rest = rest).
Proof.
  induction rest as [|c rest IH];
    intros input pre pending output offset start Hin Hstart Hoff.
  - exists pre, pending. simpl. rewrite !append_nil_r in *. done.
  - assert (Hslice : Js.slice input start offset = pending)
      by (subst; apply slice_middle).
    simpl.
    destruct (Ascii.eqb c Js.tilde) eqn:Ht;
      [| destruct (Ascii.eqb c Js.slash) eqn:Hs].
    + rewrite Hslice.
      destruct (IH input (pre +:+ pending +:+ Js.str c) EmptyString
                  ((output +:+ pending) +:+ "~0") (offset + 1) (offset + 1))
        as (pre' & pending' & E1 & E2 & E3 & E4).
      { subst input. simpl. rewrite !append_assoc. done. }
      { rewrite !length_append. simpl. lia. }
      { rewrite !length_append. simpl. lia. }
      exists pre', pending'. split; [done|]. split; [done|]. split.
      * rewrite E3. simpl. rewrite !append_assoc. done.
      * intros Hz. apply E4 in Hz as [Hz _].
        rewrite !length_append in Hz. simpl in Hz. lia.
    + rewrite Hslice.
      destruct (IH input (pre +:+ pending +:+ Js.str c) EmptyString
                  ((output +:+ pending) +:+ "~1") (offset + 1) (offset + 1))
        as (pre' & pending' & E1 & E2 & E3 & E4).
      { subst input. simpl. rewrite !append_assoc. done. }
      { rewrite !length_append. simpl. lia. }
      { rewrite !length_append. simpl. lia. }
      exists pre', pending'. split; [done|]. split; [done|]. split.
      * rewrite E3. simpl. rewrite !append_assoc. done.
      * intros Hz. apply E4 in Hz as [Hz _].
        rewrite !length_append in Hz. simpl in Hz. lia.
    + destruct (IH input pre (pending +:+ Js.str c) output (offset + 1) start)
        as (pre' & pending' & E1 & E2 & E3 & E4).
      { subst input. simpl. rewrite !append_assoc. done. }
      { done. }
      { rewrite !length_append. simpl. lia. }
      exists pre', pending'. split; [done|]. split; [done|]. split.
      * rewrite E3. rewrite !append_assoc. done.
      * intros Hz. apply E4 in Hz as [Hz Hr]. split; [done|].
        by rewrite Hr.
Qed.

Lemma escapePointer_chars (s : string) : escapePointer s = escapeChars s.
Proof.
  unfold escapePointer.
  destruct (escapeLoop_spec s s EmptyString EmptyString EmptyString 0 0)
    as (pre' & pending' & E1 & E2 & E3 & E4); [done..|].
  destruct (escapeLoop s s EmptyString 0 0) as [output start].
  simpl in *. subst start.
  destruct (String.length pre' =? 0) eqn:Hz.
  - apply Nat.eqb_eq in Hz. apply E4 in Hz as [_ Hz]. done.
  - rewrite E1 at 1. rewrite length_append.
    destruct (String.length pre' <? String.length pre' + String.length pending')
      eqn:Hlt.
    + rewrite E1 at 1. rewrite sliceFrom_suffix. done.
    + apply Nat.ltb_ge in Hlt.
      assert (pending' = EmptyString)
        by (destruct pending'; simpl in *; [done | lia]).
      subst pending'. rewrite append_nil_r in E3. done.
Qed.

Lemma unescapeLoop_spec (n : nat) :
  forall (rest input pre pending output : string) (offset start : nat)
         (u : string),
    String.length rest <= n ->
    input = pre +:+ pending +:+ rest ->
    start = String.length pre ->
    offset = String.length pre + String.length pending ->
    unescapeChars rest = Some u ->
    exists out pre' pending',
      unescapeLoop input rest output offset start
        = Normal (out, String.length pre') /\
      input = pre' +:+ pending' /\
      out +:+ pending' = output +:+ pending +:+ u /\
      (String.length pre' = 0 -> String.length pre = 0 /\ u = rest).
Proof.
  induction n as [|n IH];
    intros rest input pre pending output offset start u Hn Hin Hstart Hoff Hu.
  - destruct rest; [|simpl in Hn; lia].
    simpl in Hu. injection Hu as <-.
    exists output, pre, pending. simpl. rewrite !append_nil_r in *.
    subst. done.
  - destruct rest as [|c rest].
    { simpl in Hu. injection Hu as <-.
      exists output, pre, pending. simpl. rewrite !append_nil_r in *.
      subst. done. }
    assert (Hslice : Js.slice input start offset = pending)
      by (subst; apply slice_middle).
    simpl in Hu |- *. simpl in Hn.
    destruct (Ascii.eqb c Js.tilde) eqn:Ht.
    + destruct rest as [|d rest]; [done|]. simpl in Hn.
      rewrite Hslice.
      destruct (Ascii.eqb d "0") eqn:H0; [|destruct (Ascii.eqb d "1") eqn:H1];
        [| |done].
      * destruct (unescapeChars rest) as [u'|] eqn:Hu'; [|done].
        injection Hu as <-.
        destruct (IH rest input
                    (pre +:+ pending +:+ String c (Js.str d)) EmptyString
                    ((output +:+ pending) +:+ "~")
                    (offset + 1 + 1) (offset + 1 + 1) u')
          as (out & pre' & pending' & E1 & E2 & E3 & E4); [lia | | | | done |].
        { subst input. simpl. rewrite !append_assoc. done. }
        { rewrite !length_append. simpl. lia. }
        { rewrite !length_append. simpl. lia. }
        exists out, pre', pending'. split; [done|]. split; [done|]. split.
        -- rewrite E3. simpl. rewrite !append_assoc. done.
        -- intros Hz. apply E4 in Hz as [Hz _].
           rewrite !length_append in Hz. simpl in Hz. lia.
      * destruct (unescapeChars rest) as [u'|] eqn:Hu'; [|done].
        injection Hu as <-.
        destruct (IH rest input
                    (pre +:+ pending +:+ String c (Js.str d)) EmptyString
                    ((output +:+ pending) +:+ "/")
                    (offset + 1 + 1) (offset + 1 + 1) u')
          as (out & pre' & pending' & E1 & E2 & E3 & E4); [lia | | | | done |].
        { subst input. simpl. rewrite !append_assoc. done. }
        { rewrite !length_append. simpl. lia. }
        { rewrite !length_append. simpl. lia. }
        exists out, pre', pending'. split; [done|]. split; [done|]. split.
        -- rewrite E3. simpl. rewrite !append_assoc. done.
        -- intros Hz. apply E4 in Hz as [Hz _].
           rewrite !length_append in Hz. simpl in Hz. lia.
    + destruct (unescapeChars rest) as [u'|] eqn:Hu'; [|done].
      injection Hu as <-.
      destruct (IH rest input pre (pending +:+ Js.str c) output
                  (offset + 1) start u')
        as (out & pre' & pending' & E1 & E2 & E3 & E4); [lia | | | | done |].
      { subst input. simpl. rewrite !append_assoc. done. }
      { done. }
      { rewrite !length_append. simpl. lia. }
      exists out, pre', pending'. split; [done|]. split; [done|]. split.
      * rewrite E3. rewrite !append_assoc. done.
      * intros Hz. apply E4 in Hz as [Hz Hr]. split; [done|].
        by rewrite Hr.
Qed.

Lemma unescapePointer_chars (s u : string) :
  unescapeChars s = Some u -> unescapePointer s = Normal u.
Proof.
  intros Hu. unfold unescapePointer.
  destruct (unescapeLoop_spec (String.length s) s s EmptyString EmptyString
              EmptyString 0 0 u)
    as (out & pre' & pending' & E1 & E2 & E3 & E4); [done..|].
  rewrite E1. simpl in E3.
  destruct (String.length pre' =? 0) eqn:Hz.
  - apply Nat.eqb_eq in Hz. apply E4 in Hz as [_ Hz]. by rewrite Hz.
  - rewrite E2 at 1. rewrite length_append.
    destruct (String.length pre' <? String.length pre' + String.length pending')
      eqn:Hlt.
    + rewrite E2 at 1. rewrite sliceFrom_suffix. by rewrite E3.
    + apply Nat.ltb_ge in Hlt.
      assert (pending' = EmptyString)
        by (destruct pending'; simpl in *; [done | lia]).
      subst pending'. rewrite append_nil_r in E3. by rewrite E3.
Qed.

Lemma unescape_escapeChars (s : string) :
  unescapeChars (escapeChars s) = Some s.
Proof.
  induction s as [|c s IH]; [done|]. simpl.
  destruct (Ascii.eqb c Js.tilde) eqn:Ht.
  - apply Ascii.eqb_eq in Ht as ->. simpl. by rewrite IH.
  - destruct (Ascii.eqb c Js.slash) eqn:Hs.
    + apply Ascii.eqb_eq in Hs as ->. simpl. by rewrite IH.
    + simpl. rewrite Ht, IH. done.
Qed.

Lemma escapeChars_no_slash (s : string) (i : nat) :
  String.get i (escapeChars s) <> Some Js.slash.
Proof.
  revert i. induction s as [|c s IH]; intros i; [by destruct i|].
  simpl.
  destruct (Ascii.eqb c Js.tilde) eqn:Ht;
    [| destruct (Ascii.eqb c Js.slash) eqn:Hs].
  - destruct i as [|[|i]]; simpl; [done | done | apply IH].
  - destruct i as [|[|i]]; simpl; [done | done | apply IH].
  - destruct i as [|i]; simpl; [|apply IH].
    intros [= ->]. by rewrite Ascii.eqb_refl in Hs.
Qed.

Lemma escapeChars_tilde (s : string) (i : nat) :
  String.get i (escapeChars s) = Some Js.tilde ->
  String.get (S i) (escapeChars s) = Some "0"%char \/
  String.get (S i) (escapeChars s) = Some "1"%char.
Proof.
  revert i. induction s as [|c s IH]; intros i; [by destruct i|].
  simpl.
  destruct (Ascii.eqb c Js.tilde) eqn:Ht;
    [| destruct (Ascii.eqb c Js.slash) eqn:Hs].
  - destruct i as [|[|i]]; simpl; [by left | done | apply IH].
  - destruct i as [|[|i]]; simpl; [by right | done | apply IH].
  - destruct i as [|i]; simpl; [|apply IH].
    intros [= ->]. by rewrite Ascii.eqb_refl in Ht.
Qed.

(** C10.  Escaping a token and unescaping the result gives the token
    back, for every string; the escaped token contains no [/], and each
    [~] in it is followed by [0] or by [1]. *)
Theorem escapePointer_roundtrip (s : string) :
  unescapePointer (escapePointer s) = Normal s /\
  (forall i, String.get i (escapePointer s) <> Some Js.slash) /\
  (forall i, String.get i (escapePointer s) = Some Js.tilde ->
             String.get (S i) (escapePointer s) = Some "0"%char \/
             String.get (S i) (escapePointer s) = Some "1"%char).
Proof.
  rewrite escapePointer_chars. split; [|split].
  - apply unescapePointer_chars, unescape_escapeChars.
  - apply escapeChars_no_slash.
  - apply escapeChars_tilde.
Qed.

(** ** Splitting strings *)

Lemma pieces_split (c : ascii) (s : string) :
  exists p ps,
    Js.pieces c s = p :: ps /\
    Js.find c p = None /\
    ((ps = [] /\ s = p /\ Js.find c s = None) \/
     (exists s', s = p +:+ String c s' /\ Js.pieces c s' = ps /\
                 Js.find c s = Some (String.length p))).
Proof.
  induction s as [|d r IH].
  - exists EmptyString, []. simpl. split; [done|]. split; [done|]. by left.
  - simpl. destruct (Ascii.eqb d c) eqn:Hd.
    + apply Ascii.eqb_eq in Hd as ->.
      exists EmptyString, (Js.pieces c r). simpl.
      split; [done|]. split; [done|]. right. by exists r.
    + destruct IH as (p & ps & -> & Hp & Hcase).
      exists (String d p), ps. simpl. rewrite Hd, Hp.
      split; [done|]. split; [done|].
      destruct Hcase as [(-> & -> & Hf) | (s' & -> & <- & Hf)].
      * left. by rewrite Hp.
      * right. exists s'. rewrite Hf. done.
Qed.

Lemma slice_zero_prefix (a b : string) :
  Js.slice (a +:+ b) 0 (String.length a) = a.
Proof.
  unfold Js.slice. rewrite Nat.sub_0_r. apply substring_prefix.
Qed.

Lemma sliceFrom_zero (s : string) : Js.sliceFrom s 0 = s.
Proof.
  unfold Js.sliceFrom. rewrite Nat.sub_0_r.
  rewrite <- (append_nil_r s) at 2. apply substring_prefix.
Qed.

Lemma sliceFrom_all (s : string) : Js.sliceFrom s (String.length s) = EmptyString.
Proof.
  rewrite <- (append_nil_r s) at 1. apply sliceFrom_suffix.
Qed.

Lemma beforeHash_pieces (s : string) :
  Js.pieces Js.hash s !! 0 = Some (beforeHash s).
Proof.
  unfold beforeHash.
  destruct (pieces_split Js.hash s) as (p & ps & -> & Hp & Hcase).
  destruct Hcase as [(-> & -> & Hf) | (s' & -> & <- & Hf)]; rewrite Hf.
  - done.
  - by rewrite slice_zero_prefix.
Qed.

Lemma afterHash_pieces (s : string) :
  Js.pieces Js.hash s !! 1 = beforeHash <$> afterHash s.
Proof.
  unfold afterHash.
  destruct (pieces_split Js.hash s) as (p & ps & -> & Hp & Hcase).
  destruct Hcase as [(-> & -> & Hf) | (s' & -> & <- & Hf)]; rewrite Hf.
  - done.
  - simpl.
    replace (p +:+ String Js.hash s') with ((p +:+ Js.str Js.hash) +:+ s')
      by (by rewrite append_assoc).
    replace (String.length p + 1) with (String.length (p +:+ Js.str Js.hash))
      by (rewrite length_append; simpl; lia).
    rewrite sliceFrom_suffix. apply beforeHash_pieces.
Qed.

Lemma split_hash (uri : string) :
  Js.split Js.hash 2 uri !! 0 = Some (beforeHash uri) /\
  Js.split Js.hash 2 uri !! 1 = fragmentUpToSecondHash uri.
Proof.
  unfold Js.split, fragmentUpToSecondHash.
  rewrite !lookup_take_lt by lia.
  split; [apply beforeHash_pieces | apply afterHash_pieces].
Qed.

(** ** Pointer addressing *)

Section PointerAddressing.
Context `{Host}.

Lemma resolvePointerLoop_end (fuel : nat) (h : Heap) (pointer : string)
  (offset : nat) (node : value) :
  String.length pointer <= offset ->
  resolvePointerLoop fuel h pointer offset node = Normal node.
Proof.
  intros Hle. destruct fuel; simpl; [done|].
  apply Nat.ltb_ge in Hle. by rewrite Hle.
Qed.

Lemma resolvePointerLoop_follow (h : Heap) (pointer : string) (fuel : nat) :
  forall (prefix rem : string) (node : value),
    pointer = prefix +:+ String Js.slash rem ->
    String.length rem < fuel ->
    resolvePointerLoop fuel h pointer (String.length prefix) node
      = followTokens getChild h pointer prefix (Js.pieces Js.slash rem) node.
Proof.
  induction fuel as [|fuel IH]; intros prefix rem node Hp Hfuel; [lia|].
  simpl.
  assert (Hlen : String.length pointer
                 = String.length prefix + 1 + String.length rem)
    by (subst pointer; rewrite length_append; simpl; lia).
  assert (Hlt : (String.length prefix <? String.length pointer) = true)
    by (apply Nat.ltb_lt; lia).
  rewrite Hlt.
  assert (Hrem : Js.sliceFrom pointer (String.length prefix + 1) = rem).
  { subst pointer.
    replace (prefix +:+ String Js.slash rem)
      with ((prefix +:+ Js.str Js.slash) +:+ rem)
      by (by rewrite append_assoc).
    replace (String.length prefix + 1)
      with (String.length (prefix +:+ Js.str Js.slash))
      by (rewrite length_append; simpl; lia).
    apply sliceFrom_suffix. }
  unfold Js.indexOf. rewrite Hrem.
  destruct (pieces_split Js.slash rem) as (p & ps & Hpieces & Hnone & Hcase).
  rewrite Hpieces. simpl.
  destruct Hcase as [(-> & -> & Hf) | (s' & -> & <- & Hf)]; rewrite Hf; simpl.
  - assert (Hslice : Js.slice pointer (String.length prefix + 1)
                       (String.length pointer) = p).
    { rewrite Hlen. subst pointer.
      replace (prefix +:+ String Js.slash p)
        with ((prefix +:+ Js.str Js.slash) +:+ p +:+ EmptyString)
        by (by rewrite append_nil_r, append_assoc).
      replace (String.length prefix + 1)
        with (String.length (prefix +:+ Js.str Js.slash))
        by (rewrite length_append; simpl; lia).
      apply slice_middle. }
    assert (Hloc : Js.slice pointer 0 (String.length pointer)
                   = prefix +:+ String Js.slash p).
    { rewrite <- Hp. rewrite <- (append_nil_r pointer) at 1.
      apply slice_zero_prefix. }
    rewrite Hslice, Hloc.
    destruct (unescapePointer p) as [token|e]; [|done].
    destruct (getChild h node token) as [next|]; [|done].
    by apply resolvePointerLoop_end.
  - assert (Hslice : Js.slice pointer (String.length prefix + 1)
                       (String.length prefix + 1 + String.length p) = p).
    { subst pointer.
      replace (prefix +:+ String Js.slash (p +:+ String Js.slash s'))
        with ((prefix +:+ Js.str Js.slash) +:+ p +:+ String Js.slash s')
        by (by rewrite append_assoc).
      replace (String.length prefix + 1)
        with (String.length (prefix +:+ Js.str Js.slash))
        by (rewrite length_append; simpl; lia).
      apply slice_middle. }
    assert (Hp' : pointer
                  = (prefix +:+ String Js.slash p) +:+ String Js.slash s').
    { subst pointer. rewrite append_assoc. done. }
    assert (Hend : String.length prefix + 1 + String.length p
                   = String.length (prefix +:+ String Js.slash p))
      by (rewrite length_append; simpl; lia).
    assert (Hloc : Js.slice pointer 0
                     (String.length prefix + 1 + String.length p)
                   = prefix +:+ String Js.slash p).
    { rewrite Hend, Hp'. apply slice_zero_prefix. }
    rewrite Hslice, Hloc.
    destruct (unescapePointer p) as [token|e]; [|done].
    destruct (getChild h node token) as [next|]; [|done].
    rewrite Hend. apply IH; [done|].
    rewrite length_append in Hfuel. simpl in Hfuel. lia.
Qed.

(** On a pointer that starts with [/], [resolvePointer] is pointer
    addressing token by token. *)
Lemma resolvePointer_follow (h : Heap) (pointer : string) (node : value) :
  Js.startsWith Js.slash pointer = true ->
  resolvePointer h pointer node
    = followTokens getChild h pointer EmptyString (rawTokens pointer) node.
Proof.
  intros Hs. unfold resolvePointer. rewrite Hs, andb_false_r.
  destruct pointer as [|c rem]; [done|].
  simpl in Hs. apply Ascii.eqb_eq in Hs as ->.
  apply (resolvePointerLoop_follow h _ _ EmptyString rem); [done|].
  simpl. lia.
Qed.

(** The fuel of [resolvePointerLoop] is only a bound: any larger amount
    gives the same result. *)
Lemma resolvePointerLoop_fuel (h : Heap) (pointer : string) (fuel : nat)
  (node : value) :
  Js.startsWith Js.slash pointer = true ->
  String.length pointer <= fuel ->
  resolvePointerLoop fuel h pointer 0 node = resolvePointer h pointer node.
Proof.
  intros Hs Hfuel. rewrite resolvePointer_follow by done.
  destruct pointer as [|c rem]; [done|].
  simpl in Hs. apply Ascii.eqb_eq in Hs as ->.
  apply (resolvePointerLoop_follow h _ _ EmptyString rem); [done|].
  simpl in Hfuel. lia.
Qed.


Lemma followTokens_ext
  (f g : Heap -> value -> string -> option value) (h : Heap)
  (pointer : string) (tokens : list string) :
  (forall node key, f h node key = g h node key) ->
  forall (prefix : string) (node : value),
    followTokens f h pointer prefix tokens node
      = followTokens g h pointer prefix tokens node.
Proof.
  intros Hfg. induction tokens as [|raw tokens IH]; intros prefix node;
    simpl; [done|].
  destruct (unescapePointer raw) as [token|e]; [|done].
  rewrite Hfg. destruct (g h node token); [apply IH | done].
Qed.

(** A property read is the member of that name when the node has one,
    and what the host adds otherwise. *)
Lemma getChild_property (h : Heap) (node : value) (key : string) :
  getChild h node key = property h node key.
Proof.
  unfold getChild, property, member, inherited.
  destruct node as [| | | |a|name]; try done.
  - destruct (h !! a) as [[items|props]|]; [|done..].
    destruct (String.eqb key "length") eqn:Hk; [|done].
    apply String.eqb_eq in Hk as ->. done.
  - simpl. by destruct (hostTypeOf name).
Qed.



Lemma resolveResourceFragment_follow (st : State) (resource : Resource.t)
  (fragment : string) :
  resolveResourceFragment st resource fragment
    = resolveFragmentSpec property st resource fragment.
Proof.
  unfold resolveResourceFragment, resolveFragmentSpec, getResourceAnchor.
  destruct fragment as [|c rest]; [done|]. simpl.
  destruct (Ascii.eqb c Js.slash) eqn:Hc; [|done].
  rewrite resolvePointer_follow by (simpl; done).
  apply followTokens_ext. intros node key. apply getChild_property.
Qed.


(** ** Resolving a URI *)

Lemma resolveFragmentPart_spec (st : State) (chosen : Resource.t)
  (fragmentPart : option string) :
  resolveFragmentPart st chosen fragmentPart
    = match fragmentPart with
      | None | Some EmptyString => Normal (VObj (Resource.node chosen))
      | Some fragment => resolveFragmentSpec property st chosen fragment
      end.
Proof.
  unfold resolveFragmentPart.
  destruct fragmentPart as [[|c r]|]; [done| |done].
  simpl. apply resolveResourceFragment_follow.
Qed.

Section Resolving.
Context `{Resolvers}.

(** What [uri.split("#", 2)] makes of any string: the fragment part is
    the text between the first [#] and the next one. *)
Lemma resolveResourceUri_split (st : State) (resource : option Resource.t)
  (uri : string) :
  resolveResourceUri st resource uri
    = resolveUriSpec fragmentUpToSecondHash st resource uri.
Proof.
  unfold resolveResourceUri, resolveUriSpec.
  destruct (split_hash uri) as [-> ->]. simpl.
  destruct (beforeHash uri) as [|c r] eqn:Hb; simpl.
  - destruct resource as [base|]; [|done].
    by rewrite resolveFragmentPart_spec.
  - destruct (resolveResource st (String c r)) as [[[found|]|e] st'];
      [|done..].
    by rewrite resolveFragmentPart_spec.
Qed.

(** A URI with at most one [#] has one reading of its fragment part. *)
Lemma fragment_single_hash (uri : string) :
  atMostOneHash uri ->
  fragmentUpToSecondHash uri = fragmentAfterFirstHash uri.
Proof.
  unfold fragmentUpToSecondHash, fragmentAfterFirstHash.
  destruct (afterHash uri) as [f|] eqn:Hf; [|done].
  intros Hone. simpl. unfold beforeHash. by rewrite (Hone f Hf).
Qed.

(** C4.  On every URI reference, that is on every string with at most
    one [#], [resolveResourceUri] is URI resolution as the specification
    words it, for every state and base resource: the URI is split at the
    first [#] into the canonical part before it and the fragment part
    after it; a non-empty canonical part goes through [resolveResource]
    and fails with a resolution error when unknown; an empty one uses the
    base resource and fails with a resolution error when there is none;
    the fragment part is resolved against the resource chosen, and an
    empty or absent fragment yields its root node. *)
Theorem resolveResourceUri_spec (st : State) (resource : option Resource.t)
  (uri : string) :
  atMostOneHash uri ->
  resolveResourceUri st resource uri
    = resolveUriSpec fragmentAfterFirstHash st resource uri.
Proof.
  intros Hone. rewrite resolveResourceUri_split.
  unfold resolveUriSpec. by rewrite (fragment_single_hash uri Hone).
Qed.

End Resolving.

End PointerAddressing.

(** C4, witness: a URI with a pointer as its fragment, in a context that
    knows the document. *)
Lemma resolveResourceUri_spec_witness :
  atMostOneHash "https://example.com/types.json#/string" /\
  resolveResourceUri (typesRegistered None) None
    "https://example.com/types.json#/string"
  = (Normal (VObj 0), typesRegistered None).
Proof.
  assert (Hone : atMostOneHash "https://example.com/types.json#/string").
  { intros fragment Hf. vm_compute in Hf. injection Hf as <-.
    vm_compute. reflexivity. }
  split; [exact Hone|].
  rewrite (resolveResourceUri_spec (typesRegistered None) None
             "https://example.com/types.json#/string" Hone).
  vm_compute. reflexivity.
Defined.

(** On a string with two [#], which is not a URI reference, the text
    from the second [#] on is dropped: on [#a#b] the anchor looked up is
    [a], not [a#b]. *)
Lemma resolveResourceUri_second_hash :
  resolveResourceUri (initialState [Obj []; Obj []] None) (Some anchored)
    "#a#b"
  = (Normal (VObj 1), initialState [Obj []; Obj []] None) /\
  resolveResourceUri (initialState [Obj []; Obj []] None) (Some anchored)
    "#a#b"
  <> resolveUriSpec fragmentAfterFirstHash
       (initialState [Obj []; Obj []] None) (Some anchored) "#a#b".
Proof.
  split; [by vm_compute|]. vm_compute. discriminate.
Qed.


(** ** Registering references *)

(** C9.  Registering a node a second time, with any key and URI, returns
    the reference of the first registration and leaves the state as it
    was; in particular the unresolved map keeps its size. *)
Theorem registerReference_idempotent (st : State) (node : addr)
  (key uri key' uri' : string) :
  let first := registerReference st node key uri in
  let second := registerReference first.2 node key' uri' in
  second.1 = first.1 /\
  second.2 = first.2 /\
  length <$> Context.unresolved (context second.2)
    = length <$> Context.unresolved (context first.2).
Proof.
  assert (Hsame : registerReference (registerReference st node key uri).2
                    node key' uri' = registerReference st node key uri).
  { unfold registerReference at 2 3.
    destruct (Context.references (context st) ≫= (.!! node)) as [r|] eqn:Hr.
    - simpl. unfold registerReference. by rewrite Hr.
    - simpl. unfold registerReference. simpl. by rewrite lookup_insert_eq. }
  simpl. rewrite Hsame. done.
Qed.

(** ** Batch resolution *)

Lemma capture_array (l es : list exn) :
  foldl capture (CauseArray l) es = CauseArray (l ++ es).
Proof.
  revert l. induction es as [|e es IH]; intros l; simpl.
  - by rewrite app_nil_r.
  - rewrite IH. by rewrite <- app_assoc.
Qed.

Lemma capture_all (es : list exn) :
  foldl capture CauseUndefined es
    = match es with
      | [] => CauseUndefined
      | [e] => CauseOne e
      | _ => CauseArray es
      end.
Proof.
  destruct es as [|e [|e' es]]; [done..|]. simpl. by rewrite capture_array.
Qed.

Lemma multipleMessage_enumerate (es : list exn) :
  multipleMessage es = enumerateCauses es.
Proof.
  unfold multipleMessage, enumerateCauses.
  generalize "Unable to resolve multiple references" as heading.
  induction es as [|e es IH]; intros heading; simpl.
  - by rewrite append_nil_r.
  - rewrite IH.
    destruct es; simpl; by rewrite ?append_nil_r, ?append_assoc.
Qed.

Lemma Frame_induction (P : Frame.t -> Prop) :
  (forall id, P (Frame.mk id None)) ->
  (forall id parent, P parent -> P (Frame.mk id (Some parent))) ->
  forall frame, P frame.
Proof.
  intros Hroot Hstep.
  fix IH 1. intros [id [parent|]].
  - apply Hstep, IH.
  - apply Hroot.
Qed.

Lemma mapDelete_fresh (k : addr) (m : list (addr * rid)) :
  k ∉ m.*1 -> mapDelete k m = m.
Proof.
  intros Hk. unfold mapDelete. induction m as [|[k' v] m IH]; [done|].
  rewrite filter_cons. simpl in *.
  apply not_elem_of_cons in Hk as [Hne Hk].
  rewrite decide_True by done. by rewrite IH.
Qed.

Lemma mapDelete_head (k : addr) (v : rid) (m : list (addr * rid)) :
  k ∉ m.*1 -> mapDelete k ((k, v) :: m) = m.
Proof.
  intros Hk. unfold mapDelete. rewrite filter_cons. simpl.
  rewrite decide_False by (intros Hne; by apply Hne).
  by apply mapDelete_fresh.
Qed.

Lemma mapDelete_elem (k : addr) (m : list (addr * rid)) (e : addr * rid) :
  e ∈ mapDelete k m <-> e.1 <> k /\ e ∈ m.
Proof. unfold mapDelete. by rewrite list_elem_of_filter. Qed.

Lemma deref_setTarget_uri (st : State) (r r' : rid) (target : value) :
  Reference.uri (deref (setTarget st r target) r')
    = Reference.uri (deref st r').
Proof.
  unfold deref, setTarget. simpl.
  destruct (decide (r = r')) as [->|Hne].
  - destruct (referenceObjs st !! r') as [ref|] eqn:Hr.
    + rewrite list_lookup_insert_eq by (by eapply lookup_lt_Some).
      simpl. unfold deref. by rewrite Hr.
    + rewrite list_insert_ge by (by apply lookup_ge_None). by rewrite Hr.
  - by rewrite list_lookup_insert_ne.
Qed.

Lemma deref_setTarget_eq (st : State) (r : rid) (target : value) :
  r < length (referenceObjs st) ->
  Reference.target (deref (setTarget st r target) r) = Some target.
Proof.
  intros Hr. unfold deref, setTarget. simpl.
  by rewrite list_lookup_insert_eq.
Qed.

Section Batch.
Context `{Host} `{Resolvers}.
Variable resource : option Resource.t.

(** The loop is the batch of attempts, with the captured failures folded
    into the variable [cause]. *)
Lemma drainLoop_batch (fuel : nat) :
  forall (st : State) (cause : Cause),
    drainLoop fuel resource st cause
      = (fun run =>
           match aborted run with
           | Some error => (Throw error, final run)
           | None => (Normal (foldl capture cause (captured run)), final run)
           end) <$> batch fuel st resource.
Proof.
  induction fuel as [|fuel IH]; intros st cause; simpl;
    destruct (default [] (Context.unresolved (context st)))
      as [|[node r] rest]; try done.
  unfold attempt. cbn [fst snd].
  destruct (resolveResourceUri (deleteUnresolved st node) resource
              (Reference.uri (deref (deleteUnresolved st node) r)))
    as [[target|error] st1].
  - rewrite IH. by destruct (batch fuel (setTarget st1 r target) resource).
  - destruct (isResolutionError error); simpl; [|done].
    rewrite IH. by destruct (batch fuel st1 resource).
Qed.

Lemma resolveReferences_batch (fuel : nat) (st : State) :
  resolveReferences fuel st resource
    = match Context.unresolved (context st) with
      | None => Some (Normal tt, st)
      | Some _ =>
          (fun run => (settle run, final run)) <$> batch fuel st resource
      end.
Proof.
  unfold resolveReferences.
  destruct (Context.unresolved (context st)) as [entries|]; [|done].
  rewrite drainLoop_batch.
  destruct (batch fuel st resource) as [run|]; [|done]. simpl.
  unfold settle. destruct (aborted run); [done|].
  rewrite capture_all.
  destruct (captured run) as [|e [|e' es]]; [done..|].
  by rewrite multipleMessage_enumerate.
Qed.

(** What a batch captures and what it leaves: only resolution errors
    are captured; a batch that was not aborted ended on an empty map, and
    one that was aborted was so by a failure that is not a resolution
    error. *)
Lemma batch_outcome (fuel : nat) :
  forall (st : State) (run : BatchRun),
    batch fuel st resource = Some run ->
    Forall (fun e => isResolutionError e = true) (captured run) /\
    match aborted run with
    | None => default [] (Context.unresolved (context (final run))) = []
    | Some error => isResolutionError error = false /\ 1 <= attempted run
    end.
Proof.
  induction fuel as [|fuel IH]; intros st run; simpl;
    destruct (default [] (Context.unresolved (context st)))
      as [|entry rest] eqn:Hu; try done.
  - intros [= <-]. simpl. by rewrite Hu.
  - intros [= <-]. simpl. by rewrite Hu.
  - destruct (attempt st resource entry) as [[error|] st1].
    + destruct (isResolutionError error) eqn:He.
      * destruct (batch fuel st1 resource) as [run'|] eqn:Hb; [|done].
        intros [= <-]. destruct (IH st1 run' Hb) as [Hc Ha]. simpl.
        split; [by constructor|].
        destruct (aborted run'); [|done]. split; [apply Ha | lia].
      * intros [= <-]. simpl. split; [done|]. split; [done | lia].
    + destruct (batch fuel st1 resource) as [run'|] eqn:Hb; [|done].
      intros [= <-]. destruct (IH st1 run' Hb) as [Hc Ha]. simpl.
      split; [done|].
      destruct (aborted run'); [|done]. split; [apply Ha | lia].
Qed.

(** *** Resolvers that leave the unresolved map alone *)

Lemma resolveResource_unresolved (st : State) (uri : string) :
  keepUnresolved ->
  Context.unresolved (context (resolveResource st uri).2)
    = Context.unresolved (context st).
Proof.
  intros Hkeep. unfold resolveResource.
  destruct (Context.canonical (context st) ≫= (.!! uri)); [done|].
  destruct (Context.resolveResource (context st)) as [id|]; [|done].
  specialize (Hkeep id uri st).
  destruct (resolverOf id uri st) as [[[found|]|e] st1]; simpl in *;
    [|done..].
  unfold setResource. by destruct (Resource.uri found).
Qed.

Lemma resolveResourceUri_unresolved (st : State) (uri : string) :
  keepUnresolved ->
  Context.unresolved (context (resolveResourceUri st resource uri).2)
    = Context.unresolved (context st).
Proof.
  intros Hkeep. unfold resolveResourceUri.
  set (canonicalUri := default EmptyString (Js.split Js.hash 2 uri !! 0)).
  destruct (negb (String.length canonicalUri =? 0)).
  - pose proof (resolveResource_unresolved st canonicalUri Hkeep) as Hu.
    by destruct (resolveResource st canonicalUri) as [[[found|]|e] s1].
  - by destruct resource.
Qed.

Lemma attempt_unresolved (st : State) (entry : addr * rid) :
  keepUnresolved ->
  Context.unresolved (context (attempt st resource entry).2)
    = mapDelete entry.1 <$> Context.unresolved (context st).
Proof.
  intros Hkeep. unfold attempt.
  pose proof (resolveResourceUri_unresolved (deleteUnresolved st entry.1)
                (Reference.uri (deref (deleteUnresolved st entry.1) entry.2))
                Hkeep) as Hu.
  by destruct (resolveResourceUri _ _ _) as [[target|e] st1].
Qed.

(** With such resolvers the batch attempts the entries the map had on
    entry, in their order, and as many rounds as there are entries are
    enough. *)
Lemma batch_quiet (entries : list (addr * rid)) :
  keepUnresolved ->
  forall (fuel : nat) (st : State),
    Context.unresolved (context st) = Some entries ->
    NoDup entries.*1 ->
    length entries <= fuel ->
    exists run,
      batch fuel st resource = Some run /\
      attempted run <= length entries /\
      (aborted run = None -> attempted run = length entries) /\
      Context.unresolved (context (final run))
        = Some (drop (attempted run) entries).
Proof.
  intros Hkeep.
  induction entries as [|[node r] entries IH]; intros fuel st Hu Hnd Hfuel.
  - exists (mkBatchRun [] None 0 st).
    split; [by destruct fuel; simpl; rewrite Hu|]. by simpl.
  - destruct fuel as [|fuel]; [simpl in Hfuel; lia|].
    simpl in Hnd. apply NoDup_cons in Hnd as [Hfresh Hnd].
    simpl. rewrite Hu. simpl.
    pose proof (attempt_unresolved st (node, r) Hkeep) as Hu1.
    rewrite Hu in Hu1. simpl in Hu1. rewrite mapDelete_head in Hu1 by done.
    destruct (attempt st resource (node, r)) as [[error|] st1]; simpl in Hu1.
    + destruct (isResolutionError error).
      * destruct (IH fuel st1 Hu1 Hnd) as (run & -> & Hle & Hall & Hrest);
          [simpl in Hfuel; lia|].
        eexists. split; [reflexivity|]. simpl.
        split; [lia|]. split; [|done]. intros Ha. by rewrite Hall.
      * eexists. split; [reflexivity|]. simpl.
        split; [lia|]. split; [done|]. by rewrite drop_0.
    + destruct (IH fuel st1 Hu1 Hnd) as (run & -> & Hle & Hall & Hrest);
        [simpl in Hfuel; lia|].
      eexists. split; [reflexivity|]. simpl.
      split; [lia|]. split; [|done]. intros Ha. by rewrite Hall.
Qed.

(** C3.  A batch resolution reports what the batch of attempts gives,
    whatever the resolvers do and for every number of rounds: nothing
    when no failure was captured, the captured resolution error itself
    when there is exactly one, one aggregate [ResolutionError] whose
    message lists the causes and whose [cause] is their ordered list when
    there are several; a failure that is not a resolution error ends the
    batch at once and is propagated as it is.  Only resolution errors are
    captured, and a batch that was not aborted leaves the unresolved map
    empty.  When the resolvers leave the unresolved map alone, as many
    rounds as the map has entries are enough, the entries attempted are
    those the map had, and the entries after the one that aborted the
    batch stay in the unresolved map. *)
Theorem resolveReferences_aggregation (fuel : nat) (st : State) :
  resolveReferences fuel st resource
    = match Context.unresolved (context st) with
      | None => Some (Normal tt, st)
      | Some _ =>
          (fun run => (settle run, final run)) <$> batch fuel st resource
      end /\
  (forall run,
     batch fuel st resource = Some run ->
     Forall (fun e => isResolutionError e = true) (captured run) /\
     match aborted run with
     | None => default [] (Context.unresolved (context (final run))) = []
     | Some error => isResolutionError error = false /\ 1 <= attempted run
     end) /\
  (forall entries,
     keepUnresolved ->
     Context.unresolved (context st) = Some entries ->
     NoDup entries.*1 ->
     length entries <= fuel ->
     exists run,
       batch fuel st resource = Some run /\
       attempted run <= length entries /\
       (aborted run = None -> attempted run = length entries) /\
       Context.unresolved (context (final run))
         = Some (drop (attempted run) entries)).
Proof.
  split; [apply resolveReferences_batch|]. split; [apply batch_outcome|].
  intros entries Hkeep Hu Hnd Hfuel. by apply batch_quiet.
Qed.

(** *** What every step of a batch does *)

(** A relation between states that holds across the steps of an attempt
    holds across the attempt, and across the batch. *)
Lemma resolveResourceUri_steps (R : State -> State -> Prop) :
  (forall st, R st st) ->
  (forall st1 st2 st3, R st1 st2 -> R st2 st3 -> R st1 st3) ->
  (forall id uri st, R st (resolverOf id uri st).2) ->
  (forall st found, R st (withContext st (setResource (context st) found))) ->
  forall st uri, R st (resolveResourceUri st resource uri).2.
Proof.
  intros Hrefl Htrans Hresolver Hset st uri. unfold resolveResourceUri.
  set (canonicalUri := default EmptyString (Js.split Js.hash 2 uri !! 0)).
  destruct (negb (String.length canonicalUri =? 0));
    [|destruct resource; apply Hrefl].
  assert (Hstep : R st (resolveResource st canonicalUri).2).
  { unfold resolveResource.
    destruct (Context.canonical (context st) ≫= (.!! canonicalUri));
      [apply Hrefl|].
    destruct (Context.resolveResource (context st)) as [id|]; [|apply Hrefl].
    specialize (Hresolver id canonicalUri st).
    destruct (resolverOf id canonicalUri st) as [[[found|]|e] st1];
      simpl in *; [|done..].
    eapply Htrans; [exact Hresolver | apply Hset]. }
  by destruct (resolveResource st canonicalUri) as [[[found|]|e] st1].
Qed.

Lemma attempt_steps (R : State -> State -> Prop) :
  (forall st, R st st) ->
  (forall st1 st2 st3, R st1 st2 -> R st2 st3 -> R st1 st3) ->
  (forall st node, R st (deleteUnresolved st node)) ->
  (forall id uri st, R st (resolverOf id uri st).2) ->
  (forall st found, R st (withContext st (setResource (context st) found))) ->
  (forall st r target, R st (setTarget st r target)) ->
  forall st entry, R st (attempt st resource entry).2.
Proof.
  intros Hrefl Htrans Hdelete Hresolver Hset Htarget st entry.
  unfold attempt.
  pose proof (resolveResourceUri_steps R Hrefl Htrans Hresolver Hset
                (deleteUnresolved st entry.1)
                (Reference.uri (deref (deleteUnresolved st entry.1) entry.2)))
    as Hstep.
  destruct (resolveResourceUri _ _ _) as [[target|e] st1]; simpl in *.
  - eapply Htrans; [apply Hdelete|]. eapply Htrans; [exact Hstep|].
    apply Htarget.
  - eapply Htrans; [apply Hdelete | exact Hstep].
Qed.

Lemma batch_steps (R : State -> State -> Prop) :
  (forall st, R st st) ->
  (forall st1 st2 st3, R st1 st2 -> R st2 st3 -> R st1 st3) ->
  (forall st entry, R st (attempt st resource entry).2) ->
  forall fuel st run,
    batch fuel st resource = Some run -> R st (final run).
Proof.
  intros Hrefl Htrans Hattempt.
  induction fuel as [|fuel IH]; intros st run; simpl;
    destruct (default [] (Context.unresolved (context st)))
      as [|entry rest]; try done.
  - intros [= <-]. apply Hrefl.
  - intros [= <-]. apply Hrefl.
  - specialize (Hattempt st entry).
    destruct (attempt st resource entry) as [[error|] st1]; simpl in *.
    + destruct (isResolutionError error).
      * destruct (batch fuel st1 resource) as [run'|] eqn:Hb; [|done].
        intros [= <-]. simpl. eapply Htrans; [exact Hattempt | by apply IH].
      * by intros [= <-].
    + destruct (batch fuel st1 resource) as [run'|] eqn:Hb; [|done].
      intros [= <-]. simpl. eapply Htrans; [exact Hattempt | by apply IH].
Qed.

(** The state a batch resolution leaves is the last state of the
    batch. *)
Lemma resolveReferences_final (fuel : nat) (st st' : State)
  (result : completion unit) :
  resolveReferences fuel st resource = Some (result, st') ->
  st' = st \/ exists run, batch fuel st resource = Some run /\ st' = final run.
Proof.
  rewrite resolveReferences_batch.
  destruct (Context.unresolved (context st)); [|by intros [= _ <-]; left].
  destruct (batch fuel st resource) as [run|]; [|done].
  intros [= _ <-]. right. by exists run.
Qed.

End Batch.
(** ** The full drain *)

Lemma setResource_canonical (ctx : Context.t) (resource : Resource.t)
  (uri : string) :
  Resource.uri resource = Some uri ->
  Context.canonical (setResource ctx resource) ≫= (.!! uri) = Some resource.
Proof.
  intros Huri. unfold setResource. rewrite Huri. simpl.
  destruct (Js.endsWith Js.hash uri).
  - destruct (decide (Js.slice uri 0 (String.length uri - 1) = uri))
      as [->|Hne].
    + by rewrite lookup_insert_eq.
    + by rewrite lookup_insert_ne, lookup_insert_eq.
  - by rewrite lookup_insert_eq.
Qed.

Lemma endsWith_find (c : ascii) (s : string) :
  Js.find c s = None -> Js.endsWith c s = false.
Proof.
  induction s as [|d s IH]; [done|]. simpl.
  destruct (Ascii.eqb d c) eqn:Hd; [done|].
  destruct (Js.find c s); [done|]. intros _.
  destruct s; [done|]. by apply IH.
Qed.

Lemma beforeHash_find (uri : string) :
  Js.find Js.hash (beforeHash uri) = None.
Proof.
  unfold beforeHash.
  destruct (pieces_split Js.hash uri) as (p & ps & _ & Hp & Hcase).
  destruct Hcase as [(_ & -> & Hf) | (s' & -> & _ & Hf)]; rewrite Hf;
    [done|].
  by rewrite slice_zero_prefix.
Qed.

(** Registering a resource under a URI without [#] binds that URI and
    no other. *)
Lemma setResource_lookup (st : State) (found : Resource.t) (uri : string) :
  Resource.uri found = Some uri ->
  Js.find Js.hash uri = None ->
  forall uri',
    lookupCanonical (withContext st (setResource (context st) found)) uri'
      = if decide (uri' = uri) then Some found else lookupCanonical st uri'.
Proof.
  intros Huri Hfind uri'. unfold lookupCanonical, setResource. simpl.
  rewrite Huri. simpl. rewrite (endsWith_find _ _ Hfind). simpl.
  destruct (decide (uri' = uri)) as [->|Hne].
  - by rewrite lookup_insert_eq.
  - rewrite lookup_insert_ne by done.
    destruct (Context.canonical (context st)); [done|]. simpl.
    by rewrite lookup_empty.
Qed.

Lemma onlyAdds_refl (st : State) : onlyAdds st st.
Proof.
  split; [done|]. split; [done|]. split.
  - intros r ref Hr. by exists ref.
  - intros entries Hu. by exists entries.
Qed.

Lemma onlyAdds_trans (st1 st2 st3 : State) :
  onlyAdds st1 st2 -> onlyAdds st2 st3 -> onlyAdds st1 st3.
Proof.
  intros (Hh & Hc & Ho & Hu) (Hh' & Hc' & Ho' & Hu').
  split; [by auto|]. split; [by auto|]. split.
  - intros r ref Hr.
    destruct (Ho r ref Hr) as (ref2 & Hr2 & Huri & Htarget).
    destruct (Ho' r ref2 Hr2) as (ref3 & Hr3 & Huri' & Htarget').
    exists ref3. split; [done|]. split; [congruence|]. by auto.
  - intros entries He.
    destruct (Hu entries He) as (entries2 & He2 & Hsub).
    destruct (Hu' entries2 He2) as (entries3 & He3 & Hsub').
    exists entries3. split; [done|]. by etrans.
Qed.

Lemma wellFormed_deleteUnresolved (st : State) (node : addr) :
  wellFormed st -> wellFormed (deleteUnresolved st node).
Proof.
  intros [(Hbound & Hinj & Hunres) Hcells].
  split; [|done]. split; [done|]. split; [done|].
  intros left Hleft. simpl in Hleft.
  destruct (Context.unresolved (context st)) as [entries|]; [|done].
  injection Hleft as <-. destruct (Hunres entries eq_refl) as [Hnd Hsub].
  split.
  - eapply sublist_NoDup; [exact Hnd|]. apply fmap_sublist, sublist_filter.
  - intros n r Hin. apply mapDelete_elem in Hin as [_ Hin]. by apply Hsub.
Qed.

Lemma wellFormed_setResource (st : State) (found : Resource.t) :
  wellFormed st -> wellFormed (withContext st (setResource (context st) found)).
Proof.
  intros Hwf.
  assert (Hrefs : Context.references (setResource (context st) found)
                  = Context.references (context st))
    by (unfold setResource; by destruct (Resource.uri found)).
  assert (Hunres : Context.unresolved (setResource (context st) found)
                   = Context.unresolved (context st))
    by (unfold setResource; by destruct (Resource.uri found)).
  destruct Hwf as [Hcons Hcells]. split.
  - unfold referencesConsistent in *. simpl. by rewrite Hrefs, Hunres.
  - intros node r. unfold getReference. simpl. rewrite Hrefs. apply Hcells.
Qed.

Lemma wellFormed_setTarget (st : State) (r : rid) (target : value) :
  wellFormed st -> wellFormed (setTarget st r target).
Proof.
  intros [(Hbound & Hinj & Hunres) Hcells].
  split; [|done]. split; [|done].
  intros node r' Hr'. simpl. rewrite length_insert. by eapply Hbound.
Qed.

Section FullDrain.
Context `{Host} `{Resolvers}.
Variable resource : option Resource.t.
Hypothesis resolvers_conservative : conservative.

(** *** Resolution against a registry that grows *)

Lemma getChild_grows (h h' : Heap) (node : value) (key : string) (v : value) :
  (forall a cell, h !! a = Some cell -> h' !! a = Some cell) ->
  getChild h node key = Some v -> getChild h' node key = Some v.
Proof.
  intros Hgrows. unfold getChild.
  destruct node as [| | | |a|name]; try done.
  destruct (h !! a) as [cell|] eqn:Hcell; [|done].
  by rewrite (Hgrows a cell Hcell).
Qed.

Lemma followTokens_grows (h h' : Heap) (pointer : string)
  (tokens : list string) :
  (forall a cell, h !! a = Some cell -> h' !! a = Some cell) ->
  forall (prefix : string) (node v : value),
    followTokens getChild h pointer prefix tokens node = Normal v ->
    followTokens getChild h' pointer prefix tokens node = Normal v.
Proof.
  intros Hgrows.
  induction tokens as [|raw tokens IH]; intros prefix node v; simpl; [done|].
  destruct (unescapePointer raw) as [token|e]; [|done].
  destruct (getChild h node token) as [next|] eqn:Hchild; [|done].
  rewrite (getChild_grows h h' node token next Hgrows Hchild). apply IH.
Qed.

Lemma resolveFragmentPart_grows (st st' : State) (chosen : Resource.t)
  (fragment : option string) (v : value) :
  (forall a cell, heap st !! a = Some cell -> heap st' !! a = Some cell) ->
  resolveFragmentPart st chosen fragment = Normal v ->
  resolveFragmentPart st' chosen fragment = Normal v.
Proof.
  intros Hgrows. unfold resolveFragmentPart.
  destruct fragment as [fragment|]; [|done].
  destruct (negb (String.length fragment =? 0)); [|done].
  unfold resolveResourceFragment.
  destruct (String.length fragment =? 0); [done|].
  destruct (Js.startsWith Js.slash fragment) eqn:Hslash.
  - rewrite !resolvePointer_follow by done. by apply followTokens_grows.
  - by destruct (getResourceAnchor chosen fragment).
Qed.

Lemma designates_transfer (st st' : State) (uri : string) (target : value) :
  (forall a cell, heap st !! a = Some cell -> heap st' !! a = Some cell) ->
  (forall uri found, lookupCanonical st uri = Some found ->
     lookupCanonical st' uri = Some found) ->
  designates st resource uri target -> designates st' resource uri target.
Proof.
  intros Hheap Hcanonical (chosen & Hchosen & Hfragment).
  exists chosen. split.
  - destruct (String.length (beforeHash uri) =? 0); [done|].
    by apply Hcanonical.
  - by eapply resolveFragmentPart_grows.
Qed.

Lemma designates_grows (st st' : State) (uri : string) (target : value) :
  onlyAdds st st' ->
  designates st resource uri target -> designates st' resource uri target.
Proof. intros (Hheap & Hcanonical & _). by apply designates_transfer. Qed.

Lemma designates_setTarget (st : State) (r : rid) (t : value) (uri : string)
  (target : value) :
  designates st resource uri target ->
  designates (setTarget st r t) resource uri target.
Proof. by apply designates_transfer. Qed.

Lemma designates_deleteUnresolved (st : State) (node : addr) (uri : string)
  (target : value) :
  designates st resource uri target ->
  designates (deleteUnresolved st node) resource uri target.
Proof. by apply designates_transfer. Qed.

(** A URI that designates a node resolves to it, and the resolver is
    not asked. *)
Lemma designates_resolve (st : State) (uri : string) (target : value) :
  designates st resource uri target ->
  resolveResourceUri st resource uri = (Normal target, st).
Proof.
  intros (chosen & Hchosen & Hfragment). unfold resolveResourceUri.
  destruct (split_hash uri) as [-> ->]. simpl.
  destruct (String.length (beforeHash uri) =? 0); simpl.
  - subst resource. by rewrite Hfragment.
  - unfold resolveResource. unfold lookupCanonical in Hchosen.
    rewrite Hchosen. by rewrite Hfragment.
Qed.

(** What resolving a URI does to a well-formed context: it leaves a
    well-formed context with more in it, in which the URI designates the
    node returned. *)
Lemma resolveResourceUri_adds (st : State) (uri : string) :
  wellFormed st ->
  wellFormed (resolveResourceUri st resource uri).2 /\
  onlyAdds st (resolveResourceUri st resource uri).2 /\
  forall target,
    (resolveResourceUri st resource uri).1 = Normal target ->
    designates (resolveResourceUri st resource uri).2 resource uri target.
Proof.
  intros Hwf. unfold resolveResourceUri, designates.
  destruct (split_hash uri) as [-> ->]. simpl.
  destruct (String.length (beforeHash uri) =? 0) eqn:Hempty; simpl.
  { destruct resource as [base|]; simpl.
    - split; [done|]. split; [apply onlyAdds_refl|].
      intros target Ht. by exists base.
    - split; [done|]. split; [apply onlyAdds_refl|]. done. }
  unfold resolveResource.
  destruct (Context.canonical (context st) ≫= (.!! beforeHash uri))
    as [known|] eqn:Hknown; simpl.
  { split; [done|]. split; [apply onlyAdds_refl|].
    intros target Ht. by exists known. }
  destruct (Context.resolveResource (context st)) as [id|]; simpl;
    [|by split; [|split; [apply onlyAdds_refl|]]].
  destruct (resolvers_conservative id (beforeHash uri) st Hwf)
    as (Hwf1 & Hadds & Hfaithful).
  destruct (resolverOf id (beforeHash uri) st) as [[[found|]|e] st1];
    simpl in *; [|by split; [|split]..].
  pose proof (Hfaithful found eq_refl) as Huri.
  pose proof (setResource_lookup st1 found (beforeHash uri) Huri
                (beforeHash_find uri)) as Hlookup.
  split; [by apply wellFormed_setResource|]. split.
  - destruct Hadds as (Hheap & Hcanonical & Hobjs & Hunres).
    split; [done|]. split; [|split; [done|]].
    + intros uri' known Hk. rewrite Hlookup.
      destruct (decide (uri' = beforeHash uri)) as [->|Hne].
      * unfold lookupCanonical in Hk. congruence.
      * by apply Hcanonical.
    + intros entries He. destruct (Hunres entries He) as (entries' & He' & Hs).
      exists entries'. split; [|done].
      unfold setResource. simpl. rewrite Huri. by simpl.
  - intros target Ht. exists found. split; [|done].
    rewrite Hlookup. by rewrite decide_True.
Qed.

(** *** What an attempt does *)

Lemma attempt_wellFormed (st : State) (entry : addr * rid) :
  wellFormed st -> wellFormed (attempt st resource entry).2.
Proof.
  intros Hwf. unfold attempt.
  apply (wellFormed_deleteUnresolved st entry.1) in Hwf.
  destruct (resolveResourceUri_adds (deleteUnresolved st entry.1)
              (Reference.uri (deref (deleteUnresolved st entry.1) entry.2))
              Hwf) as (Hwf1 & _ & _).
  destruct (resolveResourceUri _ _ _) as [[target|e] st1]; simpl in *;
    [by apply wellFormed_setTarget | done].
Qed.

(** An attempt keeps the other entries of the unresolved map. *)
Lemma attempt_pending (st : State) (entry other : addr * rid)
  (entries : list (addr * rid)) :
  wellFormed st ->
  Context.unresolved (context st) = Some entries ->
  other ∈ entries ->
  other.1 <> entry.1 ->
  exists entries',
    Context.unresolved (context (attempt st resource entry).2)
      = Some entries' /\
    other ∈ entries'.
Proof.
  intros Hwf Hu Hin Hne. unfold attempt.
  apply (wellFormed_deleteUnresolved st entry.1) in Hwf.
  destruct (resolveResourceUri_adds (deleteUnresolved st entry.1)
              (Reference.uri (deref (deleteUnresolved st entry.1) entry.2))
              Hwf) as (_ & (_ & _ & _ & Hunres) & _).
  destruct (Hunres (mapDelete entry.1 entries)) as (entries' & He' & Hsub).
  { simpl. by rewrite Hu. }
  exists entries'.
  destruct (resolveResourceUri _ _ _) as [[target|e] st1]; simpl in *;
    (split; [done|]; apply Hsub; by apply mapDelete_elem).
Qed.

(** An attempt keeps the references that are settled, and a successful
    attempt settles the reference of its entry. *)
Lemma attempt_settled (st : State) (entry : addr * rid) (r : rid) :
  wellFormed st ->
  settledReference st resource r \/
    (r = entry.2 /\ r < length (referenceObjs st) /\
     (attempt st resource entry).1 = None) ->
  settledReference (attempt st resource entry).2 resource r.
Proof.
  intros Hwf Hcase. unfold attempt in *.
  apply (wellFormed_deleteUnresolved st entry.1) in Hwf.
  destruct (resolveResourceUri_adds (deleteUnresolved st entry.1)
              (Reference.uri (deref (deleteUnresolved st entry.1) entry.2))
              Hwf) as (_ & Hadds & Hdesignates).
  change (deref (deleteUnresolved st entry.1) entry.2)
    with (deref st entry.2) in *.
  destruct (resolveResourceUri (deleteUnresolved st entry.1) resource
              (Reference.uri (deref st entry.2)))
    as [[target|e] st1]; simpl in *.
  - (* the target is stored *)
    pose proof Hadds as (_ & _ & Hobjs & _).
    destruct (decide (r = entry.2)) as [->|Hne].
    + assert (Hlt : entry.2 < length (referenceObjs st)).
      { destruct Hcase as [(ref & t & Hr & _)|(_ & Hlt & _)]; [|done].
        by eapply lookup_lt_Some. }
      destruct (lookup_lt_is_Some_2 (referenceObjs st) entry.2 Hlt)
        as [ref Href].
      destruct (Hobjs entry.2 ref Href) as (ref1 & Href1 & Huri & _).
      exists (Reference.mk (Reference.key (deref st1 entry.2))
                (Reference.uri (deref st1 entry.2)) (Some target)), target.
      split; [|split; [done|]].
      * unfold setTarget. simpl.
        apply list_lookup_insert_eq. by eapply lookup_lt_Some.
      * simpl. unfold deref. rewrite Href1. simpl. rewrite Huri.
        specialize (Hdesignates target eq_refl).
        unfold deref in Hdesignates. rewrite Href in Hdesignates.
        by apply designates_setTarget.
    + destruct Hcase as [(ref & t & Hr & Ht & Hd)|(Heq & _)]; [|done].
      destruct (Hobjs r ref Hr) as (ref1 & Href1 & Huri & Htarget).
      exists ref1, t. split; [|split; [by apply Htarget|]].
      * unfold setTarget. simpl. by rewrite list_lookup_insert_ne.
      * rewrite Huri. apply designates_setTarget.
        apply (designates_grows (deleteUnresolved st entry.1) st1); [done|].
        by apply designates_deleteUnresolved.
  - (* the attempt failed *)
    destruct Hcase as [(ref & t & Hr & Ht & Hd)|(_ & _ & Hnone)]; [|done].
    pose proof Hadds as (_ & _ & Hobjs & _).
    destruct (Hobjs r ref Hr) as (ref1 & Href1 & Huri & Htarget).
    exists ref1, t. split; [done|]. split; [by apply Htarget|].
    rewrite Huri.
    apply (designates_grows (deleteUnresolved st entry.1) st1); [done|].
    by apply designates_deleteUnresolved.
Qed.

(** *** What a batch does *)

Lemma batch_wellFormed (fuel : nat) (st : State) (run : BatchRun) :
  wellFormed st -> batch fuel st resource = Some run -> wellFormed (final run).
Proof.
  intros Hwf Hrun. revert Hwf.
  apply (batch_steps resource (fun st st' => wellFormed st -> wellFormed st'))
    with (fuel := fuel); [by intros ? | | | done].
  - intros st1 st2 st3 H12 H23 Hwf. by apply H23, H12.
  - intros st1 entry Hwf. by apply attempt_wellFormed.
Qed.

Lemma batch_settled (fuel : nat) (r : rid) :
  forall (st : State) (run : BatchRun),
    wellFormed st ->
    settledReference st resource r ->
    batch fuel st resource = Some run ->
    settledReference (final run) resource r.
Proof.
  induction fuel as [|fuel IH]; intros st run Hwf Hsettled; simpl;
    destruct (default [] (Context.unresolved (context st)))
      as [|entry rest]; try done.
  - by intros [= <-].
  - by intros [= <-].
  - pose proof (attempt_wellFormed st entry Hwf) as Hwf1.
    pose proof (attempt_settled st entry r Hwf (or_introl Hsettled)) as Hs1.
    destruct (attempt st resource entry) as [[error|] st1]; simpl in *.
    + destruct (isResolutionError error); [|by intros [= <-]].
      destruct (batch fuel st1 resource) as [run'|] eqn:Hb; [|done].
      intros [= <-]. simpl. by eapply IH.
    + destruct (batch fuel st1 resource) as [run'|] eqn:Hb; [|done].
      intros [= <-]. simpl. by eapply IH.
Qed.

(** A batch that captured no failure and was not aborted has settled
    the reference of every entry the unresolved map had, and has left
    the map empty. *)
Lemma batch_drains (fuel : nat) :
  forall (st : State) (run : BatchRun) (entries : list (addr * rid)),
    wellFormed st ->
    Context.unresolved (context st) = Some entries ->
    batch fuel st resource = Some run ->
    aborted run = None ->
    captured run = [] ->
    Context.unresolved (context (final run)) = Some [] /\
    forall node r, (node, r) ∈ entries ->
      settledReference (final run) resource r.
Proof.
  induction fuel as [|fuel IH]; intros st run entries Hwf Hu; simpl;
    rewrite Hu; simpl; destruct entries as [|entry rest]; try done.
  - intros [= <-] _ _. simpl. split; [done|]. intros node r Hin.
    by apply elem_of_nil in Hin.
  - intros [= <-] _ _. simpl. split; [done|]. intros node r Hin.
    by apply elem_of_nil in Hin.
  - pose proof (attempt_wellFormed st entry Hwf) as Hwf1.
    pose proof Hwf as [(Hbound & _ & Hunres) _].
    destruct (Hunres (entry :: rest) Hu) as [Hnd Hsub].
    assert (Hlt : entry.2 < length (referenceObjs st)).
    { eapply (Hbound entry.1). apply Hsub. destruct entry. by left. }
    pose proof (attempt_settled st entry entry.2 Hwf) as Hfirst.
    pose proof (fun other => attempt_pending st entry other (entry :: rest)
                               Hwf Hu) as Hothers.
    destruct (attempt st resource entry) as [[error|] st1] eqn:Hattempt;
      simpl in *.
    { destruct (isResolutionError error); [|by intros [= <-]].
      destruct (batch fuel st1 resource) as [run'|]; [|done].
      by intros [= <-]. }
    destruct (batch fuel st1 resource) as [run'|] eqn:Hb; [|done].
    intros [= <-] Ha Hc. simpl in *.
    assert (Hsome : exists entries1,
              Context.unresolved (context st1) = Some entries1 /\
              forall other, other ∈ rest -> other ∈ entries1).
    { destruct rest as [|other0 rest'].
      - pose proof (attempt_wellFormed st entry Hwf) as _.
        unfold attempt in Hattempt.
        pose proof (wellFormed_deleteUnresolved st entry.1 Hwf) as Hwf0.
        destruct (resolveResourceUri_adds (deleteUnresolved st entry.1)
                    (Reference.uri
                       (deref (deleteUnresolved st entry.1) entry.2)) Hwf0)
          as (_ & (_ & _ & _ & Hkeep) & _).
        destruct (Hkeep (mapDelete entry.1 [entry])) as (entries1 & He1 & _).
        { simpl. by rewrite Hu. }
        exists entries1. split.
        + destruct (resolveResourceUri _ _ _) as [[target|e] st2];
            simpl in *; [|done]. by injection Hattempt as <-.
        + intros other Hin. by apply elem_of_nil in Hin.
      - destruct (Hothers other0) as (entries1 & He1 & _).
        { right. by left. }
        { simpl in Hnd. apply NoDup_cons in Hnd as [Hfresh _].
          intros Heq. apply Hfresh. rewrite <- Heq. by left. }
        exists entries1. split; [done|]. intros other Hin.
        destruct (Hothers other) as (entries1' & He1' & Hin1).
        { by right. }
        { simpl in Hnd. apply NoDup_cons in Hnd as [Hfresh _].
          intros Heq. apply Hfresh. rewrite <- Heq.
          by apply (list_elem_of_fmap_2 fst) in Hin. }
        congruence. }
    destruct Hsome as (entries1 & Hu1 & Hkept).
    destruct (IH st1 run' entries1 Hwf1 Hu1 Hb Ha Hc) as [Hempty Hrest].
    split; [done|]. intros node r Hin.
    apply elem_of_cons in Hin as [<-|Hin].
    + simpl in *. apply (batch_settled fuel r st1 run' Hwf1); [|done].
      apply Hfirst. right. by split; [|split].
    + apply (Hrest node). by apply Hkept.
Qed.

(** C1 (amended).  With resolvers that only add to the context and that
    return a resource only under its canonical URI, the full drain holds
    as the claim states it, in every well-formed context, and also for
    the references the resolvers register while the batch runs: after a
    batch resolution that returns, the unresolved map is empty, and
    every reference that was in it has a target, which is the node that
    resolving its URI again returns, the context staying as it is.  (The
    statement does not need the unresolved map to be non-empty.) *)
Theorem resolveReferences_full_drain (fuel : nat) (st st' : State)
  (entries : list (addr * rid)) :
  wellFormed st ->
  Context.unresolved (context st) = Some entries ->
  resolveReferences fuel st resource = Some (Normal tt, st') ->
  Context.unresolved (context st') = Some [] /\
  forall node r,
    (node, r) ∈ entries ->
    exists target,
      Reference.target (deref st' r) = Some target /\
      resolveResourceUri st' resource (Reference.uri (deref st' r))
        = (Normal target, st').
Proof.
  intros Hwf Hu Hres. rewrite resolveReferences_batch, Hu in Hres.
  destruct (batch fuel st resource) as [run|] eqn:Hrun; [|done].
  injection Hres as Hsettle <-.
  assert (Ha : aborted run = None).
  { unfold settle in Hsettle. by destruct (aborted run). }
  assert (Hc : captured run = []).
  { unfold settle in Hsettle. rewrite Ha in Hsettle.
    by destruct (captured run) as [|e [|e' es]]. }
  destruct (batch_drains fuel st run entries Hwf Hu Hrun Ha Hc)
    as [Hempty Hsettled].
  split; [done|]. intros node r Hin.
  destruct (Hsettled node r Hin) as (ref & target & Hr & Ht & Hd).
  exists target. unfold deref. rewrite Hr. simpl.
  split; [done|]. by apply designates_resolve.
Qed.

End FullDrain.
(** ** The frame stack *)

Lemma Frame_eqb_eq (f g : Frame.t) : Frame.eqb f g = true <-> f = g.
Proof.
  revert g. induction f as [id|id parent IH] using Frame_induction;
    intros [id' [parent'|]]; simpl;
    rewrite andb_true_iff, Nat.eqb_eq.
  - split; [by intros [_ ?] | done].
  - split; [by intros [-> _] | by intros [= ->]].
  - rewrite IH. split; [by intros [-> ->] | by intros [= -> ->]].
  - split; [by intros [_ ?] | done].
Qed.

Global Instance Frame_eq_dec : EqDecision Frame.t.
Proof.
  intros f g. destruct (Frame.eqb f g) eqn:E.
  - left. by apply Frame_eqb_eq.
  - right. intros Heq. apply Frame_eqb_eq in Heq. congruence.
Defined.

Lemma Frame_same_decide (top : option Frame.t) (frame : Frame.t) :
  Frame.same top frame = bool_decide (top = Some frame).
Proof.
  destruct top as [f|]; simpl; [|done].
  destruct (Frame.eqb f frame) eqn:E.
  - apply Frame_eqb_eq in E as ->. by rewrite bool_decide_eq_true_2.
  - rewrite bool_decide_eq_false_2; [done|].
    intros [= ->]. by rewrite (proj2 (Frame_eqb_eq frame frame)) in E.
Qed.

Lemma unnestFrame_spec {A : Type} (frame : Frame.t) (st : State) (result : A) :
  unnestFrame frame st result
    = if decide (Context.stack (context st) = Some frame)
      then (Normal result, restored st (Frame.parent frame))
      else (Throw corrupted, st).
Proof.
  unfold unnestFrame. rewrite Frame_same_decide.
  destruct (decide (Context.stack (context st) = Some frame)) as [Hs|Hs].
  - rewrite bool_decide_eq_true_2 by done. simpl.
    unfold popFrame, restored. simpl. by rewrite Hs.
  - by rewrite bool_decide_eq_false_2.
Qed.

Lemma unwindFrame_spec {A : Type} (frame : Frame.t) (st : State) (error : exn) :
  @unwindFrame A frame st error
    = (Throw error,
       if decide (Context.stack (context st) = Some frame)
       then restored st (Frame.parent frame) else st).
Proof.
  unfold unwindFrame. rewrite Frame_same_decide.
  destruct (decide (Context.stack (context st) = Some frame)) as [Hs|Hs].
  - rewrite bool_decide_eq_true_2 by done.
    unfold popFrame, restored. simpl. by rewrite Hs.
  - by rewrite bool_decide_eq_false_2.
Qed.

Lemma nestFrame_unfold {A : Type}
  (fn : Frame.t -> State -> completion (returned A) * State) (st : State) :
  nestFrame fn st
    = match fn (pushFrame st).1 (pushFrame st).2 with
      | (Throw error, st2) => unwindFrame (pushFrame st).1 st2 error
      | (Normal (Plain result), st2) =>
          match unnestFrame (pushFrame st).1 st2 result with
          | (Normal r, st3) => (Normal (Plain r), st3)
          | (Throw e, st3) => (Throw e, st3)
          end
      | (Normal (Pending promise), st2) =>
          (Normal (Pending (andThen promise (unnestFrame (pushFrame st).1)
                              (unwindFrame (pushFrame st).1))), st2)
      end.
Proof. reflexivity. Qed.

(** X27.  The contract of [nestFrame], in the revision of [context.ts]
    that supports promises.  The pushed frame has the previous top of the stack
    as its parent.  If the unit of work returns or throws with the frame
    still on top, the frame is popped, which restores the previous top,
    and the result or the failure is passed on; a result with another
    frame on top becomes the corruption error.  If the unit of work
    returns a promise, the frame is left in place and the same is done
    when the promise settles. *)
Theorem nestFrame_contract {A : Type}
  (fn : Frame.t -> State -> completion (returned A) * State) (st : State) :
  let previous := Context.stack (context st) in
  let frame := (pushFrame st).1 in
  let intact (st' : State) := decide (Context.stack (context st') = Some frame) in
  Context.stack (context (pushFrame st).2) = Some frame /\
  Frame.parent frame = previous /\
  match fn frame (pushFrame st).2 with
  | (Throw error, st2) =>
      nestFrame fn st
        = (Throw error, if intact st2 then restored st2 previous else st2)
  | (Normal (Plain result), st2) =>
      nestFrame fn st
        = if intact st2 then (Normal (Plain result), restored st2 previous)
          else (Throw corrupted, st2)
  | (Normal (Pending promise), st2) =>
      exists settled,
        nestFrame fn st = (Normal (Pending settled), st2) /\
        forall st3,
          settled st3
            = match promise st3 with
              | (Normal result, st4) =>
                  if intact st4 then (Normal result, restored st4 previous)
                  else (Throw corrupted, st4)
              | (Throw error, st4) =>
                  (Throw error,
                   if intact st4 then restored st4 previous else st4)
              end
  end.
Proof.
  intros previous frame intact. split; [done|]. split; [done|].
  rewrite nestFrame_unfold. fold frame.
  destruct (fn frame (pushFrame st).2) as [[[result|promise]|error] st2].
  - rewrite unnestFrame_spec. fold (intact st2).
    by destruct (intact st2).
  - eexists. split; [reflexivity|]. intros st3. unfold andThen.
    destruct (promise st3) as [[result|error] st4].
    + apply unnestFrame_spec.
    + apply unwindFrame_spec.
  - apply unwindFrame_spec.
Qed.

(** X28.  On a unit of work that does not return a promise, the earlier
    revision of [nestFrame] does what the later one does. *)
Lemma nestFrameSync_plain {A : Type}
  (fn : Frame.t -> State -> completion (returned A) * State) (st : State) :
  match (fn (pushFrame st).1 (pushFrame st).2).1 with
  | Normal (Pending _) => True
  | _ => nestFrameSync fn st = nestFrame fn st
  end.
Proof.
  rewrite nestFrame_unfold.
  change (nestFrameSync fn st)
    with (let finally_ (st' : State) :=
            if Frame.same (Context.stack (context st')) (pushFrame st).1
            then (popFrame st').2 else st' in
          match fn (pushFrame st).1 (pushFrame st).2 with
          | (Throw error, st2) => (Throw error, finally_ st2)
          | (Normal result, st2) =>
              if negb (Frame.same (Context.stack (context st2))
                         (pushFrame st).1)
              then (Throw corrupted, finally_ st2)
              else (Normal result, finally_ st2)
          end).
  destruct (fn (pushFrame st).1 (pushFrame st).2)
    as [[[result|promise]|error] st2]; simpl; [|done|].
  - unfold unnestFrame. simpl.
    by destruct (Frame.same (Context.stack (context st2)) _).
  - unfold unwindFrame. simpl.
    by destruct (Frame.same (Context.stack (context st2)) _).
Qed.

(** C6, the earlier revision of [nestFrame] (the [try]/[finally] one) on
    asynchronous work.  It returns the promise as it is, with the frame
    already popped although the promise has not settled; when the promise
    later settles on a stack it has emptied, it is fulfilled.  The later
    revision leaves the frame in place and rejects with the corruption
    error. *)
Lemma nestFrameSync_pops_before_settling :
  match nestFrameSync corruptLater outerState with
  | (Normal (Pending promise), st1) =>
      Context.stack (context st1) = Context.stack (context outerState) /\
      (promise st1).1 = Normal (VStr "corrupted-result")
  | _ => False
  end /\
  match nestFrame corruptLater outerState with
  | (Normal (Pending promise), st1) =>
      Context.stack (context st1)
        = Some (Frame.mk 1 (Context.stack (context outerState))) /\
      (promise st1).1 = Throw corrupted
  | _ => False
  end.
Proof.
  split; vm_compute; split; reflexivity.
Qed.

(** ** Tree shaking on concrete graphs *)

(** C2, evaluation at two references whose URIs end in the same segment
    and whose targets are different nodes.  Both targets are resolved;
    the mark phase gives both the name [item] (no suffix is appended: the
    collision test looks in [defs], which is still unset), and the rewrite
    phase emits one definition, the first target's, and points both
    references at it. *)
Lemma collectReferences_same_name :
  Reference.target (deref itemsState 0) = Some (VObj 0) /\
  Reference.target (deref itemsState 1) = Some (VObj 3) /\
  Shake.refs <$> markRoots 5 itemsOptions itemsState
    = Some [(VObj 0, "item"); (VObj 3, "item")] /\
  match treeShakeReferences 5 itemsOptions itemsState with
  | Some (out, st) =>
      Shake.outDefs out = Some [("item", Some (VObj 9))] /\
      heap st !! 9 = Some (Obj [("type", VStr "string")]) /\
      Shake.outRoots out = [VObj 12] /\
      heap st !! 12 = Some (Obj [("first", VObj 10); ("second", VObj 11)]) /\
      heap st !! 10 = Some (Obj [("$ref", VStr "#/$defs/item")]) /\
      heap st !! 11 = Some (Obj [("$ref", VStr "#/$defs/item")])
  | None => False
  end.
Proof.
  vm_compute. repeat split; reflexivity.
Qed.

(** ** Tree shaking leaves its input alone *)

Lemma forEach_invariant {A S : Type} (body : A -> S -> option S)
  (I : S -> Prop) (l : list A) :
  (forall x s s', x ∈ l -> I s -> body x s = Some s' -> I s') ->
  forall s s', I s -> forEach body l s = Some s' -> I s'.
Proof.
  induction l as [|x l IH]; intros Hbody s s' Hs Hrun; simpl in Hrun.
  - by injection Hrun as <-.
  - destruct (body x s) as [s1|] eqn:Hx; [|done].
    apply (IH (fun y t t' Hy => Hbody y t t' (list_elem_of_further _ _ _ Hy))
             s1 s'); [|done].
    apply (Hbody x s s1); [by left|done..].
Qed.

Lemma extendsHeap_refl (n0 : nat) (h : Heap) : extendsHeap n0 h h.
Proof. by split. Qed.

Lemma extendsHeap_trans (n0 : nat) (h1 h2 h3 : Heap) :
  extendsHeap n0 h1 h2 -> extendsHeap n0 h2 h3 -> extendsHeap n0 h1 h3.
Proof.
  intros [Hl1 Hc1] [Hl2 Hc2]. split; [lia|].
  intros a Ha. by rewrite Hc2, Hc1.
Qed.

Lemma extendsHeap_alloc (n0 : nat) (st : State) (c : Cell) :
  n0 <= length (heap st) ->
  extendsHeap n0 (heap st) (heap (alloc st c).2) /\
  freshObject n0 (VObj (alloc st c).1).
Proof.
  intros Hn. split; [split|].
  - simpl. rewrite length_app. lia.
  - intros a Ha. simpl. apply lookup_app_l. lia.
  - by exists (length (heap st)).
Qed.

Lemma assocSet_elem {A : Type} (k : string) (v : A) (l : list (string * A))
  (e : string * A) :
  e ∈ assocSet k v l -> e ∈ l \/ e.2 = v.
Proof.
  induction l as [|[k' v'] l IH]; simpl.
  - intros ->%list_elem_of_singleton. by right.
  - destruct (String.eqb k' k).
    + intros [->|He]%elem_of_cons; [by right|]. left. by right.
    + intros [->|He]%elem_of_cons; [left; by left|].
      destruct (IH He) as [?|?]; [left; by right | by right].
Qed.

Lemma objSet_elem {A : Type} (k : string) (v : A) (l : list (string * A))
  (e : string * A) :
  e ∈ objSet k v l -> e ∈ l \/ e.2 = v.
Proof.
  unfold objSet. destruct (String.eqb k "__proto__"); [by left|].
  apply assocSet_elem.
Qed.

Lemma freshObject_fresh (n0 : nat) (v : value) :
  freshObject n0 v -> freshOrPrimitive n0 v.
Proof. by intros (a & -> & Ha). Qed.

Section Frame.
Context `{Host}.
Variable n0 : nat.
Variable o : Shake.options.
Hypothesis transform_ok : transformFrame n0 o.

Lemma rewriteChild_within
  (self : value -> State -> Shake.vars -> rewriting) :
  rewritesWithin n0 o self ->
  forall item st sh v st' sh',
    n0 <= length (heap st) ->
    defsFresh n0 sh ->
    rewriteChild self item (st, sh) = Some (v, (st', sh')) ->
    extendsHeap n0 (heap st) (heap st') /\ defsFresh n0 sh'.
Proof.
  intros Hself item st sh v st' sh' Hn Hd. unfold rewriteChild.
  destruct (isObject item).
  - simpl. intros Hrun.
    by destruct (Hself item st sh v st' sh' Hn Hd Hrun) as (? & ? & _).
  - intros [= _ <- <-]. split; [apply extendsHeap_refl | done].
Qed.

Lemma children_within {A B : Type}
  (self : value -> State -> Shake.vars -> rewriting)
  (step : A -> B -> value -> B) (item : A -> value) (l : list A) :
  rewritesWithin n0 o self ->
  forall st sh acc acc' st' sh',
    n0 <= length (heap st) ->
    defsFresh n0 sh ->
    forEach
      (fun x (s : B * (State * Shake.vars)) =>
         match rewriteChild self (item x) s.2 with
         | Some (v, s') => Some (step x s.1 v, s')
         | None => None
         end) l (acc, (st, sh)) = Some (acc', (st', sh')) ->
    extendsHeap n0 (heap st) (heap st') /\ defsFresh n0 sh'.
Proof.
  intros Hself st sh acc acc' st' sh' Hn Hd Hrun.
  apply (forEach_invariant _
           (fun s : B * (State * Shake.vars) =>
              extendsHeap n0 (heap st) (heap s.2.1) /\ defsFresh n0 s.2.2)
           l) with (s' := (acc', (st', sh'))) in Hrun; [done| |].
  - intros x [b [st1 sh1]] [b' [st2 sh2]] _ [Hext Hd1]. simpl in *.
    destruct (rewriteChild self (item x) (st1, sh1)) as [[v [st3 sh3]]|]
      eqn:Hchild; [|done].
    intros [= _ <- <-].
    destruct (rewriteChild_within self Hself (item x) st1 sh1 v st3 sh3)
      as [Hext' Hd']; [destruct Hext; lia | done | done |].
    split; [by eapply extendsHeap_trans | done].
  - simpl. split; [apply extendsHeap_refl | done].
Qed.

Lemma rewriteArray_within
  (self : value -> State -> Shake.vars -> rewriting) :
  rewritesWithin n0 o self ->
  forall items st sh v st' sh',
    n0 <= length (heap st) ->
    defsFresh n0 sh ->
    rewriteArray self items st sh = Some (v, (st', sh')) ->
    extendsHeap n0 (heap st) (heap st') /\ defsFresh n0 sh' /\
    freshObject n0 v.
Proof.
  intros Hself items st sh v st' sh' Hn Hd. unfold rewriteArray.
  destruct (forEach _ items ([], (st, sh))) as [[result [st1 sh1]]|] eqn:Hrun;
    [|done].
  intros [= <- <- <-].
  destruct (children_within self (fun _ acc v => acc ++ [v]) (fun x => x)
              items Hself st sh [] result st1 sh1 Hn Hd Hrun) as [Hext Hd1].
  destruct (extendsHeap_alloc n0 st1 (Arr result)) as [Ha Hf];
    [destruct Hext; lia|].
  split; [by eapply extendsHeap_trans|]. done.
Qed.

Lemma rewriteObject_within
  (self : value -> State -> Shake.vars -> rewriting) :
  rewritesWithin n0 o self ->
  forall props st sh v st' sh',
    n0 <= length (heap st) ->
    defsFresh n0 sh ->
    rewriteObject self props st sh = Some (v, (st', sh')) ->
    extendsHeap n0 (heap st) (heap st') /\ defsFresh n0 sh' /\
    freshObject n0 v.
Proof.
  intros Hself props st sh v st' sh' Hn Hd. unfold rewriteObject.
  destruct (forEach _ props ([], (st, sh))) as [[result [st1 sh1]]|] eqn:Hrun;
    [|done].
  intros [= <- <- <-].
  destruct (children_within self
              (fun (kv : string * value) acc v => objSet kv.1 v acc)
              (fun kv => kv.2)
              props Hself st sh [] result st1 sh1 Hn Hd Hrun) as [Hext Hd1].
  destruct (extendsHeap_alloc n0 st1 (Obj result)) as [Ha Hf];
    [destruct Hext; lia|].
  split; [by eapply extendsHeap_trans|]. done.
Qed.

Lemma relocate_within
  (self : value -> State -> Shake.vars -> rewriting) :
  rewritesWithin n0 o self ->
  forall r target refName st sh v st' sh',
    n0 <= length (heap st) ->
    defsFresh n0 sh ->
    relocate self o r target refName st sh = Some (v, (st', sh')) ->
    extendsHeap n0 (heap st) (heap st') /\ defsFresh n0 sh' /\
    freshObject n0 v.
Proof.
  intros Hself r target refName st sh v st' sh' Hn Hd. unfold relocate.
  set (defs := default [] (Shake.defs sh)).
  assert (Hstep : forall st1 sh1,
            (if negb (inDefs refName defs)
             then
               match self target st
                       (Shake.withDefs sh (Some (objSet refName None defs)))
               with
               | Some (def, (st2, sh2)) =>
                   Some (st2,
                         Shake.withDefs sh2
                           (Some (objSet refName (Some def)
                                    (default [] (Shake.defs sh2)))))
               | None => None
               end
             else Some (st, Shake.withDefs sh (Some defs))) = Some (st1, sh1) ->
            extendsHeap n0 (heap st) (heap st1) /\ defsFresh n0 sh1).
  { intros st1 sh1. destruct (negb (inDefs refName defs)).
    - destruct (self target st _) as [[def [st2 sh2]]|] eqn:Hrun; [|done].
      intros [= <- <-].
      assert (Hd0 : defsFresh n0
                      (Shake.withDefs sh (Some (objSet refName None defs)))).
      { intros k w Hin. simpl in Hin.
        apply objSet_elem in Hin as [Hin|Hin]; [by eapply Hd | done]. }
      destruct (Hself target st _ def st2 sh2 Hn Hd0 Hrun)
        as (Hext & Hd2 & Hdef & _).
      split; [done|]. intros k w Hin. simpl in Hin.
      apply objSet_elem in Hin as [Hin|Hin]; [by eapply Hd2|].
      simpl in Hin. by injection Hin as ->.
    - intros [= <- <-]. split; [apply extendsHeap_refl|].
      intros k w Hin. simpl in Hin. by eapply Hd. }
  destruct (if negb (inDefs refName defs) then _ else _)
    as [[st1 sh1]|] eqn:Hrel; [|done].
  destruct (Hstep st1 sh1 eq_refl) as [Hext Hd1].
  intros [= <- <- <-].
  destruct (extendsHeap_alloc n0 st1
              (Obj [(Reference.key (deref st1 r),
                     VStr (Shake.defsUri o +:+ "/" +:+
                           escapePointer refName))])) as [Ha Hf];
    [destruct Hext; lia|].
  split; [by eapply extendsHeap_trans|]. done.
Qed.

Lemma applyTransform_within (node v v' : value) (st st' : State)
  (sh sh' : Shake.vars) :
  n0 <= length (heap st) ->
  freshOrPrimitive n0 v ->
  applyTransform o (v, (st, sh)) = Some (v', (st', sh')) ->
  extendsHeap n0 (heap st) (heap st') /\ sh' = sh /\
  freshOrPrimitive n0 v' /\
  (Shake.transform o = None -> v' = v).
Proof.
  intros Hn Hv. unfold applyTransform. simpl.
  destruct (Shake.transform o) as [f|] eqn:Hf.
  - destruct (transform_ok f Hf (heap st) v Hn) as [Hext Hfresh].
    destruct (f (heap st) v) as [v1 h1]. intros [= <- <- <-].
    simpl in *. split; [done|]. split; [done|]. split; [by apply Hfresh|].
    done.
  - intros [= <- <- <-]. split; [apply extendsHeap_refl | done].
Qed.

Lemma rewriteStructure_within
  (self : value -> State -> Shake.vars -> rewriting) :
  rewritesWithin n0 o self ->
  forall node st sh v st' sh',
    n0 <= length (heap st) ->
    defsFresh n0 sh ->
    rewriteStructure self node st sh = Some (v, (st', sh')) ->
    extendsHeap n0 (heap st) (heap st') /\ defsFresh n0 sh' /\
    if isObject node then freshObject n0 v else v = node.
Proof.
  intros Hself node st sh v st' sh' Hn Hd. unfold rewriteStructure.
  destruct node as [| | | |a|name];
    try (intros [= <- <- <-]; split; [apply extendsHeap_refl | done]).
  - destruct (default (Obj []) (heap st !! a)) as [items|props].
    + by apply rewriteArray_within.
    + by apply rewriteObject_within.
  - simpl. destruct (hostTypeOf name).
    + intros [= <- <- <-]. split; [apply extendsHeap_refl | done].
    + by apply rewriteObject_within.
    + by apply rewriteArray_within.
Qed.

Lemma refNameOf_object (st : State) (sh : Shake.vars) (node : value)
  (x : rid * value * string) :
  refNameOf st sh node = Some x -> exists a, node = VObj a.
Proof.
  unfold refNameOf, getReference. destruct node; try done. eauto.
Qed.

Lemma rewriteBody_within
  (self : value -> State -> Shake.vars -> rewriting) :
  rewritesWithin n0 o self -> rewritesWithin n0 o (rewriteBody self o).
Proof.
  intros Hself node st sh v st' sh' Hn Hd. unfold rewriteBody.
  assert (Hpre : forall v1 st1 sh1,
            match refNameOf st sh node with
            | Some (r, target, refName) =>
                relocate self o r target refName st sh
            | None => rewriteStructure self node st sh
            end = Some (v1, (st1, sh1)) ->
            extendsHeap n0 (heap st) (heap st1) /\ defsFresh n0 sh1 /\
            if isObject node then freshObject n0 v1 else v1 = node).
  { intros v1 st1 sh1.
    destruct (refNameOf st sh node) as [[[r target] refName]|] eqn:Hname.
    - intros Hrun.
      destruct (relocate_within self Hself r target refName st sh v1 st1 sh1
                  Hn Hd Hrun) as (Hext & Hd1 & Hf).
      apply refNameOf_object in Hname as [a ->]. done.
    - by apply rewriteStructure_within. }
  destruct (match refNameOf st sh node with Some _ => _ | None => _ end)
    as [[v1 [st1 sh1]]|] eqn:Hrun; [|by simpl].
  simpl. intros Htr.
  destruct (Hpre v1 st1 sh1 eq_refl) as (Hext & Hd1 & Hshape).
  assert (Hv1 : freshOrPrimitive n0 v1).
  { destruct (isObject node) eqn:Hobj; [by apply freshObject_fresh|].
    subst v1. by destruct node. }
  destruct (applyTransform_within node v1 v st1 st' sh1 sh')
    as (Hext' & -> & Hv & Hnone); [destruct Hext; lia | done | done |].
  split; [by eapply extendsHeap_trans|]. split; [done|]. split; [done|].
  intros Hno. rewrite (Hnone Hno). done.
Qed.

Lemma rewriteNode_within (fuel : nat) : rewritesWithin n0 o (rewriteNode fuel o).
Proof.
  induction fuel as [|fuel IH]; [by intros ? ? ? ? ? ? ? ? ?|].
  simpl. by apply rewriteBody_within.
Qed.

End Frame.

Section Shaking.
Context `{Host}.

Lemma nameTarget_defs (fuel : nat) (st : State) (r : rid) (target : value)
  (sh sh' : Shake.vars) :
  nameTarget fuel st r target sh = Some sh' ->
  Shake.defs sh' = Shake.defs sh.
Proof.
  unfold nameTarget. destruct (refsGet target (Shake.refs sh)).
  - by intros [= <-].
  - destruct (match Shake.defs sh with Some _ => _ | None => _ end);
      simpl; [|done].
    by intros [= <-].
Qed.

Lemma collectBody_defs (fuel : nat)
  (self : value -> Shake.vars -> option Shake.vars) (o : Shake.options)
  (st : State) :
  (forall node sh sh', self node sh = Some sh' ->
                       Shake.defs sh' = Shake.defs sh) ->
  forall node sh sh',
    collectBody fuel self o st node sh = Some sh' ->
    Shake.defs sh' = Shake.defs sh.
Proof.
  intros Hself node sh sh'. unfold collectBody.
  destruct node as [| | | |a|]; try (by intros [= <-]).
  destruct (bool_decide (a ∈ Shake.visited sh)); [by intros [= <-]|].
  set (sh0 := Shake.withVisited sh ({[a]} ∪ Shake.visited sh)).
  assert (Hmarked : forall sh1,
            match getReference st (VObj a) with
            | Some r =>
                match Reference.target (deref st r) with
                | Some target =>
                    if negb (includesRoot (Shake.roots o) target)
                    then nameTarget fuel st r target sh0 ≫= self target
                    else Some sh0
                | None => Some sh0
                end
            | None => Some sh0
            end = Some sh1 -> Shake.defs sh1 = Shake.defs sh).
  { intros sh1. destruct (getReference st (VObj a)) as [r|];
      [|by intros [= <-]].
    destruct (Reference.target (deref st r)) as [target|];
      [|by intros [= <-]].
    destruct (negb (includesRoot (Shake.roots o) target));
      [|by intros [= <-]].
    destruct (nameTarget fuel st r target sh0) as [sh2|] eqn:Hn; [|done].
    simpl. intros Hs. apply Hself in Hs. apply nameTarget_defs in Hn.
    by rewrite Hs, Hn. }
  destruct (match getReference st (VObj a) with Some _ => _ | None => _ end)
    as [sh1|] eqn:Hm; [|done].
  simpl. intros Hrun. rewrite <- (Hmarked sh1 eq_refl).
  apply (forEach_invariant self
           (fun s => Shake.defs s = Shake.defs sh1) (values (heap st) a))
    with (s := sh1); [|done..].
  intros x s s' _ Hs Hx. apply Hself in Hx. by rewrite Hx.
Qed.

Lemma collectReferences_defs (fuel : nat) (o : Shake.options) (st : State) :
  forall node sh sh',
    collectReferences fuel o st node sh = Some sh' ->
    Shake.defs sh' = Shake.defs sh.
Proof.
  induction fuel as [|fuel IH]; [done|].
  simpl. by apply collectBody_defs.
Qed.

Lemma markRoots_defs (fuel : nat) (o : Shake.options) (st : State)
  (sh : Shake.vars) :
  markRoots fuel o st = Some sh -> Shake.defs sh = None.
Proof.
  unfold markRoots.
  apply (forEach_invariant _ (fun s => Shake.defs s = None)); [|done].
  intros x s s' _ Hs Hx. apply collectReferences_defs in Hx. by rewrite Hx.
Qed.

(** C8.  Tree shaking does not change any cell of the heap it is given:
    every input node, reachable or not, is after the call what it was
    before.  Every emitted root and every emitted definition is either an
    object allocated during the call or not an object at all (a primitive,
    which tree shaking passes through as it is); without a transform
    every emitted root is an object allocated during the call.  The
    caller's transform is held to the same discipline. *)
Theorem treeShakeReferences_frame (fuel : nat) (o : Shake.options)
  (st st' : State) (out : Shake.output) :
  transformFrame (length (heap st)) o ->
  treeShakeReferences fuel o st = Some (out, st') ->
  (forall a cell, heap st !! a = Some cell -> heap st' !! a = Some cell) /\
  Forall (freshOrPrimitive (length (heap st))) (Shake.outRoots out) /\
  (Shake.transform o = None ->
   Forall (freshObject (length (heap st))) (Shake.outRoots out)) /\
  (forall k v, (k, Some v) ∈ default [] (Shake.outDefs out) ->
               freshOrPrimitive (length (heap st)) v).
Proof.
  intros Htr. unfold treeShakeReferences.
  destruct (markRoots fuel o st) as [sh|] eqn:Hmark; [|done].
  destruct (rewriteRoots fuel o st sh) as [[roots [st1 sh1]]|] eqn:Hrw; [|done].
  intros [= <- <-]. simpl.
  set (n0 := length (heap st)) in *.
  apply markRoots_defs in Hmark.
  unfold rewriteRoots in Hrw.
  apply (forEach_invariant _
           (fun s : list value * (State * Shake.vars) =>
              extendsHeap n0 (heap st) (heap s.2.1) /\
              defsFresh n0 s.2.2 /\
              Forall (freshOrPrimitive n0) s.1 /\
              (Shake.transform o = None -> Forall (freshObject n0) s.1)))
    in Hrw.
  - destruct Hrw as ([_ Hcells] & Hd & Hroots & Hobjs). simpl in *.
    split; [|done].
    intros a cell Ha. rewrite Hcells; [done|]. by eapply lookup_lt_Some.
  - intros root [acc [st2 sh2]] [acc' [st3 sh3]] _ (Hext & Hd & Hacc & Hobjs).
    simpl in *.
    destruct (rewriteNode fuel o (VObj root) st2 sh2) as [[v [st4 sh4]]|]
      eqn:Hrun; [|done].
    intros [= <- <- <-].
    destruct (rewriteNode_within n0 o Htr fuel (VObj root) st2 sh2 v st4 sh4)
      as (Hext' & Hd' & Hv & Hobj); [destruct Hext; lia | done | done |].
    split; [by eapply extendsHeap_trans|]. split; [done|]. split.
    + apply Forall_app. split; [done|]. by constructor.
    + intros Hnone. apply Forall_app. split; [by apply Hobjs|].
      constructor; [by apply Hobj | done].
  - simpl. split; [apply extendsHeap_refl|]. split; [|done].
    intros k v Hin. rewrite Hmark in Hin. simpl in Hin.
    by apply elem_of_nil in Hin.
Qed.

End Shaking.

(** C8, witness: the cyclic graph, without a transform. *)
Lemma treeShakeReferences_frame_witness :
  transformFrame (length (heap cyclicState)) cyclicOptions /\
  (exists out st',
     treeShakeReferences 9 cyclicOptions cyclicState = Some (out, st') /\
     (forall a cell, heap cyclicState !! a = Some cell ->
                     heap st' !! a = Some cell) /\
     Forall (freshObject (length (heap cyclicState))) (Shake.outRoots out)).
Proof.
  assert (Htr : transformFrame (length (heap cyclicState)) cyclicOptions)
    by (intros f Hf; discriminate Hf).
  split; [exact Htr|].
  destruct (treeShakeReferences 9 cyclicOptions cyclicState)
    as [[out st']|] eqn:Hrun; [|by vm_compute in Hrun].
  exists out, st'. split; [reflexivity|].
  destruct (treeShakeReferences_frame 9 cyclicOptions cyclicState st' out
              Htr Hrun) as (Hcells & _ & Hobjs & _).
  split; [exact Hcells | exact (Hobjs eq_refl)].
Defined.

(** ** More fuel changes nothing *)

Lemma forEach_mono {A S : Type} (f g : A -> S -> option S) (l : list A) :
  (forall x s r, f x s = Some r -> g x s = Some r) ->
  forall s r, forEach f l s = Some r -> forEach g l s = Some r.
Proof.
  intros Hfg. induction l as [|x l IH]; intros s r; simpl; [done|].
  destruct (f x s) as [s1|] eqn:Hx; [|done].
  rewrite (Hfg x s s1 Hx). apply IH.
Qed.

Section Fuel.
Context `{Host}.

Lemma uniqueKey_mono (fuel fuel' : nat) (name : string)
  (defs : list (string * option value)) :
  fuel <= fuel' ->
  forall key counter r,
    uniqueKey fuel name key counter defs = Some r ->
    uniqueKey fuel' name key counter defs = Some r.
Proof.
  revert fuel'. induction fuel as [|fuel IH]; intros fuel' Hle key counter r.
  - simpl. destruct fuel'; simpl; destruct (inDefs key defs); done.
  - destruct fuel' as [|fuel']; [lia|]. simpl.
    destruct (inDefs key defs); [|done]. apply IH. lia.
Qed.

Lemma nameTarget_mono (fuel fuel' : nat) (st : State) (r : rid)
  (target : value) (sh sh' : Shake.vars) :
  fuel <= fuel' ->
  nameTarget fuel st r target sh = Some sh' ->
  nameTarget fuel' st r target sh = Some sh'.
Proof.
  intros Hle. unfold nameTarget.
  destruct (refsGet target (Shake.refs sh)); [done|].
  destruct (Shake.defs sh) as [defs|]; [|done].
  destruct (uniqueKey fuel _ _ 1 defs) as [key|] eqn:Hk; [|done].
  by rewrite (uniqueKey_mono fuel fuel' _ defs Hle _ _ _ Hk).
Qed.

Lemma collectBody_mono (fuel fuel' : nat)
  (self self' : value -> Shake.vars -> option Shake.vars)
  (o : Shake.options) (st : State) :
  fuel <= fuel' ->
  (forall node sh r, self node sh = Some r -> self' node sh = Some r) ->
  forall node sh r,
    collectBody fuel self o st node sh = Some r ->
    collectBody fuel' self' o st node sh = Some r.
Proof.
  intros Hle Hself node sh r. unfold collectBody.
  destruct node as [| | | |a|]; try done.
  destruct (bool_decide (a ∈ Shake.visited sh)); [done|].
  set (sh0 := Shake.withVisited sh ({[a]} ∪ Shake.visited sh)).
  destruct (getReference st (VObj a)) as [rf|]; simpl.
  - destruct (Reference.target (deref st rf)) as [target|]; simpl.
    + destruct (negb (includesRoot (Shake.roots o) target)); simpl.
      * destruct (nameTarget fuel st rf target sh0) as [sh1|] eqn:Hn;
          [|done].
        rewrite (nameTarget_mono fuel fuel' _ _ _ _ _ Hle Hn). simpl.
        destruct (self target sh1) as [sh2|] eqn:Hs; [|done].
        rewrite (Hself _ _ _ Hs). simpl. by apply forEach_mono.
      * by apply forEach_mono.
    + by apply forEach_mono.
  - by apply forEach_mono.
Qed.

Lemma collectReferences_mono (o : Shake.options) (st : State) (fuel : nat) :
  forall fuel' node sh r,
    fuel <= fuel' ->
    collectReferences fuel o st node sh = Some r ->
    collectReferences fuel' o st node sh = Some r.
Proof.
  induction fuel as [|fuel IH]; intros fuel' node sh r Hle; [done|].
  destruct fuel' as [|fuel']; [lia|]. simpl.
  apply collectBody_mono; [lia|].
  intros node' sh' r'. apply IH. lia.
Qed.

Lemma rewriteChild_mono
  (self self' : value -> State -> Shake.vars -> rewriting) :
  (forall node st sh r, self node st sh = Some r -> self' node st sh = Some r) ->
  forall item s r,
    rewriteChild self item s = Some r -> rewriteChild self' item s = Some r.
Proof.
  intros Hself item s r. unfold rewriteChild.
  destruct (isObject item); [apply Hself | done].
Qed.

Lemma rewriteBody_mono
  (self self' : value -> State -> Shake.vars -> rewriting)
  (o : Shake.options) :
  (forall node st sh r, self node st sh = Some r -> self' node st sh = Some r) ->
  forall node st sh r,
    rewriteBody self o node st sh = Some r ->
    rewriteBody self' o node st sh = Some r.
Proof.
  intros Hself node st sh r. unfold rewriteBody.
  assert (Harr : forall items x,
            rewriteArray self items st sh = Some x ->
            rewriteArray self' items st sh = Some x).
  { intros items x. unfold rewriteArray.
    destruct (forEach _ items ([], (st, sh))) as [acc|] eqn:Hrun; [|done].
    erewrite forEach_mono; [done| |exact Hrun].
    intros y s s'. simpl.
    destruct (rewriteChild self y s.2) as [[v s1]|] eqn:Hc; [|done].
    by rewrite (rewriteChild_mono self self' Hself _ _ _ Hc). }
  assert (Hobj : forall props x,
            rewriteObject self props st sh = Some x ->
            rewriteObject self' props st sh = Some x).
  { intros props x. unfold rewriteObject.
    destruct (forEach _ props ([], (st, sh))) as [acc|] eqn:Hrun; [|done].
    erewrite forEach_mono; [done| |exact Hrun].
    intros y s s'. simpl.
    destruct (rewriteChild self y.2 s.2) as [[v s1]|] eqn:Hc; [|done].
    by rewrite (rewriteChild_mono self self' Hself _ _ _ Hc). }
  assert (Hrel : forall rf t name x,
            relocate self o rf t name st sh = Some x ->
            relocate self' o rf t name st sh = Some x).
  { intros rf t name x. unfold relocate.
    destruct (negb (inDefs name (default [] (Shake.defs sh)))); [|done].
    destruct (self t st _) as [[def [st1 sh1]]|] eqn:Hs; [|done].
    by rewrite (Hself _ _ _ _ Hs). }
  assert (Hstr : forall x,
            rewriteStructure self node st sh = Some x ->
            rewriteStructure self' node st sh = Some x).
  { intros x. unfold rewriteStructure. destruct node; try done.
    destruct (default (Obj []) (heap st !! a)); auto. }
  destruct (refNameOf st sh node) as [[[rf t] name]|].
  - destruct (relocate self o rf t name st sh) as [x|] eqn:Hx; [|done].
    by rewrite (Hrel _ _ _ _ Hx).
  - destruct (rewriteStructure self node st sh) as [x|] eqn:Hx; [|done].
    by rewrite (Hstr _ eq_refl).
Qed.

Lemma rewriteNode_mono (o : Shake.options) (fuel : nat) :
  forall fuel' node st sh r,
    fuel <= fuel' ->
    rewriteNode fuel o node st sh = Some r ->
    rewriteNode fuel' o node st sh = Some r.
Proof.
  induction fuel as [|fuel IH]; intros fuel' node st sh r Hle; [done|].
  destruct fuel' as [|fuel']; [lia|]. simpl.
  apply rewriteBody_mono. intros node' st' sh' r'. apply IH. lia.
Qed.

(** A result obtained with some fuel is the result with any larger
    amount. *)
Lemma treeShakeReferences_mono (fuel fuel' : nat) (o : Shake.options)
  (st : State) (r : Shake.output * State) :
  fuel <= fuel' ->
  treeShakeReferences fuel o st = Some r ->
  treeShakeReferences fuel' o st = Some r.
Proof.
  intros Hle. unfold treeShakeReferences.
  destruct (markRoots fuel o st) as [sh|] eqn:Hmark; [|done].
  assert (Hmark' : markRoots fuel' o st = Some sh).
  { revert Hmark. unfold markRoots. apply forEach_mono.
    intros root s s'. by apply collectReferences_mono. }
  rewrite Hmark'.
  destruct (rewriteRoots fuel o st sh) as [acc|] eqn:Hrw; [|done].
  assert (Hrw' : rewriteRoots fuel' o st sh = Some acc).
  { revert Hrw. unfold rewriteRoots. apply forEach_mono.
    intros root s s'. simpl.
    destruct (rewriteNode fuel o (VObj root) s.2.1 s.2.2) as [[v s1]|] eqn:Hn;
      [|done].
    by rewrite (rewriteNode_mono o fuel fuel' _ _ _ _ Hle Hn). }
  by rewrite Hrw'.
Qed.

End Fuel.

(** The person that is its own friend, cell by cell.  With nine units
    of fuel or more, tree shaking returns.  It emits exactly one
    definition, [person]; the [friend] of that definition's properties is
    a node whose only property is the [$ref] to
    [#/components/schemas/person], the address the definition is relocated
    to, and the context registers that node as a reference with this URI;
    the rewritten root holds the same shape. *)
Lemma treeShakeReferences_person (more : nat) :
  exists out st',
    treeShakeReferences (9 + more) cyclicOptions cyclicState
      = Some (out, st') /\
    Shake.outDefs out = Some [("person", Some (VObj 10))] /\
    heap st' !! 10
      = Some (Obj [("type", VStr "object"); ("properties", VObj 9)]) /\
    heap st' !! 9 = Some (Obj [("name", VObj 7); ("friend", VObj 8)]) /\
    heap st' !! 8
      = Some (Obj [("$ref", VStr "#/components/schemas/person")]) /\
    Reference.uri <$> (getReference st' (VObj 8) ≫= (referenceObjs st' !!.))
      = Some ("#/components/schemas/person") /\
    Shake.outRoots out = [VObj 15] /\
    heap st' !! 15 = Some (Obj [("$defs", VObj 14)]) /\
    heap st' !! 14 = Some (Obj [("person", VObj 13)]) /\
    heap st' !! 13
      = Some (Obj [("type", VStr "object"); ("properties", VObj 12)]) /\
    heap st' !! 12 = Some (Obj [("name", VObj 6); ("friend", VObj 11)]) /\
    heap st' !! 11
      = Some (Obj [("$ref", VStr "#/components/schemas/person")]).
Proof.
  destruct (treeShakeReferences 9 cyclicOptions cyclicState)
    as [[out st']|] eqn:Hrun; [|by vm_compute in Hrun].
  exists out, st'.
  split; [apply (treeShakeReferences_mono 9); [lia | exact Hrun]|].
  vm_compute in Hrun. injection Hrun as <- <-.
  repeat split; vm_compute; reflexivity.
Qed.

(** * Further properties *)

(** ** Unescaping a token: the failure *)

Lemma substring_all (b : string) (n : nat) :
  String.length b <= n -> String.substring 0 n b = b.
Proof.
  revert n. induction b as [|c b IH]; intros n Hn.
  - by destruct n.
  - destruct n as [|n]; simpl in *; [lia|]. rewrite IH; [done|lia].
Qed.

Lemma slice_short (a b : string) (n : nat) :
  String.length b <= n ->
  Js.slice (a +:+ b) (String.length a) (String.length a + n) = b.
Proof.
  intros Hn. unfold Js.slice.
  replace (String.length a + n - String.length a) with n by lia.
  rewrite substring_skip. by apply substring_all.
Qed.

Lemma slice_two (a : string) (c d : ascii) (r : string) :
  Js.slice (a +:+ String c (String d r)) (String.length a)
    (String.length a + 2) = String c (Js.str d).
Proof.
  unfold Js.slice.
  replace (String.length a + 2 - String.length a) with 2 by lia.
  rewrite substring_skip. simpl. by destruct r.
Qed.

Lemma stringifyTwo_ascii (c d : ascii) (rest : string) :
  isAscii (String c (Js.str d)) = true ->
  Js.stringifyTwo c (String d rest) = Js.stringify (String c (Js.str d)).
Proof.
  simpl. rewrite andb_true_r.
  intros [_ Hd%Nat.ltb_lt]%andb_true_iff.
  unfold Js.stringifyTwo, Js.charBytes.
  replace (nat_of_ascii d <? 224) with true by (symmetry; apply Nat.ltb_lt; lia).
  replace (nat_of_ascii d <? 192) with true by (symmetry; apply Nat.ltb_lt; lia).
  simpl. by destruct rest.
Qed.

Lemma unescapeLoop_bad (n : nat) :
  forall (rest input pre output : string) (offset start : nat) (bad : string),
    String.length rest <= n ->
    input = pre +:+ rest ->
    offset = String.length pre ->
    badEscape rest = Some bad ->
    exists message,
      unescapeLoop input rest output offset start = Throw (TypeError message) /\
      (isAscii bad = true ->
       message = "Invalid JSON pointer escape sequence: " +:+
                 Js.stringify bad).
Proof.
  induction n as [|n IH];
    intros rest input pre output offset start bad Hn Hin Hoff Hbad.
  { destruct rest; [done | simpl in Hn; lia]. }
  destruct rest as [|c rest]; [done|].
  simpl in Hbad, Hn |- *.
  destruct (Ascii.eqb c Js.tilde) eqn:Ht.
  - replace (offset + 1 - 1) with (String.length pre) by lia.
    replace (offset + 1 + 1) with (String.length pre + 2) by lia.
    destruct rest as [|d rest].
    + injection Hbad as <-.
      assert (Hs : Js.slice input (String.length pre) (String.length pre + 2)
                   = Js.str c) by (subst input; apply slice_short; simpl; lia).
      rewrite Hs. by eexists.
    + simpl in Hn.
      destruct (Ascii.eqb d "0") eqn:H0; [|destruct (Ascii.eqb d "1") eqn:H1].
      * apply (IH rest input (pre +:+ String c (Js.str d))); [lia| | |done].
        -- subst input. by rewrite append_assoc.
        -- rewrite length_append. simpl. lia.
      * apply (IH rest input (pre +:+ String c (Js.str d))); [lia| | |done].
        -- subst input. by rewrite append_assoc.
        -- rewrite length_append. simpl. lia.
      * injection Hbad as <-. eexists. split; [reflexivity|].
        intros Hascii. by rewrite (stringifyTwo_ascii c d rest Hascii).
  - apply (IH rest input (pre +:+ Js.str c)); [lia| | |done].
    + subst input. by rewrite append_assoc.
    + rewrite length_append. simpl. lia.
Qed.

Lemma badEscape_unescapeChars (n : nat) :
  forall s, String.length s <= n ->
    match unescapeChars s with
    | Some _ => badEscape s = None
    | None => exists bad, badEscape s = Some bad
    end.
Proof.
  induction n as [|n IH]; intros s Hn.
  { destruct s; [done | simpl in Hn; lia]. }
  destruct s as [|c s]; [done|]. simpl in Hn |- *.
  destruct (Ascii.eqb c Js.tilde).
  - destruct s as [|d s]; [by eexists|]. simpl in Hn.
    destruct (Ascii.eqb d "0"); [|destruct (Ascii.eqb d "1")].
    + specialize (IH s ltac:(lia)). by destruct (unescapeChars s).
    + specialize (IH s ltac:(lia)). by destruct (unescapeChars s).
    + by eexists.
  - specialize (IH s ltac:(lia)). by destruct (unescapeChars s).
Qed.

Lemma unescapePointer_bad (s bad : string) :
  badEscape s = Some bad ->
  exists message,
    unescapePointer s = Throw (TypeError message) /\
    (isAscii bad = true ->
     message = "Invalid JSON pointer escape sequence: " +:+
               Js.stringify bad).
Proof.
  intros Hbad. unfold unescapePointer.
  destruct (unescapeLoop_bad (String.length s) s s EmptyString EmptyString
              0 0 bad) as (message & -> & Hmessage); try done.
  by exists message.
Qed.

Lemma unescapePointer_inv (s u : string) :
  unescapePointer s = Normal u -> unescapeChars s = Some u.
Proof.
  intros Hu.
  pose proof (badEscape_unescapeChars (String.length s) s (le_n _)) as Hb.
  destruct (unescapeChars s) as [u'|] eqn:Hs.
  - rewrite (unescapePointer_chars s u' Hs) in Hu. congruence.
  - destruct Hb as [bad Hbad].
    destruct (unescapePointer_bad s bad Hbad) as (message & Hm & _).
    rewrite Hm in Hu. done.
Qed.

Lemma unescapePointer_throws (s : string) (e : exn) :
  unescapePointer s = Throw e -> exists m, e = TypeError m.
Proof.
  intros Hu.
  pose proof (badEscape_unescapeChars (String.length s) s (le_n _)) as Hb.
  destruct (unescapeChars s) as [u'|] eqn:Hs.
  - rewrite (unescapePointer_chars s u' Hs) in Hu. done.
  - destruct Hb as [bad Hbad].
    destruct (unescapePointer_bad s bad Hbad) as (message & Hm & _).
    rewrite Hm in Hu. injection Hu as <-. by eexists.
Qed.

(** X1.  [unescapePointer] on every string: it returns the token with
    each [~0] read as [~] and each [~1] as [/] when every [~] is followed
    by [0] or [1]; otherwise it throws a [TypeError], and nothing else.
    When the first offending [~] is followed by an ASCII character, or by
    nothing at the end of the token, the message of the error quotes that
    sequence. *)
Theorem unescapePointer_cases (s : string) :
  match unescapeChars s with
  | Some u => unescapePointer s = Normal u /\ badEscape s = None
  | None =>
      exists bad message,
        badEscape s = Some bad /\
        unescapePointer s = Throw (TypeError message) /\
        (isAscii bad = true ->
         message = "Invalid JSON pointer escape sequence: " +:+
                   Js.stringify bad)
  end.
Proof.
  pose proof (badEscape_unescapeChars (String.length s) s (le_n _)) as Hb.
  destruct (unescapeChars s) as [u|] eqn:Hs.
  - split; [by apply unescapePointer_chars | done].
  - destruct Hb as [bad Hbad].
    destruct (unescapePointer_bad s bad Hbad) as (message & Hm & Hquoted).
    by exists bad, message.
Qed.

(** The sequence quoted is the [~] and one UTF-16 code unit: a whole
    character of the basic plane, and the first half of the surrogate pair
    of a character beyond it. *)
Lemma unescapePointer_code_unit :
  unescapePointer "a~é"
    = Throw (TypeError ("Invalid JSON pointer escape sequence: " +:+
                        Js.stringify "~é")) /\
  unescapePointer "a~😀"
    = Throw (TypeError
               ("Invalid JSON pointer escape sequence: " +:+
                String Js.quote
                  ("~" +:+ String Js.backslash "ud83d" +:+ Js.str Js.quote))).
Proof. split; vm_compute; reflexivity. Qed.

(** ** Formatting and parsing pointers *)

Lemma formatPointer_from (tokens : list string) (pointer : string) :
  foldl (fun pointer token => pointer +:+ "/" +:+ escapePointer token)
    pointer tokens
  = pointer +:+ formatPointer tokens.
Proof.
  unfold formatPointer. revert pointer.
  induction tokens as [|t tokens IH]; intros pointer; cbn [foldl].
  - by rewrite append_nil_r.
  - rewrite IH. rewrite (IH (EmptyString +:+ _)).
    by rewrite !append_assoc.
Qed.

Lemma formatPointer_cons (t : string) (tokens : list string) :
  formatPointer (t :: tokens)
    = String Js.slash (escapePointer t +:+ formatPointer tokens).
Proof.
  unfold formatPointer at 1. simpl. by rewrite formatPointer_from.
Qed.

Lemma formatPointer_snoc (tokens : list string) (t : string) :
  formatPointer (tokens ++ [t])
    = formatPointer tokens +:+ "/" +:+ escapePointer t.
Proof.
  unfold formatPointer. by rewrite foldl_snoc.
Qed.

Lemma escapeChars_find_slash (s : string) :
  Js.find Js.slash (escapeChars s) = None.
Proof.
  induction s as [|c s IH]; [done|]. simpl.
  destruct (Ascii.eqb c Js.tilde) eqn:Ht;
    [| destruct (Ascii.eqb c Js.slash) eqn:Hs]; simpl; rewrite ?IH; try done.
  by rewrite Hs.
Qed.

Lemma pieces_whole (c : ascii) (p : string) :
  Js.find c p = None -> Js.pieces c p = [p].
Proof.
  induction p as [|d p IH]; [done|]. simpl.
  destruct (Ascii.eqb d c); [done|].
  destruct (Js.find c p); [done|]. intros _. by rewrite IH.
Qed.

Lemma pieces_first (c : ascii) (p s : string) :
  Js.find c p = None ->
  Js.pieces c (p +:+ String c s) = p :: Js.pieces c s.
Proof.
  induction p as [|d p IH]; simpl.
  - by rewrite Ascii.eqb_refl.
  - destruct (Ascii.eqb d c); [done|].
    destruct (Js.find c p); [done|]. intros _. by rewrite IH.
Qed.

Lemma pieces_format (t : string) (tokens : list string) :
  Js.pieces Js.slash (escapePointer t +:+ formatPointer tokens)
    = escapePointer t :: map escapePointer tokens.
Proof.
  revert t. induction tokens as [|t' tokens IH]; intros t.
  - unfold formatPointer. simpl. rewrite append_nil_r.
    apply pieces_whole. rewrite escapePointer_chars.
    apply escapeChars_find_slash.
  - rewrite formatPointer_cons, pieces_first, IH; [done|].
    rewrite escapePointer_chars. apply escapeChars_find_slash.
Qed.

Lemma pieces_join (c : ascii) (s : string) :
  foldr (fun raw rest => String c (raw +:+ rest)) EmptyString (Js.pieces c s)
    = String c s.
Proof.
  induction s as [|d s IH]; [done|]. simpl.
  destruct (Ascii.eqb d c) eqn:Hd.
  - apply Ascii.eqb_eq in Hd as ->. simpl. by rewrite IH.
  - destruct (Js.pieces c s) as [|p ps]; simpl in *; [done|].
    by injection IH as ->.
Qed.

Lemma pieces_no_separator (c : ascii) (s : string) :
  Forall (fun p => Js.find c p = None) (Js.pieces c s).
Proof.
  induction s as [|d s IH]; simpl; [by repeat constructor|].
  destruct (Ascii.eqb d c) eqn:Hd; [by constructor|].
  destruct (Js.pieces c s) as [|p ps]; [by repeat constructor; simpl; rewrite Hd|].
  apply Forall_cons in IH as [Hp Hps]. constructor; [|done].
  simpl. by rewrite Hd, Hp.
Qed.

Lemma escape_unescapeChars (n : nat) :
  forall s u, String.length s <= n ->
    Js.find Js.slash s = None ->
    unescapeChars s = Some u -> escapeChars u = s.
Proof.
  induction n as [|n IH]; intros s u Hn Hf Hu.
  { destruct s; [by injection Hu as <- | simpl in Hn; lia]. }
  destruct s as [|c s]; [by injection Hu as <-|]. simpl in Hn, Hu, Hf.
  destruct (Ascii.eqb c Js.slash) eqn:Hsl; [done|].
  destruct (Js.find Js.slash s) as [i|] eqn:Hfs; [done|]. clear Hf.
  destruct (Ascii.eqb c Js.tilde) eqn:Ht.
  - apply Ascii.eqb_eq in Ht as ->.
    destruct s as [|d s]; [done|]. simpl in Hn, Hfs.
    destruct (Ascii.eqb d Js.slash) eqn:Hd; [done|].
    destruct (Js.find Js.slash s) as [i|] eqn:Hfs'; [done|].
    destruct (Ascii.eqb d "0") eqn:H0; [|destruct (Ascii.eqb d "1") eqn:H1];
      [| |done].
    + apply Ascii.eqb_eq in H0 as ->.
      destruct (unescapeChars s) as [u'|] eqn:Hs; [|done].
      injection Hu as <-. simpl. by rewrite (IH s u') by (done || lia).
    + apply Ascii.eqb_eq in H1 as ->.
      destruct (unescapeChars s) as [u'|] eqn:Hs; [|done].
      injection Hu as <-. simpl. by rewrite (IH s u') by (done || lia).
  - destruct (unescapeChars s) as [u'|] eqn:Hs; [|done].
    injection Hu as <-. simpl. rewrite Ht, Hsl.
    by rewrite (IH s u') by (done || lia).
Qed.

Lemma unescapeAll_escaped (tokens : list string) :
  unescapeAll (map escapePointer tokens) = Normal tokens.
Proof.
  induction tokens as [|t tokens IH]; [done|]. simpl.
  rewrite escapePointer_chars.
  rewrite (unescapePointer_chars _ t (unescape_escapeChars t)).
  by rewrite IH.
Qed.

Lemma unescapeAll_inv (raws tokens : list string) :
  Forall (fun raw => Js.find Js.slash raw = None) raws ->
  unescapeAll raws = Normal tokens ->
  map escapePointer tokens = raws.
Proof.
  revert tokens. induction raws as [|raw raws IH]; intros tokens Hall Hu.
  - by injection Hu as <-.
  - apply Forall_cons in Hall as [Hraw Hall]. simpl in Hu.
    destruct (unescapePointer raw) as [t|e] eqn:Ht; [|done].
    destruct (unescapeAll raws) as [ts|e] eqn:Hts; [|done].
    injection Hu as <-. simpl. rewrite (IH ts) by done.
    apply unescapePointer_inv in Ht.
    rewrite escapePointer_chars.
    by rewrite (escape_unescapeChars (String.length raw) raw t).
Qed.

Lemma unescapeAll_throws (raws : list string) (e : exn) :
  unescapeAll raws = Throw e -> exists m, e = TypeError m.
Proof.
  induction raws as [|raw raws IH]; [done|]. simpl.
  destruct (unescapePointer raw) as [t|e'] eqn:Ht.
  - destruct (unescapeAll raws) as [ts|e'']; [done|].
    intros [= <-]. by apply IH.
  - intros [= <-]. by apply unescapePointer_throws in Ht.
Qed.

Lemma formatPointer_join (tokens : list string) :
  formatPointer tokens
    = foldr (fun raw rest => String Js.slash (raw +:+ rest)) EmptyString
        (map escapePointer tokens).
Proof.
  induction tokens as [|t tokens IH]; [done|].
  rewrite formatPointer_cons. simpl. by rewrite IH.
Qed.

Lemma parsePointerLoop_end (fuel : nat) (input : string) (offset limit : nat)
  (tokens : list string) :
  limit <= offset ->
  parsePointerLoop fuel input offset limit tokens = Normal (tokens, offset).
Proof.
  intros Hle. destruct fuel; simpl; [done|].
  apply Nat.ltb_ge in Hle. by rewrite Hle.
Qed.

Lemma parsePointerLoop_tokens (input : string) (fuel : nat) :
  forall (prefix rem : string) (tokens : list string),
    input = prefix +:+ String Js.slash rem ->
    String.length rem < fuel ->
    parsePointerLoop fuel input (String.length prefix) (String.length input)
      tokens
    = match unescapeAll (Js.pieces Js.slash rem) with
      | Throw e => Throw e
      | Normal parsed => Normal (tokens ++ parsed, String.length input)
      end.
Proof.
  induction fuel as [|fuel IH]; intros prefix rem tokens Hp Hfuel; [lia|].
  simpl.
  assert (Hlen : String.length input
                 = String.length prefix + 1 + String.length rem)
    by (subst input; rewrite length_append; simpl; lia).
  assert (Hlt : (String.length prefix <? String.length input) = true)
    by (apply Nat.ltb_lt; lia).
  rewrite Hlt.
  assert (Hrem : Js.sliceFrom input (String.length prefix + 1) = rem).
  { subst input.
    replace (prefix +:+ String Js.slash rem)
      with ((prefix +:+ Js.str Js.slash) +:+ rem)
      by (by rewrite append_assoc).
    replace (String.length prefix + 1)
      with (String.length (prefix +:+ Js.str Js.slash))
      by (rewrite length_append; simpl; lia).
    apply sliceFrom_suffix. }
  unfold Js.indexOf. rewrite Hrem.
  destruct (pieces_split Js.slash rem) as (p & ps & Hpieces & Hnone & Hcase).
  rewrite Hpieces. simpl.
  destruct Hcase as [(-> & -> & Hf) | (s' & -> & <- & Hf)]; rewrite Hf; simpl.
  - assert (Hslice : Js.slice input (String.length prefix + 1)
                       (String.length input) = p).
    { rewrite Hlen. subst input.
      replace (prefix +:+ String Js.slash p)
        with ((prefix +:+ Js.str Js.slash) +:+ p +:+ EmptyString)
        by (by rewrite append_nil_r, append_assoc).
      replace (String.length prefix + 1)
        with (String.length (prefix +:+ Js.str Js.slash))
        by (rewrite length_append; simpl; lia).
      apply slice_middle. }
    rewrite Hslice.
    destruct (unescapePointer p) as [token|e]; [|done].
    by apply parsePointerLoop_end.
  - assert (Hslice : Js.slice input (String.length prefix + 1)
                       (String.length prefix + 1 + String.length p) = p).
    { subst input.
      replace (prefix +:+ String Js.slash (p +:+ String Js.slash s'))
        with ((prefix +:+ Js.str Js.slash) +:+ p +:+ String Js.slash s')
        by (by rewrite append_assoc).
      replace (String.length prefix + 1)
        with (String.length (prefix +:+ Js.str Js.slash))
        by (rewrite length_append; simpl; lia).
      apply slice_middle. }
    assert (Hp' : input
                  = (prefix +:+ String Js.slash p) +:+ String Js.slash s').
    { subst input. rewrite append_assoc. done. }
    assert (Hend : String.length prefix + 1 + String.length p
                   = String.length (prefix +:+ String Js.slash p))
      by (rewrite length_append; simpl; lia).
    rewrite Hslice.
    destruct (unescapePointer p) as [token|e]; [|done].
    rewrite Hend, (IH _ s' _ Hp').
    + destruct (unescapeAll (Js.pieces Js.slash s')) as [parsed|e]; [|done].
      by rewrite <- app_assoc.
    + rewrite length_append in Hfuel. simpl in Hfuel. lia.
Qed.

(** [parsePointer] on every string: no tokens for the empty pointer, a
    [TypeError] for a pointer that does not start with [/], and otherwise
    the texts between the slashes, unescaped in order. *)
Lemma parsePointer_tokens (pointer : string) :
  parsePointer pointer
    = match pointer with
      | EmptyString => Normal []
      | String c rem =>
          if Ascii.eqb c Js.slash then unescapeAll (Js.pieces Js.slash rem)
          else
            Throw (TypeError
              ("Expected JSON pointer to start with " +:+ Js.stringify "/" +:+
               ": " +:+ Js.stringify pointer))
      end.
Proof.
  unfold parsePointer, parsePointerBuffer.
  destruct pointer as [|c rem]; [done|].
  cbn [InputBuffer.input InputBuffer.offset InputBuffer.limit].
  change (String.get 0 (String c rem)) with (Some c).
  change (0 <? String.length (String c rem)) with true.
  destruct (Ascii.eqb c Js.slash) eqn:Hc; [|done].
  apply Ascii.eqb_eq in Hc as ->.
  cbn [andb negb].
  rewrite (parsePointerLoop_tokens _ _ EmptyString rem []);
    [|done|simpl; lia].
  by destruct (unescapeAll (Js.pieces Js.slash rem)).
Qed.

(** X2.  Formatting a list of tokens and parsing the result gives the
    tokens back, whatever characters they contain. *)
Theorem parsePointer_formatPointer (tokens : list string) :
  parsePointer (formatPointer tokens) = Normal tokens.
Proof.
  rewrite parsePointer_tokens.
  destruct tokens as [|t tokens]; [done|].
  rewrite formatPointer_cons, Ascii.eqb_refl, pieces_format.
  apply (unescapeAll_escaped (t :: tokens)).
Qed.

(** X3.  Whenever [parsePointer] returns, formatting the tokens it
    returns gives the pointer back; and the only failure it has is a
    [TypeError]. *)
Theorem formatPointer_parsePointer (pointer : string) :
  match parsePointer pointer with
  | Normal tokens => formatPointer tokens = pointer
  | Throw (TypeError _) => True
  | Throw _ => False
  end.
Proof.
  rewrite parsePointer_tokens.
  destruct pointer as [|c rem]; [done|].
  destruct (Ascii.eqb c Js.slash) eqn:Hc; [|done].
  apply Ascii.eqb_eq in Hc as ->.
  destruct (unescapeAll (Js.pieces Js.slash rem)) as [tokens|e] eqn:Hu.
  - rewrite formatPointer_join.
    rewrite (unescapeAll_inv _ _ (pieces_no_separator _ _) Hu).
    apply pieces_join.
  - apply unescapeAll_throws in Hu as [m ->]. done.
Qed.

(** ** Resolving a formatted pointer *)

Section Descend.
Context `{Host}.

Lemma followTokens_descend (h : Heap) (pointer : string) (keys : list string) :
  forall (seen : list string) (node : value),
    followTokens getChild h pointer (formatPointer seen)
      (map escapePointer keys) node
      = descend h pointer seen keys node.
Proof.
  induction keys as [|key keys IH]; intros seen node; [done|].
  cbn [map followTokens descend].
  assert (Hkey : unescapePointer (escapePointer key) = Normal key).
  { rewrite escapePointer_chars.
    apply unescapePointer_chars, unescape_escapeChars. }
  rewrite Hkey, <- formatPointer_snoc.
  destruct (getChild h node key) as [next|]; [|done].
  apply IH.
Qed.

(** X4.  Resolving the pointer formatted from a list of property names
    follows these names from the node, one [getChild] per name and
    whatever characters the names contain; when a name is absent the
    failure is a [ResolutionError] whose location is the pointer of the
    names up to and including that one. *)
Theorem resolvePointer_formatPointer (h : Heap) (keys : list string)
  (node : value) :
  resolvePointer h (formatPointer keys) node
    = descend h (formatPointer keys) [] keys node.
Proof.
  destruct keys as [|key keys]; [done|].
  rewrite resolvePointer_follow by (by rewrite formatPointer_cons).
  rewrite <- (followTokens_descend h _ (key :: keys) []).
  f_equal. rewrite formatPointer_cons. unfold rawTokens.
  apply pieces_format.
Qed.

End Descend.

(** ** Paths, pointers and locations of frames *)

Lemma pointerOf_path (st : State) (frame : Frame.t) :
  pointerOf st frame = formatPointer (Frame.keyString <$> pathOf st frame).
Proof.
  induction frame as [id|id parent IH] using Frame_induction;
    cbn [pointerOf pathOf Frame.parent]; rewrite ?IH;
    destruct (Frame.nodeKey _) as [key|]; try done;
    rewrite fmap_app; symmetry; apply formatPointer_snoc.
Qed.

(** X5.  The pointer of the current frame is the pointer formatted from
    its path: [currentPointer] and [currentPath] agree, on every stack. *)
Theorem currentPointer_path (st : State) :
  currentPointer st = formatPointer (Frame.keyString <$> currentPath st).
Proof.
  unfold currentPointer, currentPath.
  destruct (Context.stack (context st)) as [frame|]; [|done].
  apply pointerOf_path.
Qed.

Lemma includes_hash_first (s : string) :
  Js.includes Js.hash (String Js.hash s) = true.
Proof. done. Qed.

Lemma locationOf_unregistered (st : State) (frame : Frame.t) :
  Forall (fun f => boundaryOf st f = None) (chainOf frame) ->
  locationOf st frame = String Js.hash (pointerOf st frame).
Proof.
  induction frame as [id|id parent IH] using Frame_induction; intros Hall.
  - apply Forall_cons in Hall as [Hb _]. unfold boundaryOf in Hb.
    cbn [locationOf pointerOf Frame.parent]. rewrite Hb.
    by destruct (Frame.nodeKey _).
  - cbn [chainOf Frame.parent] in Hall.
    apply Forall_cons in Hall as [Hb Hall]. unfold boundaryOf in Hb.
    cbn [locationOf pointerOf Frame.parent].
    rewrite Hb, (IH Hall), includes_hash_first.
    by destruct (Frame.nodeKey _).
Qed.

(** X6.  When no frame on the stack is at the root of a resource with a
    canonical URI, the current location is [#] followed by the current
    pointer if there is a frame on the stack, and the empty string if the
    stack is empty. *)
Theorem currentLocation_pointer (st : State) :
  Forall (fun f => boundaryOf st f = None)
    (from_option chainOf [] (Context.stack (context st))) ->
  currentLocation st
    = match Context.stack (context st) with
      | Some _ => String Js.hash (currentPointer st)
      | None => EmptyString
      end.
Proof.
  intros Hall. unfold currentLocation, currentPointer.
  destruct (Context.stack (context st)) as [top|]; [|done].
  by apply locationOf_unregistered.
Qed.

(** X6, witness: the key [a/b] in an unregistered document, and the
    empty stack. *)
Lemma currentLocation_pointer_witness :
  currentLocation nestedState = "#/a~1b" /\
  currentLocation (initialState [] None) = EmptyString.
Proof.
  split.
  - rewrite (currentLocation_pointer nestedState).
    + vm_compute. reflexivity.
    + repeat constructor.
  - rewrite (currentLocation_pointer (initialState [] None)).
    + reflexivity.
    + constructor.
Defined.

(** ** Base URIs along the stack *)

Lemma fieldsOf_pushFrame (st : State) (f : Frame.t) :
  fieldsOf (pushFrame st).2 f = fieldsOf st f.
Proof.
  unfold fieldsOf, pushFrame. simpl.
  destruct (decide (Frame.id f < length (frameObjs st))) as [Hlt|Hge].
  - by rewrite lookup_app_l.
  - rewrite lookup_app_r by lia.
    rewrite (proj2 (lookup_ge_None (frameObjs st) (Frame.id f))) by lia.
    by destruct (Frame.id f - length (frameObjs st)).
Qed.

Lemma fieldsOf_fresh (st : State) (parent : option Frame.t) :
  fieldsOf st (Frame.mk (length (frameObjs st)) parent)
    = Frame.mkFields None None None.
Proof.
  unfold fieldsOf. simpl.
  by rewrite (proj2 (lookup_ge_None (frameObjs st) (length (frameObjs st)))).
Qed.

Lemma frame_views (st1 st2 : State) (frame : Frame.t) :
  Forall (fun f => fieldsOf st1 f = fieldsOf st2 f) (chainOf frame) ->
  baseUriOf st1 frame = baseUriOf st2 frame /\
  pathOf st1 frame = pathOf st2 frame /\
  pointerOf st1 frame = pointerOf st2 frame.
Proof.
  induction frame as [id|id parent IH] using Frame_induction; intros Hall;
    cbn [chainOf Frame.parent] in Hall;
    apply Forall_cons in Hall as [Hf Hall];
    cbn [baseUriOf pathOf pointerOf Frame.parent]; rewrite Hf.
  - done.
  - destruct (IH Hall) as (-> & -> & ->). done.
Qed.

(** X7.  A frame that has just been pushed has the base URI, the path
    and the pointer of the frame below it: they are inherited until the
    fields of the new frame are set. *)
Theorem pushFrame_inherits (st : State) :
  currentBaseUri (pushFrame st).2 = currentBaseUri st /\
  currentPath (pushFrame st).2 = currentPath st /\
  currentPointer (pushFrame st).2 = currentPointer st.
Proof.
  unfold currentBaseUri, currentPath, currentPointer.
  change (Context.stack (context (pushFrame st).2))
    with (Some (Frame.mk (length (frameObjs st)) (Context.stack (context st)))).
  cbn [mbind option_bind baseUriOf pathOf pointerOf Frame.parent].
  rewrite fieldsOf_pushFrame, fieldsOf_fresh.
  cbn [Frame.baseUri Frame.nodeKey].
  destruct (Context.stack (context st)) as [top|]; [|done].
  destruct (frame_views (pushFrame st).2 st top) as (-> & -> & ->); [|done].
  apply Forall_forall. intros f _. apply fieldsOf_pushFrame.
Qed.

(** X8.  A base URI set on a frame is the current base URI while that
    frame is on top of the stack, and popping the frame brings back the
    base URI that was current before it was pushed. *)
Theorem currentBaseUri_scoped (st : State) (uri : string) :
  framesAllocated st ->
  let frame := (pushFrame st).1 in
  let inner := setBaseUri (pushFrame st).2 frame (Some uri) in
  currentBaseUri inner = Some uri /\
  Context.stack (context (popFrame inner).2) = Context.stack (context st) /\
  currentBaseUri (popFrame inner).2 = currentBaseUri st.
Proof.
  intros Hall frame inner.
  assert (Hobjs : frameObjs (pushFrame st).2
                  = frameObjs st ++ [Frame.mkFields None None None])
    by reflexivity.
  assert (Hframe : frame = Frame.mk (length (frameObjs st))
                             (Context.stack (context st)))
    by reflexivity.
  assert (Hold : fieldsOf (pushFrame st).2 frame
                 = Frame.mkFields None None None)
    by (by rewrite fieldsOf_pushFrame, Hframe, fieldsOf_fresh).
  assert (Hinner : frameObjs inner
                   = <[length (frameObjs st)
                       := Frame.mkFields (Some uri) None None]>
                       (frameObjs st ++ [Frame.mkFields None None None])).
  { unfold inner, setBaseUri. rewrite Hold, Hobjs, Hframe. done. }
  assert (Hnew : fieldsOf inner frame
                 = Frame.mkFields (Some uri) None None).
  { unfold fieldsOf. rewrite Hinner, Hframe. cbn [Frame.id].
    by rewrite list_lookup_insert_eq by (rewrite length_app; simpl; lia). }
  split; [|split; [done|]].
  - unfold currentBaseUri.
    change (Context.stack (context inner)) with (Some frame).
    cbn [mbind option_bind]. rewrite Hframe in Hnew |- *.
    cbn [baseUriOf]. by rewrite Hnew.
  - unfold currentBaseUri.
    change (Context.stack (context (popFrame inner).2))
      with (Context.stack (context st)).
    destruct (Context.stack (context st)) as [top|] eqn:Hs; [|done].
    cbn [mbind option_bind].
    apply (frame_views (popFrame inner).2 st top).
    eapply Forall_impl; [exact (Hall top Hs)|].
    intros f Hf. simpl in Hf. unfold fieldsOf.
    change (frameObjs (popFrame inner).2) with (frameObjs inner).
    rewrite Hinner. rewrite list_lookup_insert_ne by lia.
    by rewrite lookup_app_l.
Qed.

(** X8, witness: a base URI set one frame above a frame that has one. *)
Lemma currentBaseUri_scoped_witness :
  let outer :=
    setBaseUri outerState (Frame.mk 0 None) (Some "https://example.com/a") in
  let inner :=
    setBaseUri (pushFrame outer).2 (pushFrame outer).1
      (Some "https://example.com/b") in
  currentBaseUri inner = Some "https://example.com/b" /\
  currentBaseUri (popFrame inner).2 = Some "https://example.com/a".
Proof.
  intros outer inner.
  destruct (currentBaseUri_scoped outer "https://example.com/b")
    as (Hin & _ & Hout).
  - intros top [= <-]. repeat constructor.
  - split; [exact Hin|]. fold inner in Hout. rewrite Hout.
    vm_compute. reflexivity.
Defined.

(** ** The resource registry *)

Section Registry.
Context `{Resolvers}.

(** X9.  A resource with a canonical URI that has been registered with
    [setResource] is found by [getResource] at its node and by
    [resolveResource] under its URI, without the resolver being asked and
    with the context left as it is; when the URI ends with [#] it is also
    found under the URI without that [#]. *)
Theorem setResource_resolveResource (st : State) (resource : Resource.t)
  (uri : string) :
  Resource.uri resource = Some uri ->
  let st' := withContext st (setResource (context st) resource) in
  getResource (context st') (VObj (Resource.node resource)) = Some resource /\
  resolveResource st' uri = (Normal (Some resource), st') /\
  (if Js.endsWith Js.hash uri then
     resolveResource st' (Js.slice uri 0 (String.length uri - 1))
       = (Normal (Some resource), st')
   else True).
Proof.
  intros Huri st'.
  assert (Hcanonical : Context.canonical (context st')
            = Some (if Js.endsWith Js.hash uri then
                      <[Js.slice uri 0 (String.length uri - 1) := resource]>
                        (<[uri := resource]>
                           (default ∅ (Context.canonical (context st))))
                    else <[uri := resource]>
                           (default ∅ (Context.canonical (context st))))).
  { unfold st', setResource. rewrite Huri. simpl.
    by destruct (Js.endsWith Js.hash uri). }
  split; [|split].
  - unfold st', setResource, getResource.
    destruct (Resource.uri resource); simpl; by rewrite lookup_insert_eq.
  - unfold resolveResource. rewrite Hcanonical. simpl.
    destruct (Js.endsWith Js.hash uri).
    + destruct (decide (Js.slice uri 0 (String.length uri - 1) = uri))
        as [->|Hne].
      * by rewrite lookup_insert_eq.
      * by rewrite lookup_insert_ne, lookup_insert_eq.
    + by rewrite lookup_insert_eq.
  - destruct (Js.endsWith Js.hash uri) eqn:He; [|done].
    unfold resolveResource. rewrite Hcanonical. simpl.
    by rewrite lookup_insert_eq.
Qed.

(** X10.  A resource that the injected resolver returns for a URI, and
    whose canonical URI is that URI, is registered in the context as the
    resolver left it: the next [resolveResource] of the URI returns the
    same resource without asking the resolver, and leaves the context as
    it is, whatever else the resolver did. *)
Theorem resolveResource_cached (st st1 : State) (id : fid) (uri : string)
  (resource : Resource.t) :
  Context.canonical (context st) ≫= (.!! uri) = None ->
  Context.resolveResource (context st) = Some id ->
  resolverOf id uri st = (Normal (Some resource), st1) ->
  Resource.uri resource = Some uri ->
  (resolveResource st uri).1 = Normal (Some resource) /\
  let st' := (resolveResource st uri).2 in
  st' = withContext st1 (setResource (context st1) resource) /\
  Context.canonical (context st') ≫= (.!! uri) = Some resource /\
  resolveResource st' uri = (Normal (Some resource), st').
Proof.
  intros Hmiss Hresolver Hfound Huri.
  assert (Hfirst : resolveResource st uri
            = (Normal (Some resource),
               withContext st1 (setResource (context st1) resource))).
  { unfold resolveResource. by rewrite Hmiss, Hresolver, Hfound. }
  rewrite Hfirst. split; [done|]. cbn [snd]. split; [done|].
  pose proof (setResource_canonical (context st1) resource uri Huri) as Hhit.
  split; [exact Hhit|].
  unfold resolveResource.
  change (context (withContext st1 (setResource (context st1) resource)))
    with (setResource (context st1) resource).
  by rewrite Hhit.
Qed.

End Registry.

(** X9, witness: a resource whose canonical URI ends with [#]. *)
Lemma setResource_resolveResource_witness :
  let st := withContext (initialState [Obj []] None)
              (setResource (createContext None) hashedResource) in
  resolveResource st "https://example.com/schema#"
    = (Normal (Some hashedResource), st) /\
  resolveResource st "https://example.com/schema"
    = (Normal (Some hashedResource), st).
Proof.
  intros st.
  destruct (setResource_resolveResource (initialState [Obj []] None)
              hashedResource "https://example.com/schema#" eq_refl)
    as (_ & Hfull & Hshort).
  split; [exact Hfull | exact Hshort].
Defined.

(** X10, witness: the resolver that serves [b.json] under its own
    canonical URI. *)
Lemma resolveResource_cached_witness :
  let st := (@resolveResource aliasResolver (initialState aliasHeap (Some 0))
               "https://example.com/b.json").2 in
  @resolveResource aliasResolver st "https://example.com/b.json"
    = (Normal (Some (createResource (Some "https://example.com/b.json") 1)),
       st).
Proof.
  intros st.
  destruct (@resolveResource_cached aliasResolver
              (initialState aliasHeap (Some 0))
              (initialState aliasHeap (Some 0)) 0
              "https://example.com/b.json"
              (createResource (Some "https://example.com/b.json") 1))
    as (_ & _ & _ & Hagain); [reflexivity..|].
  exact Hagain.
Defined.

Section Writes.
Context `{Host} `{Resolvers}.

Lemma setResource_beyond (st : State) (found : Resource.t) :
  beyondRegistry (withContext st (setResource (context st) found))
    = beyondRegistry st.
Proof.
  unfold beyondRegistry, setResource. simpl. by destruct (Resource.uri found).
Qed.

(** X11.  Resolving a URI writes nothing but the two resource maps,
    apart from what the resolver does.  The documents, the frames and
    their fields, the stack, the resolver, the reference objects, the
    permanent map and the unresolved map are as they were or, when the
    canonical part of the URI is not in the canonical map and the context
    has a resolver, as the one call of that resolver on the canonical part
    left them, whatever the outcome. *)
Theorem resolveResourceUri_writes (st : State) (resource : option Resource.t)
  (uri : string) :
  let st' := (resolveResourceUri st resource uri).2 in
  beyondRegistry st' = beyondRegistry st \/
  exists id,
    Context.resolveResource (context st) = Some id /\
    lookupCanonical st (beforeHash uri) = None /\
    beyondRegistry st'
      = beyondRegistry (resolverOf id (beforeHash uri) st).2.
Proof.
  intros st'. unfold st', resolveResourceUri.
  destruct (split_hash uri) as [-> _]. simpl.
  destruct (negb (String.length (beforeHash uri) =? 0));
    [|left; by destruct resource].
  unfold resolveResource, lookupCanonical.
  destruct (Context.canonical (context st) ≫= (.!! beforeHash uri))
    as [known|] eqn:Hknown; [by left|].
  destruct (Context.resolveResource (context st)) as [id|] eqn:Hid;
    [|by left].
  right. exists id. split; [done|]. split; [done|].
  destruct (resolverOf id (beforeHash uri) st) as [[[found|]|e] st1];
    simpl; [|done..].
  apply setResource_beyond.
Qed.

End Writes.

(** ** The current resource *)

Lemma resourceOf_nearest (st : State) (frame : Frame.t) :
  forall current,
    resourceOf st frame current
      = match nearestResource st (chainOf frame) with
        | Some r => Some r
        | None => current
        end.
Proof.
  unfold nearestResource.
  induction frame as [id|id parent IH] using Frame_induction; intros current;
    cbn [resourceOf chainOf Frame.parent omap list_omap].
  - fold (frameResource st (Frame.mk id None)).
    destruct (frameResource st (Frame.mk id None)) as [r|]; [|done].
    cbn [list_find].
    destruct (Resource.uri r) as [u|] eqn:Hu.
    + by rewrite decide_True by (by eexists).
    + by rewrite decide_False by (by intros [? ?]).
  - fold (frameResource st (Frame.mk id (Some parent))).
    fold (omap (frameResource st) (chainOf parent)).
    destruct (frameResource st (Frame.mk id (Some parent))) as [r|];
      [|apply IH].
    cbn [list_find].
    destruct (Resource.uri r) as [u|] eqn:Hu.
    + by rewrite decide_True by (by eexists).
    + rewrite decide_False by (by intros [? ?]).
      rewrite IH, last_cons.
      destruct (list_find _ (omap (frameResource st) (chainOf parent)))
        as [[i r']|]; [done|]. simpl.
      by destruct (last (omap (frameResource st) (chainOf parent))).
Qed.

(** X12.  [currentResource] is the resource of the nearest frame whose
    node is the root of a resource with a canonical URI; when no frame
    has one, it is the resource of the outermost frame whose node is the
    root of a resource; and it is undefined when no frame has a
    resource. *)
Theorem currentResource_nearest (st : State) :
  currentResource st
    = Context.stack (context st) ≫= (fun top => nearestResource st (chainOf top)).
Proof.
  unfold currentResource.
  destruct (Context.stack (context st)) as [top|]; [|done]. simpl.
  rewrite resourceOf_nearest. by destruct (nearestResource st (chainOf top)).
Qed.

(** ** The invariant of the reference maps *)

Lemma mapSet_fresh (k : addr) (v : rid) (m : list (addr * rid)) :
  k ∉ m.*1 -> mapSet k v m = m ++ [(k, v)].
Proof.
  induction m as [|[k' v'] m IH]; intros Hk; [done|]. simpl in *.
  apply not_elem_of_cons in Hk as [Hne Hk].
  rewrite (proj2 (Nat.eqb_neq k' k)) by done. by rewrite IH.
Qed.

Lemma initialState_consistent (h : Heap) (resolver : option fid) :
  referencesConsistent (initialState h resolver).
Proof.
  split; [|split]; simpl.
  - intros node r Hr. by rewrite lookup_empty in Hr.
  - intros node node' r Hr. by rewrite lookup_empty in Hr.
  - done.
Qed.

Lemma registerReference_effect (st : State) (node : addr) (key uri : string) :
  referencesConsistent st ->
  getReference st (VObj node) = None ->
  registerReference st node key uri
    = (length (referenceObjs st),
       withContext
         (withReferenceObjs st (referenceObjs st ++ [createReference key uri]))
         (Context.withUnresolved
            (Context.withReferences (context st)
               (Some (<[node := length (referenceObjs st)]>
                        (default ∅ (Context.references (context st))))))
            (Some (default [] (Context.unresolved (context st))
                   ++ [(node, length (referenceObjs st))])))).
Proof.
  intros (_ & _ & Hunres) Hnew. unfold registerReference.
  unfold getReference in Hnew. rewrite Hnew. simpl.
  rewrite mapSet_fresh; [done|].
  destruct (Context.unresolved (context st)) as [entries|] eqn:Hu;
    [|apply not_elem_of_nil].
  simpl. intros Hin. apply list_elem_of_fmap in Hin as [[n r] [-> Hin]].
  destruct (Hunres entries eq_refl) as [_ Hsub].
  apply Hsub in Hin. simpl in *.
  destruct (Context.references (context st)); simpl in *; [congruence|].
  by rewrite lookup_empty in Hin.
Qed.

Lemma registerReference_keeps (st : State) (node : addr) (key uri : string) :
  referencesConsistent st ->
  referencesConsistent (registerReference st node key uri).2.
Proof.
  intros Hst.
  destruct (getReference st (VObj node)) as [r|] eqn:Hget.
  { unfold registerReference. unfold getReference in Hget.
    by rewrite Hget. }
  rewrite (registerReference_effect st node key uri Hst Hget).
  destruct Hst as (Hbound & Hinj & Hunres).
  unfold getReference in Hget.
  assert (Hmiss : default ∅ (Context.references (context st)) !! node = None).
  { destruct (Context.references (context st)); [done|].
    apply lookup_empty. }
  split; [|split]; simpl.
  - intros n r Hr. rewrite length_app. simpl.
    destruct (decide (n = node)) as [->|Hne].
    + rewrite lookup_insert_eq in Hr. injection Hr as <-. lia.
    + rewrite lookup_insert_ne in Hr by done.
      apply Hbound in Hr. lia.
  - intros n n' r Hn Hn'.
    destruct (decide (n = node)) as [->|Hne];
      destruct (decide (n' = node)) as [->|Hne']; [done|..].
    + rewrite lookup_insert_eq in Hn. injection Hn as <-.
      rewrite lookup_insert_ne in Hn' by done. apply Hbound in Hn'. lia.
    + rewrite lookup_insert_eq in Hn'. injection Hn' as <-.
      rewrite lookup_insert_ne in Hn by done. apply Hbound in Hn. lia.
    + rewrite lookup_insert_ne in Hn, Hn' by done. by eapply Hinj.
  - intros entries [= <-].
    assert (Hold : NoDup (default [] (Context.unresolved (context st))).*1 /\
              forall n r,
                (n, r) ∈ default [] (Context.unresolved (context st)) ->
                default ∅ (Context.references (context st)) !! n = Some r).
    { destruct (Context.unresolved (context st)) as [entries|] eqn:Hu.
      - by apply Hunres.
      - split; [constructor|]. intros n r Hin. by apply elem_of_nil in Hin. }
    destruct Hold as [Hnd Hsub]. split.
    + rewrite fmap_app. apply NoDup_app. split; [done|]. split.
      * intros n Hin Hn. apply list_elem_of_singleton in Hn as ->.
        apply list_elem_of_fmap in Hin as [[n r] [Heq Hin]].
        simpl in Heq. subst n. apply Hsub in Hin. congruence.
      * apply NoDup_singleton.
    + intros n r Hin. apply elem_of_app in Hin as [Hin|Hin].
      * destruct (decide (n = node)) as [->|Hne].
        -- apply Hsub in Hin. congruence.
        -- rewrite lookup_insert_ne by done. by apply Hsub.
      * apply list_elem_of_singleton in Hin as [= -> ->].
        apply lookup_insert_eq.
Qed.

Lemma referencesConsistent_references (st st' : State) :
  referencesOf st = referencesOf st' ->
  referencesConsistent st -> referencesConsistent st'.
Proof.
  intros [= Hobjs Hrefs Hunres]. unfold referencesConsistent.
  by rewrite Hobjs, Hrefs, Hunres.
Qed.

(** X13.  [registerReference] keeps the invariant of the reference maps:
    every registered node has a reference object of its own, and the
    unresolved map lists registered nodes with their reference objects,
    each node once. *)
Theorem registerReference_consistent (st : State) (node : addr)
  (key uri : string) :
  referencesConsistent st ->
  referencesConsistent (registerReference st node key uri).2.
Proof. apply registerReference_keeps. Qed.

(** X13, witness: the first registration in a new context. *)
Lemma registerReference_consistent_witness :
  referencesConsistent
    (registerReference (initialState typesHeap None) 3 "$ref"
       "https://example.com/types.json#/string").2.
Proof.
  apply registerReference_consistent, initialState_consistent.
Defined.

(** X14.  Registering a node that has no reference yet creates one
    reference object, with the key and the URI given and no target;
    the node is mapped to it in the permanent map and appended to the
    unresolved map; the nodes and the reference objects already there
    stay as they are. *)
Theorem registerReference_fresh (st : State) (node : addr) (key uri : string) :
  referencesConsistent st ->
  getReference st (VObj node) = None ->
  let r := (registerReference st node key uri).1 in
  let st' := (registerReference st node key uri).2 in
  getReference st' (VObj node) = Some r /\
  deref st' r = createReference key uri /\
  Context.unresolved (context st')
    = Some (default [] (Context.unresolved (context st)) ++ [(node, r)]) /\
  (forall other, other <> VObj node ->
     getReference st' other = getReference st other) /\
  (forall r', r' <> r -> deref st' r' = deref st r').
Proof.
  intros Hst Hget r st'. unfold r, st'.
  rewrite (registerReference_effect st node key uri Hst Hget). clear r st'.
  cbn [fst snd]. split; [|split; [|split; [done|split]]].
  - unfold getReference. simpl. by rewrite lookup_insert_eq.
  - unfold deref. simpl.
    rewrite lookup_app_r by done. by rewrite Nat.sub_diag.
  - intros other Hne. unfold getReference. destruct other as [| | | |a|]; try done.
    simpl. rewrite lookup_insert_ne by congruence.
    by destruct (Context.references (context st)).
  - intros r' Hne. unfold deref. simpl.
    destruct (decide (r' < length (referenceObjs st))) as [Hlt|Hge].
    + by rewrite lookup_app_l.
    + rewrite lookup_app_r by lia.
      rewrite (proj2 (lookup_ge_None (referenceObjs st) r')) by lia.
      destruct (r' - length (referenceObjs st)) as [|k] eqn:Hk; [lia|done].
Qed.

(** X14, witness: the second registration of the types document. *)
Lemma registerReference_fresh_witness :
  let st := (registerReference (typesRegistered None) 3 "$ref"
               "https://example.com/types.json#/string").2 in
  Context.unresolved
    (context (registerReference st 4 "$ref"
                "https://example.com/types.json#/number").2)
  = Some [(3, 0); (4, 1)].
Proof.
  intros st.
  destruct (registerReference_fresh st 4 "$ref"
              "https://example.com/types.json#/number")
    as (_ & _ & Hunres & _).
  - apply registerReference_keeps.
    apply (referencesConsistent_references (initialState typesHeap None));
      [reflexivity | apply initialState_consistent].
  - reflexivity.
  - rewrite Hunres. vm_compute. reflexivity.
Defined.

(** ** What a batch keeps *)

Lemma keepsReferences_refl (st : State) : keepsReferences st st.
Proof. split; [done|]. intros r ref Hr. by exists ref. Qed.

Lemma keepsReferences_trans (st1 st2 st3 : State) :
  keepsReferences st1 st2 -> keepsReferences st2 st3 ->
  keepsReferences st1 st3.
Proof.
  intros [Hn Ho] [Hn' Ho']. split; [by auto|].
  intros r ref Hr.
  destruct (Ho r ref Hr) as (ref2 & Hr2 & Hkey & Huri & Htarget).
  destruct (Ho' r ref2 Hr2) as (ref3 & Hr3 & Hkey' & Huri' & Htarget').
  exists ref3. split; [done|]. split; [congruence|]. split; [congruence|].
  by auto.
Qed.

Lemma keepsReferences_setResource (st : State) (found : Resource.t) :
  keepsReferences st (withContext st (setResource (context st) found)).
Proof.
  split.
  - intros node r. unfold getReference, setResource. simpl.
    by destruct (Resource.uri found).
  - intros r ref Hr. by exists ref.
Qed.

Lemma keepsReferences_setTarget (st : State) (r : rid) (target : value) :
  keepsReferences st (setTarget st r target).
Proof.
  split; [done|]. intros r' ref Hr'. unfold setTarget. simpl.
  destruct (decide (r = r')) as [->|Hne].
  - eexists. split.
    + apply list_lookup_insert_eq. by eapply lookup_lt_Some.
    + unfold deref. rewrite Hr'. simpl. by split; [|split; [|eexists]].
  - exists ref. by rewrite list_lookup_insert_ne.
Qed.

Lemma keepsReferences_registerReference (st : State) (node : addr)
  (key uri : string) :
  keepsReferences st (registerReference st node key uri).2.
Proof.
  unfold registerReference.
  destruct (Context.references (context st) ≫= (.!! node)) as [r|] eqn:Hget;
    [apply keepsReferences_refl|].
  split.
  - intros other r Hr. unfold getReference in *.
    destruct other as [| | | |a|]; try done. simpl in *.
    destruct (decide (a = node)) as [->|Hne]; [congruence|].
    rewrite lookup_insert_ne by done.
    by destruct (Context.references (context st)).
  - intros r ref Hr. exists ref. simpl. split; [|done].
    by apply lookup_app_l_Some.
Qed.

Section Keeps.
Context `{Host} `{Resolvers}.
Variable resource : option Resource.t.

(** X15.  A batch resolution keeps what is registered, as long as the
    resolvers do: when no resolver removes a node from the permanent map,
    changes the key or the URI of a reference object or clears a target,
    then after the batch, whatever it returns or throws, every node that
    had a reference has the same one, every reference object has the key
    and the URI it had, and a target that was set is set (to what it was,
    or to the target a new attempt has found). *)
Theorem resolveReferences_keeps (fuel : nat) (st st' : State)
  (result : completion unit) :
  (forall id uri s, keepsReferences s (resolverOf id uri s).2) ->
  resolveReferences fuel st resource = Some (result, st') ->
  keepsReferences st st'.
Proof.
  intros Hresolvers Hres.
  destruct (resolveReferences_final resource fuel st st' result Hres)
    as [->|(run & Hrun & ->)]; [apply keepsReferences_refl|].
  apply (batch_steps resource keepsReferences keepsReferences_refl
           keepsReferences_trans) with (fuel := fuel); [|done].
  apply (attempt_steps resource keepsReferences keepsReferences_refl
           keepsReferences_trans); [|done|..].
  - intros s node. split; [done|]. intros r ref Hr. by exists ref.
  - apply keepsReferences_setResource.
  - apply keepsReferences_setTarget.
Qed.

Lemma consistent_deleteUnresolved (st : State) (node : addr) :
  referencesConsistent st -> referencesConsistent (deleteUnresolved st node).
Proof.
  intros (Hbound & Hinj & Hunres). split; [done|]. split; [done|].
  intros left Hleft. simpl in Hleft.
  destruct (Context.unresolved (context st)) as [entries|]; [|done].
  injection Hleft as <-. destruct (Hunres entries eq_refl) as [Hnd Hsub].
  split.
  - eapply sublist_NoDup; [exact Hnd|]. apply fmap_sublist, sublist_filter.
  - intros n r Hin. apply mapDelete_elem in Hin as [_ Hin]. by apply Hsub.
Qed.

Lemma consistent_setResource (st : State) (found : Resource.t) :
  referencesConsistent st ->
  referencesConsistent (withContext st (setResource (context st) found)).
Proof.
  apply referencesConsistent_references.
  unfold referencesOf, setResource. simpl. by destruct (Resource.uri found).
Qed.

Lemma consistent_setTarget (st : State) (r : rid) (target : value) :
  referencesConsistent st -> referencesConsistent (setTarget st r target).
Proof.
  intros (Hbound & Hinj & Hunres). split; [|done].
  intros node r' Hr'. simpl. rewrite length_insert. by eapply Hbound.
Qed.

(** X16.  A batch resolution keeps the invariant of the reference maps,
    as long as the resolvers do (as [registerReference] does). *)
Theorem resolveReferences_consistent (fuel : nat) (st st' : State)
  (result : completion unit) :
  (forall id uri s,
     referencesConsistent s -> referencesConsistent (resolverOf id uri s).2) ->
  referencesConsistent st ->
  resolveReferences fuel st resource = Some (result, st') ->
  referencesConsistent st'.
Proof.
  intros Hresolvers Hst Hres.
  destruct (resolveReferences_final resource fuel st st' result Hres)
    as [->|(run & Hrun & ->)]; [done|].
  revert Hst.
  apply (batch_steps resource
           (fun s s' => referencesConsistent s -> referencesConsistent s'))
    with (fuel := fuel); [by intros ? | | | done].
  { intros s1 s2 s3 H12 H23 Hs. by apply H23, H12. }
  apply (attempt_steps resource
           (fun s s' => referencesConsistent s -> referencesConsistent s'));
    [by intros ? | | | done | |].
  - intros s1 s2 s3 H12 H23 Hs. by apply H23, H12.
  - intros s node. apply consistent_deleteUnresolved.
  - intros s found. apply consistent_setResource.
  - intros s r target. apply consistent_setTarget.
Qed.

(** X17.  The unresolved references are attempted once: after a batch
    that returned, or that failed with a resolution error, the unresolved
    map is empty, the entries that resolvers added while the batch ran
    included, and another batch does nothing and returns, whatever the
    base resource. *)
Theorem resolveReferences_once (fuel : nat) (st st' : State)
  (result : completion unit) (resource' : option Resource.t) :
  resolveReferences fuel st resource = Some (result, st') ->
  match result with
  | Normal _ => True
  | Throw error => isResolutionError error = true
  end ->
  default [] (Context.unresolved (context st')) = [] /\
  forall fuel', resolveReferences fuel' st' resource' = Some (Normal tt, st').
Proof.
  intros Hres Hresult.
  assert (Hempty : default [] (Context.unresolved (context st')) = []).
  { rewrite resolveReferences_batch in Hres.
    destruct (Context.unresolved (context st)) as [entries|] eqn:Hu.
    - destruct (batch fuel st resource) as [run|] eqn:Hrun; [|done].
      injection Hres as <- <-.
      destruct (batch_outcome resource fuel st run Hrun) as [_ Ha].
      unfold settle in Hresult.
      destruct (aborted run) as [error|]; [|done].
      destruct Ha as [Ha _]. congruence.
    - injection Hres as _ <-. by rewrite Hu. }
  split; [done|]. intros fuel'. rewrite resolveReferences_batch.
  destruct (Context.unresolved (context st')) as [entries|] eqn:Hu; [|done].
  simpl in Hempty. subst entries.
  by destruct fuel'; simpl; rewrite Hu.
Qed.

End Keeps.
(** ** Batches on concrete contexts *)

(** C3, witness: the second of three entries needs a resolver that is
    off line; the batch ends there and the third entry stays
    unresolved. *)
Lemma resolveReferences_aggregation_witness :
  @keepUnresolved offline /\
  Context.unresolved (context offlineState) = Some [(3, 0); (5, 1); (4, 2)] /\
  exists run,
    @batch ecmaHost offline 3 offlineState None = Some run /\
    @resolveReferences ecmaHost offline 3 offlineState None
      = Some (Throw (Foreign "network unreachable"), final run) /\
    attempted run = 2 /\
    Context.unresolved (context (final run)) = Some [(4, 2)].
Proof.
  assert (Hkeep : @keepUnresolved offline) by (by intros id uri st).
  assert (Hu : Context.unresolved (context offlineState)
               = Some [(3, 0); (5, 1); (4, 2)]) by (vm_compute; reflexivity).
  assert (Hnd : NoDup [(3, 0); (5, 1); (4, 2)].*1)
    by (apply (bool_decide_unpack _); vm_compute; exact I).
  split; [exact Hkeep|]. split; [exact Hu|].
  destruct (@resolveReferences_aggregation ecmaHost offline None 3
              offlineState) as (Hres & _ & Hquiet).
  destruct (Hquiet [(3, 0); (5, 1); (4, 2)] Hkeep Hu Hnd (le_n 3))
    as (run & Hrun & _ & _ & Hrest).
  assert (Hsettle : settle <$> @batch ecmaHost offline 3 offlineState None
                    = Some (Throw (Foreign "network unreachable")))
    by (vm_compute; reflexivity).
  assert (Hcount : attempted <$> @batch ecmaHost offline 3 offlineState None
                   = Some 2) by (vm_compute; reflexivity).
  rewrite Hrun in Hsettle, Hcount. simpl in Hsettle, Hcount.
  injection Hsettle as Hsettle. injection Hcount as Hcount.
  exists run. split; [exact Hrun|]. split.
  - rewrite Hres, Hu, Hrun. simpl. by rewrite Hsettle.
  - split; [exact Hcount|]. rewrite Hrest, Hcount. reflexivity.
Defined.

(** The resolver that loads keeps what is registered, keeps the
    invariant of the reference maps, and is conservative. *)
Lemma loading_keepsReferences (id : fid) (uri : string) (st : State) :
  keepsReferences st (loading id uri st).2.
Proof.
  unfold loading.
  destruct (String.eqb uri "https://example.com/more.json");
    [|apply keepsReferences_refl].
  cbn [alloc fst snd].
  eapply keepsReferences_trans; [|apply keepsReferences_registerReference].
  split; [done|]. intros r ref Hr. by exists ref.
Qed.

Lemma loading_consistent (id : fid) (uri : string) (st : State) :
  referencesConsistent st -> referencesConsistent (loading id uri st).2.
Proof.
  intros Hst. unfold loading.
  destruct (String.eqb uri "https://example.com/more.json"); [|done].
  cbn [alloc fst snd]. by apply registerReference_keeps.
Qed.

Lemma loading_conservative : @conservative loading.
Proof.
  intros id uri st Hwf. unfold resolverOf, loading.
  destruct (String.eqb uri "https://example.com/more.json") eqn:Huri;
    [|by split; [|split; [apply onlyAdds_refl|]]].
  cbn [alloc fst snd].
  set (cell := Obj [("$ref", VStr "https://example.com/types.json#/number")]).
  set (st1 := withHeap st (heap st ++ [cell])).
  destruct Hwf as [Hcons Hcells].
  assert (Hcons1 : referencesConsistent st1) by done.
  assert (Hfresh : getReference st1 (VObj (length (heap st))) = None).
  { destruct (getReference st1 (VObj (length (heap st)))) as [r|] eqn:Hr;
      [|done].
    apply (Hcells (length (heap st)) r) in Hr. lia. }
  pose proof (registerReference_keeps st1 (length (heap st)) "$ref"
                "https://example.com/types.json#/number" Hcons1) as Hkeeps.
  rewrite (registerReference_effect st1 (length (heap st)) "$ref"
             "https://example.com/types.json#/number" Hcons1 Hfresh)
    in Hkeeps |- *.
  cbn [snd] in Hkeeps |- *. split; [|split].
  - split; [exact Hkeeps|].
    intros node r. unfold getReference. simpl. rewrite length_app. simpl.
    destruct (decide (node = length (heap st))) as [->|Hne]; [lia|].
    rewrite lookup_insert_ne by done. intros Hr.
    assert (node < length (heap st)); [|lia].
    apply (Hcells node r). unfold getReference.
    by destruct (Context.references (context st)).
  - split; [|split; [|split]]; simpl.
    + intros a c Ha. by apply lookup_app_l_Some.
    + done.
    + intros r ref Hr. exists ref. split; [|done]. by apply lookup_app_l_Some.
    + intros entries ->. eexists. split; [reflexivity|]. simpl.
      intros e He. apply elem_of_app. by left.
  - intros resource [= <-]. simpl. by apply String.eqb_eq in Huri as ->.
Qed.

Lemma typesRegistered_wellFormed (resolver : option fid) :
  wellFormed (typesRegistered resolver).
Proof.
  split.
  - apply (referencesConsistent_references (initialState typesHeap resolver));
      [reflexivity | apply initialState_consistent].
  - intros node r Hr. vm_compute in Hr. done.
Qed.

Lemma loadingState_wellFormed : wellFormed loadingState.
Proof.
  destruct (typesRegistered_wellFormed (Some 0)) as [Hcons Hcells]. split.
  - by apply registerReference_keeps.
  - intros node r Hr. unfold getReference in Hr.
    change (Context.references (context loadingState))
      with (Some (<[5 := 0]> (∅ : gmap addr rid))) in Hr. simpl in Hr.
    destruct (decide (node = 5)) as [->|Hne]; [vm_compute; lia|].
    by rewrite lookup_insert_ne, lookup_empty in Hr.
Qed.

(** C1, witness: one reference to a document that the resolver loads.
    The document holds a reference of its own, which the resolver
    registers while the batch runs; the batch resolves both. *)
Lemma resolveReferences_full_drain_witness :
  @conservative loading /\
  wellFormed loadingState /\
  Context.unresolved (context loadingState) = Some [(5, 0)] /\
  exists st',
    @resolveReferences ecmaHost loading 2 loadingState None
      = Some (Normal tt, st') /\
    Context.unresolved (context st') = Some [] /\
    Reference.target (deref st' 0) = Some (VObj 6) /\
    Reference.target (deref st' 1) = Some (VObj 1) /\
    @resolveResourceUri ecmaHost loading st' None
      "https://example.com/more.json"
    = (Normal (VObj 6), st').
Proof.
  split; [exact loading_conservative|].
  split; [exact loadingState_wellFormed|].
  split; [vm_compute; reflexivity|].
  exists (@afterResolving ecmaHost loading 2 loadingState None).
  assert (Hres : @resolveReferences ecmaHost loading 2 loadingState None
                 = Some (Normal tt,
                         @afterResolving ecmaHost loading 2 loadingState None))
    by (vm_compute; reflexivity).
  destruct (@resolveReferences_full_drain ecmaHost loading None
              loading_conservative 2 loadingState _ [(5, 0)]
              loadingState_wellFormed eq_refl Hres) as [Hempty Htargets].
  split; [exact Hres|]. split; [exact Hempty|].
  destruct (Htargets 5 0) as (target & Htarget & Hagain); [by left|].
  assert (H0 : Reference.target
                 (deref (@afterResolving ecmaHost loading 2 loadingState None)
                    0) = Some (VObj 6)) by (vm_compute; reflexivity).
  split; [exact H0|]. split; [vm_compute; reflexivity|].
  rewrite H0 in Htarget. injection Htarget as <-.
  exact Hagain.
Defined.

(** C1, counterexample.  The documents behind [a.json] and [b.json] both
    declare the canonical URI [b.json].  The batch resolves the reference
    to [b.json] first, to the second document; resolving [a.json] then
    registers the first document under [b.json].  The batch returns, and
    resolving [b.json] again gives the first document, not the target of
    the reference. *)
Lemma resolveReferences_alias_drift :
  exists st',
    @resolveReferences ecmaHost aliasResolver 2 aliasState None
      = Some (Normal tt, st') /\
    Reference.target (deref st' 0) = Some (VObj 1) /\
    (@resolveResourceUri ecmaHost aliasResolver st' None
       (Reference.uri (deref st' 0))).1 = Normal (VObj 0) /\
    ~ @fullDrainClaim ecmaHost aliasResolver aliasState None.
Proof.
  exists (@afterResolving ecmaHost aliasResolver 2 aliasState None).
  set (st' := @afterResolving ecmaHost aliasResolver 2 aliasState None).
  assert (H1 : @resolveReferences ecmaHost aliasResolver 2 aliasState None
               = Some (Normal tt, st')) by (vm_compute; reflexivity).
  assert (H2 : Reference.target (deref st' 0) = Some (VObj 1))
    by (vm_compute; reflexivity).
  assert (H3 : (@resolveResourceUri ecmaHost aliasResolver st' None
                  (Reference.uri (deref st' 0))).1 = Normal (VObj 0))
    by (vm_compute; reflexivity).
  split; [exact H1|]. split; [exact H2|]. split; [exact H3|].
  intros Hclaim.
  destruct (Hclaim 2 [(2, 0); (3, 1)] st') as [_ Htargets];
    [vm_compute; reflexivity | discriminate | exact H1 |].
  destruct (Htargets 2 0) as (target & Ht & Hr); [by left|].
  rewrite H2 in Ht. rewrite H3 in Hr. congruence.
Qed.

(** X15, witness: the resolver that loads registers a reference while
    the batch runs, and the batch keeps what was registered. *)
Lemma resolveReferences_keeps_witness :
  keepsReferences loadingState
    (@afterResolving ecmaHost loading 2 loadingState None).
Proof.
  apply (@resolveReferences_keeps ecmaHost loading None 2 loadingState _
           (Normal tt) loading_keepsReferences).
  vm_compute. reflexivity.
Defined.

(** X16, witness: the same batch keeps the invariant. *)
Lemma resolveReferences_consistent_witness :
  referencesConsistent (@afterResolving ecmaHost loading 2 loadingState None).
Proof.
  apply (@resolveReferences_consistent ecmaHost loading None 2 loadingState _
           (Normal tt) loading_consistent).
  - apply loadingState_wellFormed.
  - vm_compute. reflexivity.
Defined.

(** X17, witness: a reference to a document that nothing knows.  The
    batch fails with a resolution error, and the next batch returns. *)
Lemma resolveReferences_once_witness :
  exists error,
    resolveReferences 1 danglingState None
      = Some (Throw error, afterResolving 1 danglingState None) /\
    isResolutionError error = true /\
    forall fuel,
      resolveReferences fuel (afterResolving 1 danglingState None) None
        = Some (Normal tt, afterResolving 1 danglingState None).
Proof.
  eexists. split; [vm_compute; reflexivity|]. split; [reflexivity|].
  eapply (resolveReferences_once None 1 danglingState).
  - vm_compute. reflexivity.
  - reflexivity.
Defined.
(** ** Following references *)

Lemma traverseReference_unfold (fuel : nat) (st : State) (node : value) :
  traverseReference fuel st node
    = match targetOf st node with
      | None => Some node
      | Some target =>
          match fuel with
          | 0 => None
          | S fuel => traverseReference fuel st target
          end
      end.
Proof. by destruct fuel. Qed.

(** X18.  Whenever [traverseReference] returns, the node it returns is
    not a reference with a target, and traversing from that node returns
    it at once. *)
Theorem traverseReference_result (fuel : nat) (st : State) (node v : value) :
  traverseReference fuel st node = Some v ->
  targetOf st v = None /\
  forall fuel', traverseReference fuel' st v = Some v.
Proof.
  revert node. induction fuel as [|fuel IH]; intros node;
    rewrite traverseReference_unfold;
    destruct (targetOf st node) as [target|] eqn:Ht; try done.
  - intros [= <-]. split; [done|]. intros fuel'.
    by rewrite traverseReference_unfold, Ht.
  - apply IH.
  - intros [= <-]. split; [done|]. intros fuel'.
    by rewrite traverseReference_unfold, Ht.
Qed.

(** X18, witness: from a resolved reference of the cyclic schema. *)
Lemma traverseReference_result_witness :
  traverseReference 1 cyclicState (VObj 1) = Some (VObj 3) /\
  targetOf cyclicState (VObj 3) = None.
Proof.
  assert (Hrun : traverseReference 1 cyclicState (VObj 1) = Some (VObj 3))
    by (vm_compute; reflexivity).
  split; [exact Hrun|].
  exact (proj1 (traverseReference_result 1 cyclicState (VObj 1) (VObj 3) Hrun)).
Defined.

(** X19.  On a reference whose target is the reference node itself,
    [traverseReference] does not return: no number of rounds of its loop
    reaches a node without a target. *)
Theorem traverseReference_self (st : State) (node : value) :
  targetOf st node = Some node ->
  forall fuel, traverseReference fuel st node = None.
Proof.
  intros Hself fuel. induction fuel as [|fuel IH];
    rewrite traverseReference_unfold, Hself; done.
Qed.

(** X19, witness: the document [{"$ref": "#"}], resolved against
    itself. *)
Lemma traverseReference_self_witness :
  targetOf selfState (VObj 0) = Some (VObj 0) /\
  forall fuel, traverseReference fuel selfState (VObj 0) = None.
Proof.
  assert (Hself : targetOf selfState (VObj 0) = Some (VObj 0))
    by (vm_compute; reflexivity).
  split; [exact Hself|].
  exact (traverseReference_self selfState (VObj 0) Hself).
Defined.

(** ** Array items *)

Lemma ofNat_parseIndex (i : nat) : parseIndex (Js.ofNat i) = Some i.
Proof.
  unfold parseIndex, Js.ofNat.
  rewrite NilZero.usu.
  - rewrite DecimalNat.Unsigned.of_to. by rewrite String.eqb_refl.
  - rewrite <- (DecimalNat.Unsigned.of_to i) at 1.
    rewrite DecimalNat.Unsigned.to_of. apply DecimalFacts.unorm_nonnil.
Qed.

Lemma parseIndex_ofNat (s : string) (i : nat) :
  parseIndex s = Some i -> s = Js.ofNat i.
Proof.
  unfold parseIndex. destruct (NilZero.uint_of_string s) as [u|]; [|done].
  destruct (String.eqb (Js.ofNat (Nat.of_uint u)) s) eqn:He; [|done].
  intros [= <-]. symmetry. by apply String.eqb_eq.
Qed.

Lemma ofNat_not_length (i : nat) : String.eqb (Js.ofNat i) "length" = false.
Proof.
  unfold Js.ofNat. by destruct (Nat.to_uint i).
Qed.

Section Arrays.
Context `{Host}.

(** X20.  On an array, the child under the decimal name of an index is
    the item at that index when there is one; every other name, the
    length apart, reads what arrays inherit: a name such as [01] or [-1]
    does not address an item. *)
Theorem getChild_array (h : Heap) (a : addr) (items : list value) :
  h !! a = Some (Arr items) ->
  (forall i,
     getChild h (VObj a) (Js.ofNat i)
       = match items !! i with
         | Some item => Some item
         | None => arrayProto (Js.ofNat i)
         end) /\
  (forall key,
     key <> "length" -> (forall i, key <> Js.ofNat i) ->
     getChild h (VObj a) key = arrayProto key).
Proof.
  intros Ha. split.
  - intros i. unfold getChild. rewrite Ha, ofNat_not_length, ofNat_parseIndex.
    done.
  - intros key Hlen Hkey. unfold getChild. rewrite Ha.
    rewrite (proj2 (String.eqb_neq key "length")) by done.
    destruct (parseIndex key) as [i|] eqn:Hi; [|done].
    apply parseIndex_ofNat in Hi. by destruct (Hkey i).
Qed.

End Arrays.

(** X20, witness: an array of three strings. *)
Lemma getChild_array_witness :
  getChild listHeap (VObj 0) "1" = Some (VStr "b") /\
  getChild listHeap (VObj 0) "01" = None.
Proof.
  destruct (getChild_array listHeap 0 [VStr "a"; VStr "b"; VStr "c"] eq_refl)
    as [Hitem Hother].
  split.
  - exact (Hitem 1).
  - rewrite (Hother "01"); [reflexivity | discriminate |].
    intros i Hi. apply (f_equal parseIndex) in Hi.
    rewrite ofNat_parseIndex in Hi. discriminate Hi.
Defined.

(** ** The name of a definition *)

Lemma lastIndexOf_bound (c : ascii) (s : string) :
  (-1 <= Js.lastIndexOf c s < Z.of_nat (String.length s))%Z.
Proof.
  induction s as [|d s IH]; simpl Js.lastIndexOf; [simpl; lia|].
  change (String.length (String d s)) with (S (String.length s)).
  destruct (0 <=? Js.lastIndexOf c s)%Z eqn:Hi.
  - apply Z.leb_le in Hi. lia.
  - destruct (Ascii.eqb d c); lia.
Qed.

Lemma lastIndexOf_absent (c : ascii) (s : string) :
  Js.find c s = None -> Js.lastIndexOf c s = (-1)%Z.
Proof.
  induction s as [|d s IH]; [done|]. simpl.
  destruct (Ascii.eqb d c); [done|].
  destruct (Js.find c s); [done|]. intros _. by rewrite IH.
Qed.

Lemma lastIndexOf_append (c : ascii) (p s : string) :
  Js.lastIndexOf c (p +:+ s)
    = if (0 <=? Js.lastIndexOf c s)%Z
      then (Z.of_nat (String.length p) + Js.lastIndexOf c s)%Z
      else Js.lastIndexOf c p.
Proof.
  induction p as [|d p IH].
  - simpl. by destruct (0 <=? Js.lastIndexOf c s)%Z eqn:Hi; [|
      pose proof (lastIndexOf_bound c s); apply Z.leb_gt in Hi; lia].
  - change (String d p +:+ s) with (String d (p +:+ s)).
    simpl Js.lastIndexOf. rewrite IH.
    change (String.length (String d p)) with (S (String.length p)).
    destruct (0 <=? Js.lastIndexOf c s)%Z eqn:Hi; [|done].
    apply Z.leb_le in Hi.
    rewrite (proj2 (Z.leb_le 0 _)) by lia. lia.
Qed.

(** X21.  The name a reference target is given is the last segment of
    the reference URI: what follows its last [/] or [#], and the whole
    URI when it has neither. *)
Theorem nameOfUri_segment (prefix name : string) (c : ascii) :
  c = Js.slash \/ c = Js.hash ->
  Js.find Js.slash name = None ->
  Js.find Js.hash name = None ->
  nameOfUri (prefix +:+ String c name) = name /\
  nameOfUri name = name.
Proof.
  intros Hc Hslash Hhash. unfold nameOfUri. split.
  - assert (Hmax : Z.max (Js.lastIndexOf Js.slash (prefix +:+ String c name))
                     (Js.lastIndexOf Js.hash (prefix +:+ String c name))
                   = Z.of_nat (String.length prefix)).
    { rewrite !lastIndexOf_append. simpl Js.lastIndexOf.
      rewrite (lastIndexOf_absent _ _ Hslash), (lastIndexOf_absent _ _ Hhash).
      pose proof (lastIndexOf_bound Js.slash prefix).
      pose proof (lastIndexOf_bound Js.hash prefix).
      destruct Hc as [-> | ->]; simpl; lia. }
    rewrite Hmax.
    replace (Z.to_nat (Z.of_nat (String.length prefix) + 1))
      with (String.length (prefix +:+ Js.str c))
      by (rewrite length_append; simpl; lia).
    replace (prefix +:+ String c name) with ((prefix +:+ Js.str c) +:+ name)
      by (by rewrite append_assoc).
    apply sliceFrom_suffix.
  - rewrite (lastIndexOf_absent _ _ Hslash), (lastIndexOf_absent _ _ Hhash).
    apply sliceFrom_zero.
Qed.

(** X21, witness: a pointer fragment under a document URI. *)
Lemma nameOfUri_segment_witness :
  nameOfUri "https://example.com/schemas.json#/$defs/person" = "person".
Proof.
  exact (proj1 (nameOfUri_segment "https://example.com/schemas.json#/$defs"
                  "person" Js.slash (or_introl eq_refl) eq_refl eq_refl)).
Defined.

(** ** The names the mark phase gives *)

Section Names.
Context `{Host}.

Lemma nameTarget_named (fuel : nat) (st : State) (node : value) (r : rid)
  (target : value) (sh sh' : Shake.vars) :
  getReference st node = Some r ->
  Reference.target (deref st r) = Some target ->
  namedByUri st sh ->
  nameTarget fuel st r target sh = Some sh' ->
  namedByUri st sh'.
Proof.
  intros Hnode Htarget [Hdefs Hnames]. unfold nameTarget.
  destruct (refsGet target (Shake.refs sh)); [by intros [= <-]|].
  rewrite Hdefs. simpl. intros [= <-]. split; [done|]. simpl.
  intros t name Hin. apply elem_of_app in Hin as [Hin|Hin]; [by apply Hnames|].
  apply list_elem_of_singleton in Hin as [= -> ->]. by exists node, r.
Qed.

Lemma collectBody_named (fuel : nat)
  (self : value -> Shake.vars -> option Shake.vars) (o : Shake.options)
  (st : State) :
  (forall node sh sh', namedByUri st sh -> self node sh = Some sh' ->
                       namedByUri st sh') ->
  forall node sh sh',
    namedByUri st sh ->
    collectBody fuel self o st node sh = Some sh' ->
    namedByUri st sh'.
Proof.
  intros Hself node sh sh' Hsh. unfold collectBody.
  destruct node as [| | | |a|]; try (by intros [= <-]).
  destruct (bool_decide (a ∈ Shake.visited sh)); [by intros [= <-]|].
  set (sh0 := Shake.withVisited sh ({[a]} ∪ Shake.visited sh)).
  assert (Hsh0 : namedByUri st sh0) by done.
  assert (Hmarked : forall sh1,
            match getReference st (VObj a) with
            | Some r =>
                match Reference.target (deref st r) with
                | Some target =>
                    if negb (includesRoot (Shake.roots o) target)
                    then nameTarget fuel st r target sh0 ≫= self target
                    else Some sh0
                | None => Some sh0
                end
            | None => Some sh0
            end = Some sh1 -> namedByUri st sh1).
  { intros sh1. destruct (getReference st (VObj a)) as [r|] eqn:Hr;
      [|by intros [= <-]].
    destruct (Reference.target (deref st r)) as [target|] eqn:Ht;
      [|by intros [= <-]].
    destruct (negb (includesRoot (Shake.roots o) target));
      [|by intros [= <-]].
    destruct (nameTarget fuel st r target sh0) as [sh2|] eqn:Hn; [|done].
    simpl. apply Hself.
    by apply (nameTarget_named fuel st (VObj a) r target sh0 sh2). }
  destruct (match getReference st (VObj a) with Some _ => _ | None => _ end)
    as [sh1|] eqn:Hm; [|done].
  simpl.
  apply (forEach_invariant self (namedByUri st) (values (heap st) a));
    [|by apply Hmarked].
  intros x s s' _. apply Hself.
Qed.

Lemma collectReferences_named (fuel : nat) (o : Shake.options) (st : State) :
  forall node sh sh',
    namedByUri st sh ->
    collectReferences fuel o st node sh = Some sh' ->
    namedByUri st sh'.
Proof.
  induction fuel as [|fuel IH]; [done|].
  simpl. by apply collectBody_named.
Qed.

(** X22.  The mark phase stores no definition, and every name it gives
    is the last segment of the URI of a registered reference to the named
    target, as it is: no name is ever given a numeric suffix. *)
Theorem markRoots_names (fuel : nat) (o : Shake.options) (st : State)
  (sh : Shake.vars) :
  markRoots fuel o st = Some sh ->
  Shake.defs sh = None /\
  forall target name, (target, name) ∈ Shake.refs sh ->
    exists node r,
      getReference st node = Some r /\
      Reference.target (deref st r) = Some target /\
      name = nameOfUri (Reference.uri (deref st r)).
Proof.
  unfold markRoots.
  apply (forEach_invariant _ (namedByUri st)).
  - intros root s s' _. apply collectReferences_named.
  - split; [done|]. intros target name Hin. by apply elem_of_nil in Hin.
Qed.

End Names.

(** X22, witness: the two items of two documents. *)
Lemma markRoots_names_witness :
  exists sh,
    markRoots 5 itemsOptions itemsState = Some sh /\
    Shake.defs sh = None /\
    Shake.refs sh = [(VObj 0, "item"); (VObj 3, "item")].
Proof.
  destruct (markRoots 5 itemsOptions itemsState) as [sh|] eqn:Hrun;
    [|by vm_compute in Hrun].
  exists sh. split; [reflexivity|].
  split; [exact (proj1 (markRoots_names 5 itemsOptions itemsState sh Hrun))|].
  vm_compute in Hrun. by injection Hrun as <-.
Defined.

(** ** Tree shaking returns *)

Lemma forEach_total {A S : Type} (body : A -> S -> option S)
  (I : S -> Prop) (l : list A) :
  (forall x s, x ∈ l -> I s -> exists s', body x s = Some s' /\ I s') ->
  forall s, I s -> exists s', forEach body l s = Some s' /\ I s'.
Proof.
  induction l as [|x l IH]; intros Hbody s Hs; simpl; [by exists s|].
  destruct (Hbody x s) as (s1 & -> & Hs1); [by left | done |].
  apply IH; [|done].
  intros y t Hy. apply Hbody. by right.
Qed.

Lemma difference_shrinks (U X Y : gset addr) : X ⊆ Y -> U ∖ Y ⊆ U ∖ X.
Proof.
  intros Hsub x Hx. apply elem_of_difference in Hx as [Hu Hy].
  apply elem_of_difference. split; [done|]. intros Hin. by apply Hy, Hsub.
Qed.

Section MarkReturns.
Context `{Host}.
Variables (o : Shake.options) (st : State) (rank : addr -> nat) (bound : nat).
Hypothesis shaped : treeShaped st rank bound.


Lemma collectReferences_total (fuel : nat) :
  forall node sh,
    oldValue (length (heap st)) node ->
    Shake.defs sh = None ->
    size (cellsOf st ∖ Shake.visited sh) < fuel ->
    exists sh',
      collectReferences fuel o st node sh = Some sh' /\
      Shake.defs sh' = None /\
      Shake.visited sh ⊆ Shake.visited sh'.
Proof.
  induction fuel as [|fuel IH]; intros node sh Hold Hdefs Hsize; [lia|].
  simpl. unfold collectBody.
  destruct node as [| | | |a|]; try (by exists sh).
  destruct (bool_decide (a ∈ Shake.visited sh)) eqn:Hvis; [by exists sh|].
  apply bool_decide_eq_false in Hvis.
  set (sh0 := Shake.withVisited sh ({[a]} ∪ Shake.visited sh)).
  assert (Hsize0 : size (cellsOf st ∖ Shake.visited sh0) < fuel).
  { assert (Hsub : cellsOf st ∖ Shake.visited sh0
                     ⊂ cellsOf st ∖ Shake.visited sh).
    { simpl in Hold. unfold sh0. simpl. split.
      - apply difference_shrinks, union_subseteq_r.
      - intros Hsup. assert (Ha : a ∈ cellsOf st ∖ Shake.visited sh).
        { apply elem_of_difference. split; [|done].
          apply elem_of_set_seq. lia. }
        apply Hsup, elem_of_difference in Ha as [_ Hn].
        apply Hn, elem_of_union. left. by apply elem_of_singleton. }
    apply subset_size in Hsub. lia. }
  set (I := fun s : Shake.vars =>
              Shake.defs s = None /\ Shake.visited sh0 ⊆ Shake.visited s).
  assert (Hself : forall x s, oldValue (length (heap st)) x -> I s ->
            exists s', collectReferences fuel o st x s = Some s' /\ I s').
  { intros x s Hx [Hd Hv].
    destruct (IH x s Hx Hd) as (s' & Hrun & Hd' & Hv').
    - assert (Hle : cellsOf st ∖ Shake.visited s
                      ⊆ cellsOf st ∖ Shake.visited sh0)
        by (by apply difference_shrinks).
      apply subseteq_size in Hle. lia.
    - exists s'. split; [done|]. split; [done|]. by etrans. }
  assert (Hmarked : exists sh1,
            match getReference st (VObj a) with
            | Some r =>
                match Reference.target (deref st r) with
                | Some target =>
                    if negb (includesRoot (Shake.roots o) target)
                    then nameTarget fuel st r target sh0
                           ≫= collectReferences fuel o st target
                    else Some sh0
                | None => Some sh0
                end
            | None => Some sh0
            end = Some sh1 /\ I sh1).
  { destruct (getReference st (VObj a)) as [r|] eqn:Hr;
      [|by exists sh0].
    destruct (Reference.target (deref st r)) as [target|] eqn:Ht;
      [|by exists sh0].
    destruct (negb (includesRoot (Shake.roots o) target)); [|by exists sh0].
    assert (Hnamed : exists sh2, nameTarget fuel st r target sh0 = Some sh2 /\
                                 I sh2).
    { unfold nameTarget. destruct (refsGet target (Shake.refs sh0));
        [by exists sh0|].
      unfold sh0 at 1. simpl. rewrite Hdefs. simpl. by eexists. }
    destruct Hnamed as (sh2 & -> & Hsh2). simpl.
    apply Hself; [|done].
    by eapply (targets_closed _ _ _ shaped). }
  destruct Hmarked as (sh1 & -> & Hsh1). simpl.
  destruct (forEach_total (collectReferences fuel o st) I
              (values (heap st) a)) with (s := sh1)
    as (sh' & Hrun & Hd & Hv); [|done|].
  - intros x s Hx. apply Hself.
    destruct x as [| | | |b|]; try done. simpl.
    by apply (cells_closed _ _ _ shaped a b).
  - exists sh'. split; [done|]. split; [done|]. unfold sh0 in Hv. simpl in Hv.
    etrans; [|exact Hv]. apply union_subseteq_r.
Qed.

Lemma markRoots_total (fuel : nat) :
  Forall (fun root => root < length (heap st)) (Shake.roots o) ->
  length (heap st) < fuel ->
  exists sh, markRoots fuel o st = Some sh /\ Shake.defs sh = None.
Proof.
  intros Hroots Hfuel. unfold markRoots.
  apply (forEach_total _ (fun s => Shake.defs s = None)); [|done].
  intros root s Hroot Hd.
  destruct (collectReferences_total fuel (VObj root) s) as (s' & -> & Hd' & _).
  - simpl. by eapply Forall_forall in Hroots.
  - done.
  - assert (Hle : cellsOf st ∖ Shake.visited s ⊆ cellsOf st)
      by (intros x Hx; by apply elem_of_difference in Hx as [? _]).
    apply subseteq_size in Hle. unfold cellsOf in Hle at 2.
    rewrite size_set_seq in Hle. lia.
  - by exists s'.
Qed.

End MarkReturns.

Lemma assoc_absent {A : Type} (k : string) (l : list (string * A)) :
  assoc k l = None <-> k ∉ l.*1.
Proof.
  induction l as [|[k' v] l IH]; simpl.
  - split; [intros _; apply not_elem_of_nil | done].
  - rewrite not_elem_of_cons. destruct (String.eqb k' k) eqn:Hk.
    + apply String.eqb_eq in Hk as ->. split; [done | by intros [? _]].
    + apply String.eqb_neq in Hk. rewrite IH. split; [|by intros [_ ?]].
      intros Hl. split; [congruence | done].
Qed.

Lemma assocSet_keys {A : Type} (k : string) (v : A) (l : list (string * A)) :
  (assocSet k v l).*1 = if decide (k ∈ l.*1) then l.*1 else l.*1 ++ [k].
Proof.
  induction l as [|[k' v'] l IH].
  - destruct (decide (k ∈ ([] : list (string * A)).*1)) as [Hin|_]; [|done].
    by apply elem_of_nil in Hin.
  - cbn [assocSet]. destruct (String.eqb k' k) eqn:Hk.
    + apply String.eqb_eq in Hk as ->.
      destruct (decide (k ∈ ((k, v') :: l).*1)) as [_|Hn]; [done|].
      destruct Hn. by left.
    + apply String.eqb_neq in Hk. rewrite !fmap_cons, IH. cbn [fst].
      destruct (decide (k ∈ l.*1)) as [Hin|Hin].
      * rewrite decide_True; [done | by right].
      * rewrite decide_False; [done|].
        rewrite not_elem_of_cons. split; [congruence | done].
Qed.

Lemma refsGet_elem (target : value) (refs : list (value * string))
  (name : string) :
  refsGet target refs = Some name -> name ∈ refs.*2.
Proof.
  induction refs as [|[t n] refs IH]; [done|]. simpl.
  destruct (decide (t = target)).
  - intros [= ->]. by left.
  - intros Hr. right. by apply IH.
Qed.

Lemma keys_length (keys : list string) (refs0 : list (value * string)) :
  NoDup keys -> keys ⊆ refs0.*2 -> length keys <= length refs0.
Proof.
  intros Hnd Hsub. rewrite <- (length_fmap snd refs0).
  apply submseteq_length. by apply NoDup_submseteq.
Qed.

Section RewriteReturns.
Context `{Host}.
Variables (o : Shake.options) (st0 : State) (refs0 : list (value * string)).
Variables (rank : addr -> nat) (bound : nat).
Hypothesis shaped : treeShaped st0 rank bound.
Hypothesis transform_ok : transformFrame (length (heap st0)) o.
Hypothesis proto_inherited : is_Some (objectProto "__proto__").
Hypothesis bound_positive : 0 < bound.
Hypothesis rank_positive : forall a, 0 < rank a.

Lemma rewritable_alloc (st : State) (sh : Shake.vars) (c : Cell) :
  rewritable st0 refs0 st sh ->
  rewritable st0 refs0 (alloc st c).2 sh /\
  length (heap st0) <= (alloc st c).1.
Proof.
  intros (Hext & Hrefs & Hobjs & Hnames). split; [|destruct Hext; simpl; lia].
  split; [|done].
  eapply extendsHeap_trans; [exact Hext|].
  apply extendsHeap_alloc. by destruct Hext.
Qed.

Lemma rewritable_register (st : State) (sh : Shake.vars) (a : addr)
  (reference : Reference.t) :
  rewritable st0 refs0 st sh ->
  length (heap st0) <= a ->
  rewritable st0 refs0 (registerRewritten st a reference) sh.
Proof.
  intros (Hext & Hrefs & Hobjs & Hnames) Ha.
  split; [done|]. split; [|split; [|done]].
  - intros b Hb. rewrite <- (Hrefs b Hb). unfold getReference. simpl.
    rewrite lookup_insert_ne by lia.
    by destruct (Context.references (context st)).
  - intros r Hr. rewrite <- (Hobjs r Hr). simpl.
    apply lookup_app_l. apply lookup_lt_is_Some.
    rewrite (Hobjs r Hr). by apply lookup_lt_is_Some.
Qed.

Lemma rewritable_defs (st : State) (sh : Shake.vars)
  (defs : list (string * option value)) :
  rewritable st0 refs0 st sh ->
  NoDup defs.*1 -> defs.*1 ⊆ refs0.*2 ->
  rewritable st0 refs0 st (Shake.withDefs sh (Some defs)).
Proof.
  intros (Hext & Hrefs & Hobjs & Hnames & _ & _) Hnd Hsub.
  split; [done|]. split; [done|]. split; [done|]. split; [done|].
  split; done.
Qed.

Lemma applyTransform_total (v : value) (st : State) (sh : Shake.vars) :
  rewritable st0 refs0 st sh ->
  exists v' st',
    applyTransform o (v, (st, sh)) = Some (v', (st', sh)) /\
    rewritable st0 refs0 st' sh.
Proof.
  intros Hgood. unfold applyTransform. simpl.
  destruct (Shake.transform o) as [f|] eqn:Hf; [|by exists v, st].
  destruct Hgood as (Hext & Hrefs & Hobjs & Hnames).
  destruct (transform_ok f Hf (heap st) v) as [Hext' _];
    [by destruct Hext|].
  destruct (f (heap st) v) as [v1 h1]. simpl in *.
  exists v1, (withHeap st h1). split; [done|].
  split; [by eapply extendsHeap_trans | done].
Qed.

Lemma refNameOf_old (st : State) (sh : Shake.vars) (a : addr) (r : rid)
  (target : value) (name : string) :
  rewritable st0 refs0 st sh ->
  a < length (heap st0) ->
  refNameOf st sh (VObj a) = Some (r, target, name) ->
  oldValue (length (heap st0)) target /\ name ∈ refs0.*2.
Proof.
  intros (Hext & Hrefs & Hobjs & Hnames & _) Ha. unfold refNameOf.
  rewrite (Hrefs a Ha).
  destruct (getReference st0 (VObj a)) as [r'|] eqn:Hr; [|done].
  pose proof (references_allocated _ _ _ shaped _ _ Hr) as Hlt.
  assert (Hderef : deref st r' = deref st0 r')
    by (unfold deref; by rewrite (Hobjs r' Hlt)).
  rewrite Hderef.
  destruct (Reference.target (deref st0 r')) as [t|] eqn:Ht; [|done].
  rewrite Hnames.
  destruct (refsGet t refs0) as [n|] eqn:Hn; [|done].
  intros [= <- <- <-]. split.
  - by eapply (targets_closed _ _ _ shaped).
  - by eapply refsGet_elem.
Qed.

Lemma budget_keys (sh sh' : Shake.vars) (node : value) :
  NoDup (keysOf sh) -> keysOf sh ⊆ keysOf sh' ->
  budget refs0 rank bound sh' node <= budget refs0 rank bound sh node.
Proof.
  intros Hnd Hsub. unfold budget.
  assert (Hlen : length (keysOf sh) <= length (keysOf sh'))
    by (apply submseteq_length; by apply NoDup_submseteq).
  apply Nat.add_le_mono_r, Nat.mul_le_mono_r. lia.
Qed.

Lemma children_total {A B : Type}
  (self : value -> State -> Shake.vars -> rewriting) (limit : nat)
  (step : A -> B -> value -> B) (item : A -> value) (l : list A)
  (a : addr) :
  rewritesBelow st0 refs0 rank bound limit self ->
  (forall x, x ∈ l -> item x ∈ values (heap st0) a) ->
  forall st sh acc,
    rewritable st0 refs0 st sh ->
    budget refs0 rank bound sh (VObj a) <= limit ->
    exists acc' st' sh',
      forEach
        (fun x (s : B * (State * Shake.vars)) =>
           match rewriteChild self (item x) s.2 with
           | Some (v, s') => Some (step x s.1 v, s')
           | None => None
           end) l (acc, (st, sh)) = Some (acc', (st', sh')) /\
      rewritable st0 refs0 st' sh' /\
      keysOf sh ⊆ keysOf sh'.
Proof.
  intros Hself Hitems st sh acc Hgood Hbudget.
  destruct (forEach_total
              (fun x (s : B * (State * Shake.vars)) =>
                 match rewriteChild self (item x) s.2 with
                 | Some (v, s') => Some (step x s.1 v, s')
                 | None => None
                 end)
              (fun s : B * (State * Shake.vars) =>
                 rewritable st0 refs0 s.2.1 s.2.2 /\
                 keysOf sh ⊆ keysOf s.2.2) l) with (s := (acc, (st, sh)))
    as ([acc' [st' sh']] & Hrun & Hgood' & Hkeys); [|done|by eauto 6].
  intros x [b [st1 sh1]] Hx [Hgood1 Hkeys1]. simpl in *.
  unfold rewriteChild.
  destruct (isObject (item x)) eqn:Hobj; [|by eexists (_, (_, _))].
  cbn [fst snd]. specialize (Hitems x Hx).
  assert (Hnd : NoDup (keysOf sh)) by (by destruct Hgood as (_&_&_&_&?&_)).
  pose proof (budget_keys sh sh1 (item x) Hnd Hkeys1) as Hle.
  destruct (Hself (item x) st1 sh1) as (v & st2 & sh2 & -> & Hgood2 & Hkeys2);
    [done | | |].
  - destruct (item x) as [| | | |c|]; try done. simpl.
    by apply (cells_closed _ _ _ shaped a c).
  - destruct (item x) as [| | | |c|name]; try done.
    + destruct (cells_closed _ _ _ shaped a c Hitems) as [Hc Hrank].
      unfold budget in *. simpl in *. lia.
    + pose proof (rank_positive a). unfold budget in *. simpl in *. lia.
  - exists (step x b v, (st2, sh2)). split; [done|]. split; [done|].
    by etrans.
Qed.

Lemma rewriteStructure_total
  (self : value -> State -> Shake.vars -> rewriting) (limit : nat) :
  rewritesBelow st0 refs0 rank bound limit self ->
  forall node st sh,
    rewritable st0 refs0 st sh ->
    oldValue (length (heap st0)) node ->
    budget refs0 rank bound sh node <= limit ->
    exists v st' sh',
      rewriteStructure self node st sh = Some (v, (st', sh')) /\
      rewritable st0 refs0 st' sh' /\
      keysOf sh ⊆ keysOf sh'.
Proof.
  intros Hself node st sh Hgood Hold Hbudget. unfold rewriteStructure.
  destruct node as [| | | |a|name];
    try (eexists _, st, sh; split; [reflexivity|]; split; [done|];
         reflexivity).
  2: { destruct (hostTypeOf name).
       - eexists _, st, sh. split; [reflexivity|]. by split.
       - destruct (rewritable_alloc st sh (Obj []) Hgood) as [Hgood2 _].
         by exists (VObj (length (heap st))), (alloc st (Obj [])).2, sh.
       - destruct (rewritable_alloc st sh (Arr []) Hgood) as [Hgood2 _].
         by exists (VObj (length (heap st))), (alloc st (Arr [])).2, sh. }
  simpl in Hold.
  assert (Hcell : heap st !! a = heap st0 !! a)
    by (destruct Hgood as ([_ Hcells] & _); by apply Hcells).
  rewrite Hcell.
  destruct (heap st0 !! a) as [[items|props]|] eqn:Ha; simpl.
  - unfold rewriteArray.
    destruct (children_total self limit (fun _ acc v => acc ++ [v])
                (fun x => x) items a Hself) with (st := st) (sh := sh)
                (acc := @nil value)
      as (acc' & st1 & sh1 & Hrun & Hgood1 & Hkeys1); [|done|done|].
    { intros x Hx. unfold values. by rewrite Ha. }
    rewrite Hrun.
    destruct (rewritable_alloc st1 sh1 (Arr acc') Hgood1) as [Hgood2 _].
    by exists (VObj (length (heap st1))), (alloc st1 (Arr acc')).2, sh1.
  - unfold rewriteObject.
    destruct (children_total self limit
                (fun (kv : string * value) acc v => objSet kv.1 v acc)
                (fun kv => kv.2) props a Hself) with (st := st) (sh := sh)
                (acc := @nil (string * value))
      as (acc' & st1 & sh1 & Hrun & Hgood1 & Hkeys1); [|done|done|].
    { intros x Hx. unfold values. rewrite Ha.
      by apply list_elem_of_fmap_2. }
    rewrite Hrun.
    destruct (rewritable_alloc st1 sh1 (Obj acc') Hgood1) as [Hgood2 _].
    by exists (VObj (length (heap st1))), (alloc st1 (Obj acc')).2, sh1.
  - apply lookup_ge_None in Ha. lia.
Qed.

Lemma relocate_total
  (self : value -> State -> Shake.vars -> rewriting) (limit : nat) :
  rewritesBelow st0 refs0 rank bound limit self ->
  forall node r target refName st sh,
    rewritable st0 refs0 st sh ->
    oldValue (length (heap st0)) target ->
    refName ∈ refs0.*2 ->
    budget refs0 rank bound sh node <= limit ->
    exists v st' sh',
      relocate self o r target refName st sh = Some (v, (st', sh')) /\
      rewritable st0 refs0 st' sh' /\
      keysOf sh ⊆ keysOf sh'.
Proof.
  intros Hself node r target refName st sh Hgood Hold Hname Hbudget.
  unfold relocate.
  set (defs := default [] (Shake.defs sh)).
  assert (Hnd : NoDup defs.*1) by (by destruct Hgood as (_&_&_&_&?&_)).
  assert (Hsub : defs.*1 ⊆ refs0.*2) by (by destruct Hgood as (_&_&_&_&_&?)).
  assert (Hstep : exists st1 sh1,
            (if negb (inDefs refName defs)
             then
               match self target st
                       (Shake.withDefs sh (Some (objSet refName None defs)))
               with
               | Some (def, (st2, sh2)) =>
                   Some (st2,
                         Shake.withDefs sh2
                           (Some (objSet refName (Some def)
                                    (default [] (Shake.defs sh2)))))
               | None => None
               end
             else Some (st, Shake.withDefs sh (Some defs))) = Some (st1, sh1) /\
            rewritable st0 refs0 st1 sh1 /\ keysOf sh ⊆ keysOf sh1).
  { destruct (inDefs refName defs) eqn:Hin; simpl.
    - exists st, (Shake.withDefs sh (Some defs)). split; [done|].
      split; [by apply rewritable_defs | done].
    - unfold inDefs in Hin.
      destruct (assoc refName defs) as [x|] eqn:Hassoc; [done|].
      destruct (objectProto refName) as [x|] eqn:Hproto; [done|].
      assert (Hne : String.eqb refName "__proto__" = false).
      { apply String.eqb_neq. intros ->. destruct proto_inherited as [x Hx].
        congruence. }
      apply assoc_absent in Hassoc.
      assert (Hkeys : (objSet refName None defs).*1 = defs.*1 ++ [refName]).
      { unfold objSet. rewrite Hne, assocSet_keys. by rewrite decide_False. }
      set (sh0 := Shake.withDefs sh (Some (objSet refName None defs))).
      assert (Hgood0 : rewritable st0 refs0 st sh0).
      { apply rewritable_defs; [done| |]; rewrite Hkeys.
        - apply NoDup_app. split; [done|]. split; [|apply NoDup_singleton].
          intros x Hx Hx'. apply list_elem_of_singleton in Hx' as ->. done.
        - intros x Hx. apply elem_of_app in Hx as [Hx|Hx]; [by apply Hsub|].
          by apply list_elem_of_singleton in Hx as ->. }
      assert (Hlen : length (keysOf sh0) = S (length defs.*1)).
      { unfold keysOf, sh0. simpl. rewrite Hkeys, length_app. simpl. lia. }
      destruct (Hself target st sh0)
        as (def & st2 & sh2 & -> & Hgood2 & Hkeys2); [done | done | |].
      { pose proof (keys_length (keysOf sh0) refs0) as Hle.
        destruct Hgood0 as (_&_&_&_&Hnd0&Hsub0).
        specialize (Hle Hnd0 Hsub0).
        assert (Hrank : rankOf rank target < bound).
        { destruct target as [| | | |b|]; simpl in *; try done.
          by apply (rank_bounded _ _ _ shaped). }
        unfold budget in *. fold defs in Hbudget.
        change (keysOf sh) with defs.*1 in Hbudget.
        rewrite Hlen in *.
        replace (length refs0 - length defs.*1)
          with (S (length refs0 - S (length defs.*1))) in Hbudget by lia.
        simpl in Hbudget. lia. }
      eexists st2, _. split; [done|].
      assert (Hin2 : refName ∈ keysOf sh2).
      { apply Hkeys2. unfold keysOf, sh0. simpl. rewrite Hkeys.
        apply elem_of_app. right. by left. }
      assert (Hsame : (objSet refName (Some def)
                         (default [] (Shake.defs sh2))).*1 = keysOf sh2).
      { unfold objSet. rewrite Hne, assocSet_keys. by rewrite decide_True. }
      split.
      + destruct Hgood2 as (?&?&?&?&?&?).
        apply rewritable_defs; [done | by rewrite Hsame..].
      + unfold keysOf at 2. simpl. rewrite Hsame.
        etrans; [|exact Hkeys2]. unfold keysOf at 2, sh0. simpl.
        rewrite Hkeys. intros x Hx. apply elem_of_app. by left. }
  destruct Hstep as (st1 & sh1 & -> & Hgood1 & Hkeys1).
  destruct (rewritable_alloc st1 sh1
              (Obj [(Reference.key (deref st1 r),
                     VStr (Shake.defsUri o +:+ "/" +:+
                           escapePointer refName))]) Hgood1) as [Hgood2 Ha].
  eexists _, _, sh1. split; [reflexivity|]. split; [|done].
  by apply rewritable_register.
Qed.

Lemma rewriteBody_total
  (self : value -> State -> Shake.vars -> rewriting) (limit : nat) :
  rewritesBelow st0 refs0 rank bound limit self ->
  rewritesBelow st0 refs0 rank bound (S limit) (rewriteBody self o).
Proof.
  intros Hself node st sh Hgood Hold Hbudget. unfold rewriteBody.
  assert (Hrewritten : exists v st1 sh1,
            match refNameOf st sh node with
            | Some (r, target, refName) =>
                relocate self o r target refName st sh
            | None => rewriteStructure self node st sh
            end = Some (v, (st1, sh1)) /\
            rewritable st0 refs0 st1 sh1 /\ keysOf sh ⊆ keysOf sh1).
  { destruct (refNameOf st sh node) as [[[r target] refName]|] eqn:Href.
    - destruct (refNameOf_object st sh node _ Href) as [a ->].
      destruct (refNameOf_old st sh a r target refName Hgood Hold Href)
        as [Htarget Hname].
      apply (relocate_total self limit Hself (VObj a)); [done..|lia].
    - apply (rewriteStructure_total self limit Hself); [done..|lia]. }
  destruct Hrewritten as (v & st1 & sh1 & -> & Hgood1 & Hkeys1). simpl.
  destruct (applyTransform_total v st1 sh1 Hgood1) as (v' & st2 & -> & Hgood2).
  by exists v', st2, sh1.
Qed.

Lemma rewriteNode_total (fuel : nat) :
  rewritesBelow st0 refs0 rank bound fuel (rewriteNode fuel o).
Proof.
  induction fuel as [|fuel IH].
  - intros node st sh _ _ Hbudget. lia.
  - intros node st sh. simpl. by apply rewriteBody_total.
Qed.

Lemma rewriteRoots_total (fuel : nat) (sh : Shake.vars) :
  Forall (fun root => root < length (heap st0)) (Shake.roots o) ->
  Shake.refs sh = refs0 ->
  Shake.defs sh = None ->
  length refs0 * bound + bound < fuel ->
  exists roots st' sh',
    rewriteRoots fuel o st0 sh = Some (roots, (st', sh')).
Proof.
  intros Hroots Hrefs Hdefs Hfuel. unfold rewriteRoots.
  destruct (forEach_total
              (fun root (acc : list value * (State * Shake.vars)) =>
                 match rewriteNode fuel o (VObj root) acc.2.1 acc.2.2 with
                 | Some (v, s) => Some (acc.1 ++ [v], s)
                 | None => None
                 end)
              (fun acc : list value * (State * Shake.vars) =>
                 rewritable st0 refs0 acc.2.1 acc.2.2) (Shake.roots o))
    with (s := (@nil value, (st0, sh)))
    as ([roots [st' sh']] & Hrun & _); [| |by eauto].
  - intros root [acc [st1 sh1]] Hroot Hgood. simpl in *.
    destruct (rewriteNode_total fuel (VObj root) st1 sh1)
      as (v & st2 & sh2 & -> & Hgood2 & _); [done| |
    |by exists (acc ++ [v], (st2, sh2))].
    + simpl. by eapply Forall_forall in Hroots.
    + pose proof (rank_bounded _ _ _ shaped root) as Hrank.
      eapply Forall_forall in Hroots; [|exact Hroot].
      specialize (Hrank Hroots). unfold budget. simpl.
      assert ((length refs0 - length (keysOf sh1)) * bound
              <= length refs0 * bound)
        by (apply Nat.mul_le_mono_r; lia).
      lia.
  - simpl. split; [apply extendsHeap_refl|]. split; [done|]. split; [done|].
    split; [done|]. unfold keysOf. rewrite Hdefs. simpl.
    split; [constructor | apply list_subseteq_nil].
Qed.

End RewriteReturns.

Lemma rewriteRoots_length `{Host} (fuel : nat) (o : Shake.options) (st : State)
  (sh : Shake.vars) (roots : list value) (s : State * Shake.vars) :
  rewriteRoots fuel o st sh = Some (roots, s) ->
  length roots = length (Shake.roots o).
Proof.
  unfold rewriteRoots.
  assert (Hgen : forall l acc s0 roots' s',
            forEach
              (fun root (acc : list value * (State * Shake.vars)) =>
                 match rewriteNode fuel o (VObj root) acc.2.1 acc.2.2 with
                 | Some (v, s) => Some (acc.1 ++ [v], s)
                 | None => None
                 end) l (acc, s0) = Some (roots', s') ->
            length roots' = length acc + length l).
  { induction l as [|root l IH]; intros acc s0 roots' s'; simpl.
    - intros [= <- <-]. lia.
    - destruct (rewriteNode fuel o (VObj root) s0.1 s0.2) as [[v s1]|]; [|done].
      intros Hrun. apply IH in Hrun. rewrite length_app in Hrun. simpl in Hrun.
      lia. }
  intros Hrun. by apply Hgen in Hrun.
Qed.

Lemma treeShaped_bound (st : State) (rank : addr -> nat) (bound : nat) :
  treeShaped st rank bound ->
  treeShaped st (fun a => S (rank a)) (S (S bound)).
Proof.
  intros [Hcells Htargets Hrefs Hrank]. split; [|done..|].
  - intros a b Hb. destruct (Hcells a b Hb). split; [done|lia].
  - intros a Ha. specialize (Hrank a Ha). lia.
Qed.

(** X23.  Tree shaking returns on every context whose documents are
    trees or directed acyclic graphs, however the references between
    their nodes run, cycles included: with enough fuel
    [treeShakeReferences] gives a result, and it gives one rewritten root
    for each root it was given.  (A host where plain objects inherit
    [__proto__], as they do in ECMAScript, and a transform that leaves the
    input alone are assumed.) *)
Theorem treeShakeReferences_returns `{Host} (o : Shake.options) (st : State)
  (rank : addr -> nat) (bound : nat) :
  treeShaped st rank bound ->
  Forall (fun root => root < length (heap st)) (Shake.roots o) ->
  transformFrame (length (heap st)) o ->
  is_Some (objectProto "__proto__") ->
  exists enough,
    forall fuel, enough <= fuel ->
      exists out st',
        treeShakeReferences fuel o st = Some (out, st') /\
        length (Shake.outRoots out) = length (Shake.roots o).
Proof.
  intros Hshaped Hroots Htr Hproto.
  destruct (markRoots_total o st rank bound Hshaped (S (length (heap st)))
              Hroots (le_n _)) as (sh & Hmark & Hdefs).
  set (enough := Nat.max (S (length (heap st)))
                   (S (length (Shake.refs sh) * S (S bound) + S (S bound)))).
  assert (Hmark' : markRoots enough o st = Some sh).
  { revert Hmark. unfold markRoots. apply forEach_mono.
    intros root s s'. apply collectReferences_mono. unfold enough. lia. }
  destruct (rewriteRoots_total o st (Shake.refs sh) (fun a => S (rank a))
              (S (S bound)) (treeShaped_bound _ _ _ Hshaped) Htr Hproto
              ltac:(lia) (fun a => Nat.lt_0_succ _) enough sh Hroots eq_refl
              Hdefs)
    as (roots & st' & sh' & Hrw); [unfold enough; lia|].
  exists enough. intros fuel Hfuel.
  exists (Shake.mkOutput roots (Shake.defs sh')), st'. split.
  - apply (treeShakeReferences_mono enough fuel); [done|].
    unfold treeShakeReferences. by rewrite Hmark', Hrw.
  - simpl. by eapply rewriteRoots_length.
Qed.

Lemma cyclicState_shaped : treeShaped cyclicState (fun a => a) 6.
Proof.
  assert (Hrefs : Context.references (context cyclicState)
                  = Some {[1 := 0]}) by (vm_compute; reflexivity).
  assert (Hget : forall node r, getReference cyclicState node = Some r ->
                                node = VObj 1 /\ r = 0).
  { intros node r. unfold getReference. rewrite Hrefs.
    destruct node as [| | | |a|]; try done. simpl.
    intros Hr. apply lookup_singleton_Some in Hr as [<- <-]. done. }
  split.
  - assert (Hheap : heap cyclicState = cyclicHeap) by reflexivity.
    intros a b Hin. rewrite Hheap in Hin |- *. unfold values in Hin.
    do 6 (destruct a as [|a];
          [simpl in Hin;
           repeat (apply elem_of_cons in Hin as [Hin|Hin];
                   [try discriminate Hin; injection Hin as ->; simpl; lia|]);
           by apply elem_of_nil in Hin|]).
    simpl in Hin. by apply elem_of_nil in Hin.
  - intros node r target Hr Ht. apply Hget in Hr as [-> ->].
    vm_compute in Ht. injection Ht as <-. change (3 < 6). lia.
  - intros node r Hr. apply Hget in Hr as [-> ->]. change (0 < 1). lia.
  - done.
Qed.

(** X23, witness: the person that is its own friend. *)
Lemma treeShakeReferences_returns_witness :
  exists enough,
    forall fuel, enough <= fuel ->
      exists out st',
        treeShakeReferences fuel cyclicOptions cyclicState = Some (out, st') /\
        length (Shake.outRoots out) = 1.
Proof.
  apply (treeShakeReferences_returns cyclicOptions cyclicState (fun a => a) 6).
  - exact cyclicState_shaped.
  - repeat constructor.
  - intros f Hf. discriminate Hf.
  - by eexists.
Defined.

(** ** Detecting references *)

(** ** Tree shaking a graph that refers to itself *)

Lemma forEach_visits {A : Type} (body : A -> Shake.vars -> option Shake.vars)
  (item : A -> value) (I : Shake.vars -> Prop) (l : list A) :
  (forall x s s', x ∈ l -> I s -> body x s = Some s' ->
     I s' /\ Shake.visited s ⊆ Shake.visited s' /\
     forall b, item x = VObj b -> b ∈ Shake.visited s') ->
  forall s s', I s -> forEach body l s = Some s' ->
    I s' /\ Shake.visited s ⊆ Shake.visited s' /\
    forall x b, x ∈ l -> item x = VObj b -> b ∈ Shake.visited s'.
Proof.
  induction l as [|x l IH]; intros Hbody s s' Hs Hrun; simpl in Hrun.
  - injection Hrun as <-. split; [done|]. split; [done|].
    intros x b Hx. by apply elem_of_nil in Hx.
  - destruct (body x s) as [s1|] eqn:Hx; [|done].
    destruct (Hbody x s s1) as (Hs1 & Hsub1 & Hin1); [by left | done..|].
    destruct (IH (fun y t t' Hy => Hbody y t t' (list_elem_of_further _ _ _ Hy))
                s1 s' Hs1 Hrun) as (Hs' & Hsub' & Hin').
    split; [done|]. split; [by etrans|].
    intros y b Hy Hitem. apply elem_of_cons in Hy as [->|Hy].
    + by apply Hsub', Hin1.
    + by apply (Hin' y).
Qed.

Lemma descendant_child (h : Heap) (v : value) (a b : addr) :
  descendant h v (VObj a) -> VObj b ∈ values h a ->
  descendant h v (VObj b).
Proof.
  intros Hd Hb. remember (VObj a) as w eqn:Hw.
  induction Hd as [v|c child v Hchild Hd IH]; subst.
  - eapply descendant_below; [exact Hb|]. constructor.
  - eapply descendant_below; [exact Hchild|]. by apply IH.
Qed.

Section SelfReferential.
Context `{Host}.
Variables (o : Shake.options) (st : State) (target : addr).
Hypothesis self_referential : selfReferential o st target.

Lemma includesRoot_object (b : addr) :
  includesRoot (Shake.roots o) (VObj b) = true -> b ∈ Shake.roots o.
Proof. simpl. apply bool_decide_eq_true. Qed.

Lemma nameTarget_marked (fuel : nat) (open : gset addr) (a : addr) (r : rid)
  (sh sh' : Shake.vars) :
  reached o st a ->
  getReference st (VObj a) = Some r ->
  Reference.target (deref st r) = Some (VObj target) ->
  markedSo o st target open sh ->
  nameTarget fuel st r (VObj target) sh = Some sh' ->
  markedSo o st target open sh' /\
  Shake.visited sh' = Shake.visited sh /\
  Shake.refs sh' <> [].
Proof.
  intros Ha Hr Ht (Hdefs & Hrefs & Hnamed & Hclosed). unfold nameTarget.
  destruct (refsGet (VObj target) (Shake.refs sh)) as [n|] eqn:Hget.
  - intros [= <-]. split; [done|]. split; [done|].
    intros Hnil. by rewrite Hnil in Hget.
  - rewrite Hdefs. simpl. intros [= <-]. simpl.
    destruct Hrefs as [Hnil|(node & r0 & _ & _ & _ & Hone)].
    + rewrite Hnil. simpl. split; [|done].
      split; [done|]. split; [|split; [done|exact Hclosed]].
      right. by exists a, r.
    + rewrite Hone in Hget. simpl in Hget.
      by rewrite decide_True in Hget.
Qed.

Lemma collectReferences_marked (fuel : nat) :
  forall node open sh sh',
    (forall a, node = VObj a -> reached o st a) ->
    markedSo o st target open sh ->
    collectReferences fuel o st node sh = Some sh' ->
    markedSo o st target open sh' /\
    Shake.visited sh ⊆ Shake.visited sh' /\
    (forall a, node = VObj a -> a ∈ Shake.visited sh') /\
    (Shake.refs sh <> [] -> Shake.refs sh' <> []).
Proof.
  induction fuel as [|fuel IH]; intros node open sh sh' Hnode Hsh; [done|].
  simpl. unfold collectBody.
  destruct node as [| | | |a|];
    try (intros [= <-]; split; [done|]; split; [done|]; by split).
  specialize (Hnode a eq_refl).
  destruct (bool_decide (a ∈ Shake.visited sh)) eqn:Hvis.
  { apply bool_decide_eq_true in Hvis. intros [= <-].
    split; [done|]. split; [done|]. split; [|done]. by intros ? [= <-]. }
  apply bool_decide_eq_false in Hvis.
  set (sh0 := Shake.withVisited sh ({[a]} ∪ Shake.visited sh)).
  set (open' := {[a]} ∪ open).
  set (K := Shake.refs sh <> [] \/ targetOf st (VObj a) = Some (VObj target)).
  set (I := fun s : Shake.vars =>
              markedSo o st target open' s /\ (K -> Shake.refs s <> [])).
  assert (Hsh0 : markedSo o st target open' sh0).
  { destruct Hsh as (Hdefs & Hrefs & Hnamed & Hclosed).
    split; [done|]. split; [done|]. split.
    - intros x Hx Hopen. unfold sh0 in Hx. simpl in Hx.
      apply not_elem_of_union in Hopen as [Hxa Hxo].
      apply elem_of_union in Hx as [Hx|Hx]; [done|]. by apply (Hnamed x).
    - intros x b Hx Hopen Hsucc. unfold sh0 in Hx |- *. simpl in *.
      apply not_elem_of_union in Hopen as [Hxa Hxo].
      apply elem_of_union in Hx as [Hx|Hx]; [done|].
      apply elem_of_union. right. by apply (Hclosed x). }
  assert (Hmarked : forall sh1,
            match getReference st (VObj a) with
            | Some r =>
                match Reference.target (deref st r) with
                | Some t =>
                    if negb (includesRoot (Shake.roots o) t)
                    then nameTarget fuel st r t sh0
                           ≫= collectReferences fuel o st t
                    else Some sh0
                | None => Some sh0
                end
            | None => Some sh0
            end = Some sh1 ->
            I sh1 /\ Shake.visited sh0 ⊆ Shake.visited sh1 /\
            forall b, targetOf st (VObj a) = Some (VObj b) ->
                      b ∉ Shake.roots o -> b ∈ Shake.visited sh1).
  { intros sh1. unfold I, K, targetOf.
    destruct (getReference st (VObj a)) as [r|] eqn:Hr; simpl.
    2: { intros [= <-]. split; [|by split].
         split; [done|]. by intros [?|?]. }
    destruct (Reference.target (deref st r)) as [t|] eqn:Ht.
    2: { intros [= <-]. split; [|by split].
         split; [done|]. by intros [?|?]. }
    destruct (includesRoot (Shake.roots o) t) eqn:Hroot; simpl.
    { intros [= <-]. split; [split; [done|]|split; [done|]].
      - intros [?|[= ->]]; [done|].
        apply includesRoot_object in Hroot.
        by destruct (target_apart _ _ _ self_referential).
      - intros b [= ->] Hb. by apply includesRoot_object in Hroot. }
    destruct (target_only _ _ _ self_referential a t Hnode) as [->|Hin];
      [unfold targetOf; by rewrite Hr | | congruence].
    destruct (nameTarget fuel st r (VObj target) sh0) as [sh2|] eqn:Hname;
      [|done].
    simpl. intros Hrun.
    destruct (nameTarget_marked fuel open' a r sh0 sh2 Hnode Hr Ht Hsh0 Hname)
      as (Hsh2 & Hvis2 & Hne2).
    destruct (IH (VObj target) open' sh2 sh1) as (Hsh1 & Hsub1 & Hin1 & Hne1);
      [|done|done|].
    { intros b [= <-]. apply (reached_target o st a target Hnode).
      - unfold targetOf. by rewrite Hr.
      - by destruct self_referential. }
    split; [split; [done|]|split].
    - intros _. by apply Hne1.
    - by rewrite Hvis2 in Hsub1.
    - intros b [= <-] _. by apply Hin1. }
  destruct (match getReference st (VObj a) with Some _ => _ | None => _ end)
    as [sh1|] eqn:Hm; [|done].
  destruct (Hmarked sh1 eq_refl) as (Hsh1 & Hsub1 & Htarget1).
  simpl. intros Hrun.
  destruct (forEach_visits (collectReferences fuel o st) (fun v => v) I
              (values (heap st) a)) with (s := sh1) (s' := sh')
    as ([Hsh' Hne'] & Hsub' & Hin'); [|done|done|].
  { intros x s s' Hx [Hs Hne] Hstep.
    destruct (IH x open' s s') as (Hs' & Hsub & Hin & Hkeep); [|done|done|].
    { intros b ->. by apply (reached_child o st a b). }
    split; [split; [done|]|by split].
    intros HK. by apply Hkeep, Hne. }
  assert (Ha : a ∈ Shake.visited sh').
  { apply Hsub', Hsub1. unfold sh0. simpl.
    apply elem_of_union. left. by apply elem_of_singleton. }
  assert (Hopen' : forall x, x <> a -> x ∉ open -> x ∉ open').
  { intros x Hne Hx. apply not_elem_of_union.
    split; [by apply not_elem_of_singleton | done]. }
  destruct Hsh' as (Hdefs' & Hrefs' & Hnamed' & Hclosed').
  split; [|split; [|split]].
  - split; [done|]. split; [done|]. split.
    + intros x Hx Hopen Hto. destruct (decide (x = a)) as [->|Hne].
      * apply Hne'. by right.
      * apply (Hnamed' x); [done | by apply Hopen' | done].
    + intros x b Hx Hopen Hsucc. destruct (decide (x = a)) as [->|Hne].
      * destruct Hsucc as [Hchild|[Hto Hb]].
        -- by apply (Hin' (VObj b)).
        -- by apply Hsub', Htarget1.
      * apply (Hclosed' x); [done | by apply Hopen' | done].
  - etrans; [|exact Hsub']. etrans; [|exact Hsub1].
    unfold sh0. simpl. apply union_subseteq_r.
  - by intros ? [= <-].
  - intros Hne. apply Hne'. by left.
Qed.

Lemma reached_visited (sh : Shake.vars) :
  markedSo o st target ∅ sh ->
  (forall root, root ∈ Shake.roots o -> root ∈ Shake.visited sh) ->
  forall a, reached o st a -> a ∈ Shake.visited sh.
Proof.
  intros (_ & _ & _ & Hclosed) Hroots a Ha.
  induction Ha as [a Ha|a b Ha IH Hb|a b Ha IH Hto Hb].
  - by apply Hroots.
  - apply (Hclosed a b); [done | apply not_elem_of_empty | by left].
  - apply (Hclosed a b); [done | apply not_elem_of_empty | by right].
Qed.

Lemma markRoots_self (fuel : nat) (sh : Shake.vars) :
  markRoots fuel o st = Some sh ->
  Shake.defs sh = None /\
  exists node r,
    reached o st node /\ getReference st (VObj node) = Some r /\
    Reference.target (deref st r) = Some (VObj target) /\
    Shake.refs sh = [(VObj target, nameOfUri (Reference.uri (deref st r)))].
Proof.
  unfold markRoots. intros Hrun.
  destruct (forEach_visits
              (fun root => collectReferences fuel o st (VObj root)) VObj
              (markedSo o st target ∅) (Shake.roots o))
    with (s := Shake.mkVars ∅ [] None) (s' := sh)
    as (Hsh & _ & Hroots); [| |done|].
  { intros root s s' Hroot Hs Hstep.
    destruct (collectReferences_marked fuel (VObj root) ∅ s s')
      as (Hs' & Hsub & Hin & _); [|done|done|].
    { intros a [= <-]. by constructor. }
    split; [done|]. split; [done|]. intros b [= <-]. by apply Hin. }
  { split; [done|]. split; [by left|]. split.
    - intros a Ha. by apply elem_of_empty in Ha.
    - intros a b Ha. by apply elem_of_empty in Ha. }
  pose proof (reached_visited sh Hsh
                (fun root Hroot => Hroots root root Hroot eq_refl)) as Hall.
  destruct (target_referenced _ _ _ self_referential) as (node & Hnode & Hto).
  destruct Hsh as (Hdefs & Hrefs & Hnamed & _). split; [done|].
  destruct Hrefs as [Hnil|Hone]; [|done].
  destruct (Hnamed node);
    [by apply Hall | apply not_elem_of_empty | done | done].
Qed.

(** The first reference to the target on the way from a root is in the
    tree of the root. *)
Lemma reached_descendant (a : addr) :
  reached o st a ->
  (exists root, root ∈ Shake.roots o /\
                descendant (heap st) (VObj root) (VObj a)) \/
  (exists root, root ∈ Shake.roots o /\ ~ quiet st target (VObj root)).
Proof.
  intros Ha. induction Ha as [a Ha|a b Ha IH Hb|a b Ha IH Hto Hb].
  - left. exists a. split; [done | constructor].
  - destruct IH as [(root & Hroot & Hd)|?]; [|by right].
    left. exists root. split; [done|]. by eapply descendant_child.
  - destruct IH as [(root & Hroot & Hd)|?]; [|by right].
    right. exists root. split; [done|]. intros Hquiet.
    apply (Hquiet a Hd).
    destruct (target_only _ _ _ self_referential a (VObj b) Ha Hto)
      as [[= ->]|Hin]; [done|].
    by apply includesRoot_object in Hin.
Qed.

Lemma roots_not_quiet :
  exists root, root ∈ Shake.roots o /\ ~ quiet st target (VObj root).
Proof.
  destruct (target_referenced _ _ _ self_referential) as (node & Hnode & Hto).
  destruct (reached_descendant node Hnode) as [(root & Hroot & Hd)|?];
    [|done].
  exists root. split; [done|]. intros Hquiet. by apply (Hquiet node Hd).
Qed.

End SelfReferential.

(** *** The rewrite phase *)

Lemma grows_refl (st : State) : grows st st.
Proof. by split; [|split]. Qed.

Lemma grows_length (st st' : State) :
  grows st st' -> length (heap st) <= length (heap st').
Proof.
  intros (Hheap & _). destruct (decide (length (heap st) = 0)) as [|Hne];
    [lia|].
  destruct (lookup_lt_is_Some_2 (heap st) (length (heap st) - 1)) as [c Hc];
    [lia|].
  apply Hheap, lookup_lt_Some in Hc. lia.
Qed.

Lemma grows_trans (st1 st2 st3 : State) :
  grows st1 st2 -> grows st2 st3 -> grows st1 st3.
Proof.
  intros H12 H23. pose proof (grows_length _ _ H12) as Hlen.
  destruct H12 as (Hh1 & Hr1 & Ho1), H23 as (Hh2 & Hr2 & Ho2).
  split; [|split].
  - intros a c Ha. by apply Hh2, Hh1.
  - intros a Ha. rewrite Hr2 by lia. by apply Hr1.
  - intros r reference Hr. by apply Ho2, Ho1.
Qed.

Lemma grows_alloc (st : State) (c : Cell) : grows st (alloc st c).2.
Proof.
  split; [|split]; simpl; [|done..].
  intros a c' Ha. by apply lookup_app_l_Some.
Qed.

Lemma grows_relocated (st : State) (c : Cell) (reference : Reference.t) :
  grows st (registerRewritten (alloc st c).2 (length (heap st)) reference).
Proof.
  split; [|split]; simpl.
  - intros a c' Ha. by apply lookup_app_l_Some.
  - intros a Ha. rewrite lookup_insert_ne by lia.
    by destruct (Context.references (context st)).
  - intros r ref Hr. by apply lookup_app_l_Some.
Qed.

Lemma foldl_push {A : Type} (l : list A) :
  forall (vs acc : list value),
    length vs = length l ->
    foldl (fun b (xv : A * value) => b ++ [xv.2]) acc (zip l vs) = acc ++ vs.
Proof.
  induction l as [|x l IH]; intros [|v vs] acc Hlen; simpl in *; try done.
  - by rewrite app_nil_r.
  - rewrite IH by lia. by rewrite <- app_assoc.
Qed.

Lemma foldl_put (props : list (string * value)) :
  forall (vs : list value) (acc : list (string * value)),
    foldl (fun b (xv : string * value * value) => objSet xv.1.1 xv.2 b)
      acc (zip props vs)
    = foldl (fun b kv => objSet kv.1 kv.2 b) acc (zip props.*1 vs).
Proof.
  induction props as [|[k v0] props IH]; intros [|v vs] acc; simpl; done.
Qed.

Lemma defsStep_impl `{Host} (st : State) (target : addr) (uri name : string)
  (sh : Shake.vars) (s s' : State) (sh' : Shake.vars) (P Q : Prop) :
  defsStep st target uri name sh s sh' P ->
  grows s s' -> (P -> Q) ->
  defsStep st target uri name sh s' sh' Q.
Proof.
  intros (Hrefs & Hkept & Hnew) Hgrows HPQ.
  split; [done|]. split; [done|]. intros Hnone.
  destruct (Hnew Hnone) as [[Hnone' HP]|(def & Hdef & Hmade)].
  - left. split; [done | by apply HPQ].
  - right. exists def. split; [done|]. intros s'' Hs''.
    apply Hmade. by eapply grows_trans.
Qed.

Lemma primitive_quiet (st : State) (target : addr) (v : value) :
  (forall a, v <> VObj a) -> quiet st target v.
Proof. intros Hv a Hd. inversion Hd; subst; by destruct (Hv _ eq_refl). Qed.

Section Rewriting.
Context `{Host}.
Variables (o : Shake.options) (st : State) (rank : addr -> nat) (bound : nat).
Variables (target : addr) (name : string).
Hypothesis shaped : treeShaped st rank bound.
Hypothesis no_transform : Shake.transform o = None.
Hypothesis name_own : objectProto name = None.
Hypothesis name_plain : name <> "__proto__".


Lemma deref_grows (s : State) (a : addr) (r : rid) :
  grows st s -> getReference st (VObj a) = Some r ->
  deref s r = deref st r.
Proof.
  intros (_ & _ & Hobjs) Hr.
  pose proof (references_allocated _ _ _ shaped _ _ Hr) as Hlt.
  destruct (lookup_lt_is_Some_2 (referenceObjs st) r Hlt) as [ref Href].
  unfold deref. by rewrite (Hobjs r ref Href), Href.
Qed.

Lemma refNameOf_self (s : State) (sh : Shake.vars) (a : addr) :
  grows st s -> a < length (heap st) ->
  Shake.refs sh = [(VObj target, name)] ->
  match refNameOf s sh (VObj a) with
  | Some (r, t, n) =>
      getReference st (VObj a) = Some r /\
      Reference.target (deref st r) = Some (VObj target) /\
      t = VObj target /\ n = name
  | None => targetOf st (VObj a) <> Some (VObj target)
  end.
Proof.
  intros Hgrows Ha Hrefs. unfold refNameOf, targetOf.
  destruct Hgrows as (Hh & Hr & Ho). rewrite (Hr a Ha).
  destruct (getReference st (VObj a)) as [r|] eqn:Hget; [|done].
  rewrite (deref_grows s a r (conj Hh (conj Hr Ho)) Hget). simpl.
  destruct (Reference.target (deref st r)) as [t|] eqn:Ht; [|done].
  rewrite Hrefs. simpl.
  destruct (decide (VObj target = t)) as [<-|Hne]; [done|].
  intros [= ->]. done.
Qed.

Lemma children_rewritten {A B : Type}
  (self : value -> State -> Shake.vars -> rewriting)
  (step : A -> B -> value -> B) (item : A -> value) (l : list A) :
  rewritesAs st target (relocatedUri o name) name self ->
  (forall x, x ∈ l -> oldValue (length (heap st)) (item x)) ->
  forall s sh acc acc' s' sh',
    grows st s ->
    Shake.refs sh = [(VObj target, name)] ->
    (Shake.defs sh = None \/ exists x, Shake.defs sh = Some [(name, x)]) ->
    forEach
      (fun x (s : B * (State * Shake.vars)) =>
         match rewriteChild self (item x) s.2 with
         | Some (v, s') => Some (step x s.1 v, s')
         | None => None
         end) l (acc, (s, sh)) = Some (acc', (s', sh')) ->
    grows s s' /\
    (exists vs,
       acc' = foldl (fun b (xv : A * value) => step xv.1 b xv.2) acc (zip l
           vs) /\
       length vs = length l /\
       forall s'', grows s' s'' ->
         Forall2 (fun x v => rewritten st s'' target (relocatedUri o name)
             (item x) v) l vs) /\
    defsStep st target (relocatedUri o name) name sh s' sh'
      (forall x, x ∈ l -> quiet st target (item x)).
Proof.
  intros Hself. induction l as [|x l IH];
    intros Hold s sh acc acc' s' sh' Hgrows Hrefs Hphase Hrun;
    simpl in Hrun.
  { injection Hrun as <- <- <-. split; [apply grows_refl|]. split.
    - exists []. split; [done|]. split; [done|]. intros s'' _. constructor.
    - split; [done|]. split; [done|]. intros Hnone. left. split; [done|].
      intros x Hx. by apply elem_of_nil in Hx. }
  destruct (rewriteChild self (item x) (s, sh)) as [[v [s1 sh1]]|] eqn:Hchild;
    [|done].
  assert (Hx : grows s s1 /\
               (forall s'', grows s1 s'' ->
                  rewritten st s'' target (relocatedUri o name) (item x) v) /\
               defsStep st target (relocatedUri o name) name sh s1 sh1
                 (quiet st target (item x))).
  { unfold rewriteChild in Hchild.
    destruct (isObject (item x)) eqn:Hobj.
    - apply (Hself (item x) s sh v s1 sh1); [done| |done..].
      apply Hold. by left.
    - injection Hchild as <- <- <-. split; [apply grows_refl|]. split.
      + intros s'' _. by apply rewritten_primitive.
      + split; [done|]. split; [done|]. intros Hnone. left. split; [done|].
        apply primitive_quiet. intros a Ha. by rewrite Ha in Hobj. }
  destruct Hx as (Hgrows1 & Hmade1 & Hrefs1 & Hkept1 & Hnew1).
  assert (Hphase1 : Shake.defs sh1 = None \/
                    exists y, Shake.defs sh1 = Some [(name, y)]).
  { destruct Hphase as [Hnone|[y Hy]].
    - destruct (Hnew1 Hnone) as [[? _]|(def & ? & _)]; [by left|].
      right. by eexists.
    - right. exists y. by apply Hkept1. }
  destruct (IH (fun y Hy => Hold y (list_elem_of_further _ _ _ Hy))
              s1 sh1 (step x acc v) acc' s' sh')
    as (Hgrows' & (vs & Hacc & Hlen & Hmade') & Hrefs' & Hkept' & Hnew');
    [by eapply grows_trans | congruence | done | done |].
  split; [by eapply grows_trans|]. split.
  - exists (v :: vs). split; [done|]. split; [simpl; lia|].
    intros s'' Hs''. constructor; [|by apply Hmade'].
    apply Hmade1. by eapply grows_trans.
  - split; [congruence|]. split.
    + intros y Hy. by apply Hkept', Hkept1.
    + intros Hnone.
      destruct (Hnew1 Hnone) as [[Hnone1 Hquiet]|(def & Hdef & Hmade)].
      * destruct (Hnew' Hnone1) as [[Hnone' Hquiet']|?]; [|by right].
        left. split; [done|]. intros y Hy.
        apply elem_of_cons in Hy as [->|Hy]; [done | by apply Hquiet'].
      * right. exists def. split; [by apply Hkept'|].
        intros s'' Hs''. apply Hmade. by eapply grows_trans.
Qed.

Lemma structure_quiet (a : addr) :
  targetOf st (VObj a) <> Some (VObj target) ->
  (forall x, x ∈ values (heap st) a -> quiet st target x) ->
  quiet st target (VObj a).
Proof.
  intros Hplain Hitems b Hd. inversion Hd as [|a' child v Hchild Hbelow]; subst.
  - done.
  - by apply (Hitems child).
Qed.

Lemma rewriteStructure_rewritten
  (self : value -> State -> Shake.vars -> rewriting) :
  rewritesAs st target (relocatedUri o name) name self ->
  forall a s sh v s' sh',
    grows st s ->
    a < length (heap st) ->
    targetOf st (VObj a) <> Some (VObj target) ->
    Shake.refs sh = [(VObj target, name)] ->
    (Shake.defs sh = None \/ exists x, Shake.defs sh = Some [(name, x)]) ->
    rewriteStructure self (VObj a) s sh = Some (v, (s', sh')) ->
    grows s s' /\
    (forall s'', grows s' s'' -> rewritten st s'' target (relocatedUri o name)
        (VObj a) v) /\
    defsStep st target (relocatedUri o name) name sh s' sh' (quiet st target
        (VObj a)).
Proof.
  intros Hself a s sh v s' sh' Hgrows Ha Hplain Hrefs Hphase.
  unfold rewriteStructure.
  destruct (lookup_lt_is_Some_2 (heap st) a Ha) as [cell Hcell].
  rewrite (proj1 Hgrows a cell Hcell). simpl.
  assert (Hclosed : forall x, x ∈ values (heap st) a ->
                      oldValue (length (heap st)) x).
  { intros [| | | |b|] Hx; try done. simpl.
    by apply (cells_closed _ _ _ shaped a b). }
  destruct cell as [items|props].
  - unfold rewriteArray.
    destruct (forEach _ items ([], (s, sh))) as [[result [s1 sh1]]|] eqn:Hrun;
      [|done].
    intros [= <- <- <-].
    destruct (children_rewritten self (fun _ acc v => acc ++ [v])
                (fun x => x) items Hself) with (s := s) (sh := sh)
                (acc := @nil value) (acc' := result) (s' := s1) (sh' := sh1)
      as (Hgrows1 & (vs & Hacc & Hlen & Hmade) & Hstep); [|done..|].
    { intros x Hx. apply Hclosed. unfold values. by rewrite Hcell. }
    rewrite (foldl_push items vs [] Hlen) in Hacc. simpl in Hacc. subst result.
    pose proof (grows_alloc s1 (Arr vs)) as Halloc.
    split; [by eapply grows_trans|]. split.
    + intros s'' Hs''.
      apply (rewritten_array st s'' target (relocatedUri o name) a items _ vs);
        [done | done | |].
      * apply (proj1 Hs''). simpl. by apply list_lookup_middle.
      * apply Hmade. by eapply grows_trans.
    + eapply defsStep_impl; [exact Hstep | exact Halloc |].
      intros Hquiet. apply structure_quiet; [done|].
      unfold values. by rewrite Hcell.
  - unfold rewriteObject.
    destruct (forEach _ props ([], (s, sh))) as [[result [s1 sh1]]|] eqn:Hrun;
      [|done].
    intros [= <- <- <-].
    destruct (children_rewritten self
                (fun (kv : string * value) acc v => objSet kv.1 v acc)
                (fun kv => kv.2) props Hself) with (s := s) (sh := sh)
                (acc := @nil (string * value)) (acc' := result)
                (s' := s1) (sh' := sh1)
      as (Hgrows1 & (vs & Hacc & Hlen & Hmade) & Hstep); [|done..|].
    { intros x Hx. apply Hclosed. unfold values. rewrite Hcell.
      by apply list_elem_of_fmap_2. }
    rewrite foldl_put in Hacc. subst result.
    pose proof (grows_alloc s1 (Obj (fromEntries (zip props.*1 vs))))
      as Halloc.
    split; [by eapply grows_trans|]. split.
    + intros s'' Hs''.
      apply (rewritten_object st s'' target (relocatedUri o name) a props _
               (zip props.*1 vs)); [done | done | |].
      * apply (proj1 Hs''). simpl. by apply list_lookup_middle.
      * assert (Hall : Forall2
                  (fun (kv : string * value) v =>
                     rewritten st s'' target (relocatedUri o name) kv.2 v)
                         props vs)
          by (apply Hmade; by eapply grows_trans).
        clear -Hall. induction Hall as [|kv v props vs Hkv Hall IH];
          simpl; constructor; [by split | done].
    + eapply defsStep_impl; [exact Hstep | exact Halloc |].
      intros Hquiet. apply structure_quiet; [done|].
      unfold values. rewrite Hcell. intros x Hx.
      apply list_elem_of_fmap in Hx as (kv & -> & Hkv). by apply Hquiet.
Qed.

Lemma relocate_rewritten
  (self : value -> State -> Shake.vars -> rewriting) :
  rewritesAs st target (relocatedUri o name) name self ->
  forall a r s sh v s' sh',
    grows st s ->
    getReference st (VObj a) = Some r ->
    Reference.target (deref st r) = Some (VObj target) ->
    Shake.refs sh = [(VObj target, name)] ->
    (Shake.defs sh = None \/ exists x, Shake.defs sh = Some [(name, x)]) ->
    relocate self o r (VObj target) name s sh = Some (v, (s', sh')) ->
    grows s s' /\
    (forall s'', grows s' s'' -> rewritten st s'' target (relocatedUri o name)
        (VObj a) v) /\
    defsStep st target (relocatedUri o name) name sh s' sh' (quiet st target
        (VObj a)).
Proof.
  intros Hself a r s sh v s' sh' Hgrows Hr Ht Hrefs Hphase.
  assert (Hmade : forall s1 sh1,
            grows st s1 ->
            let cell := Obj [(Reference.key (deref s1 r), VStr (relocatedUri o
                name))] in
            let reference :=
              Reference.mk (Reference.key (deref s1 r)) (relocatedUri o name)
                (defsGet name (default [] (Shake.defs sh1))) in
            let s2 := registerRewritten (alloc s1 cell).2 (length (heap s1))
                        reference in
            forall s'', grows s2 s'' ->
              rewritten st s'' target (relocatedUri o name) (VObj a) (VObj
                  (length (heap s1)))).
  { intros s1 sh1 Hs1 cell reference s2 s'' Hs''.
    pose proof (deref_grows s1 a r Hs1 Hr) as Hderef.
    apply (rewritten_reference st s'' target (relocatedUri o name) a r (length
        (heap s1))
             (length (referenceObjs s1)) reference); [done | done | ..].
    - apply (proj1 Hs''). unfold s2, cell. simpl. rewrite Hderef.
      by apply list_lookup_middle.
    - rewrite (proj1 (proj2 Hs'')).
      + unfold s2. simpl. by rewrite lookup_insert_eq.
      + unfold s2. simpl. rewrite length_app. simpl. lia.
    - apply (proj2 (proj2 Hs'')). unfold s2. simpl.
      by apply list_lookup_middle.
    - unfold reference. simpl. by rewrite Hderef.
    - done. }
  assert (Hne : String.eqb name "__proto__" = false)
    by (by apply String.eqb_neq).
  unfold relocate. destruct Hphase as [Hnone|[x Hx]].
  - rewrite Hnone. simpl. unfold inDefs. simpl. rewrite name_own. simpl.
    unfold objSet at 1. rewrite Hne. simpl.
    set (sh0 := Shake.withDefs sh (Some [(name, None)])).
    destruct (self (VObj target) s sh0) as [[def [s1 sh1]]|] eqn:Hdef;
      [|done].
    destruct (Hself (VObj target) s sh0 def s1 sh1)
      as (Hgrows1 & Hdefined & Hrefs1 & Hkept1 & _); [done| |done| |done|].
    { by apply (targets_closed _ _ _ shaped (VObj a) r). }
    { right. by eexists. }
    rewrite (Hkept1 None eq_refl). simpl.
    unfold objSet. rewrite Hne. simpl. rewrite String.eqb_refl.
    intros [= <- <- <-].
    pose proof (grows_relocated s1
                  (Obj [(Reference.key (deref s1 r), VStr (relocatedUri o
                      name))])
                  (Reference.mk (Reference.key (deref s1 r)) (relocatedUri o
                      name)
                     (defsGet name [(name, Some def)]))) as Hlast.
    split; [by eapply grows_trans|]. split.
    + apply (Hmade s1 (Shake.withDefs sh1 (Some [(name, Some def)]))).
      by eapply grows_trans.
    + split; [exact Hrefs1|]. split; [intros y Hy; congruence|].
      intros _. right. exists def. split; [done|].
      intros s'' Hs''. apply Hdefined.
      eapply grows_trans; [exact Hlast | exact Hs''].
  - rewrite Hx. simpl. unfold inDefs. simpl. rewrite String.eqb_refl. simpl.
    intros [= <- <- <-]. split; [apply grows_relocated|]. split.
    + apply (Hmade s (Shake.withDefs sh (Some [(name, x)]))). done.
    + split; [done|]. split; [|congruence].
      intros y Hy. simpl. congruence.
Qed.

Lemma rewriteBody_rewritten
  (self : value -> State -> Shake.vars -> rewriting) :
  rewritesAs st target (relocatedUri o name) name self ->
  rewritesAs st target (relocatedUri o name) name (rewriteBody self o).
Proof.
  intros Hself node s sh v s' sh' Hgrows Hold Hrefs Hphase.
  unfold rewriteBody, applyTransform. rewrite no_transform.
  assert (Hplain : forall w s1 sh1,
            isObject w = false -> (forall a, w <> VObj a) ->
            grows s1 s1 /\
            (forall s'', grows s1 s'' ->
               rewritten st s'' target (relocatedUri o name) w w) /\
            defsStep st target (relocatedUri o name) name sh1 s1 sh1
              (quiet st target w)).
  { intros w s1 sh1 Hw Hnot. split; [apply grows_refl|].
    split; [intros s'' _; by apply rewritten_primitive|].
    split; [done|]. split; [done|]. intros Hnone. left. split; [done|].
    by apply primitive_quiet. }
  destruct node as [| |n|str|a|host];
    try (simpl; intros [= <- <- <-]; by apply Hplain).
  2: { simpl. pose proof (Hplain (VHost host) s sh) as Hfunction.
       simpl in Hfunction.
       destruct (hostTypeOf host) eqn:Htype; simpl; intros [= <- <- <-].
       - by apply Hfunction.
       - split; [apply grows_alloc|]. split.
         + intros s'' Hs''. apply rewritten_host; simpl; rewrite Htype; [done|].
           apply (proj1 Hs''). simpl. by apply list_lookup_middle.
         + split; [done|]. split; [done|]. intros Hnone. left.
           split; [done|]. by apply primitive_quiet.
       - split; [apply grows_alloc|]. split.
         + intros s'' Hs''. apply rewritten_host; simpl; rewrite Htype; [done|].
           apply (proj1 Hs''). simpl. by apply list_lookup_middle.
         + split; [done|]. split; [done|]. intros Hnone. left.
           split; [done|]. by apply primitive_quiet. }
  simpl in Hold.
  pose proof (refNameOf_self s sh a Hgrows Hold Hrefs) as Hname.
  destruct (refNameOf s sh (VObj a)) as [[[r t] n]|].
  - destruct Hname as (Hr & Ht & -> & ->).
    destruct (relocate self o r (VObj target) name s sh)
      as [[v1 [s1 sh1]]|] eqn:Hrun; [|done].
    simpl. intros [= <- <- <-].
    by apply (relocate_rewritten self Hself a r s sh).
  - destruct (rewriteStructure self (VObj a) s sh)
      as [[v1 [s1 sh1]]|] eqn:Hrun; [|done].
    simpl. intros [= <- <- <-].
    by apply (rewriteStructure_rewritten self Hself a s sh).
Qed.

Lemma rewriteNode_rewritten (fuel : nat) :
  rewritesAs st target (relocatedUri o name) name (rewriteNode fuel o).
Proof.
  induction fuel as [|fuel IH]; [by intros node s sh v s' sh' _ _ _ _|].
  simpl. by apply rewriteBody_rewritten.
Qed.

Lemma rewriteRoots_rewritten (fuel : nat) (sh : Shake.vars)
  (roots : list value) (s' : State) (sh' : Shake.vars) :
  Forall (fun root => root < length (heap st)) (Shake.roots o) ->
  Shake.refs sh = [(VObj target, name)] ->
  Shake.defs sh = None ->
  rewriteRoots fuel o st sh = Some (roots, (s', sh')) ->
  Forall2 (rewritten st s' target (relocatedUri o name)) (VObj <$> Shake.roots
      o) roots /\
  ((Shake.defs sh' = None /\
    forall root, root ∈ Shake.roots o -> quiet st target (VObj root)) \/
   exists def,
     Shake.defs sh' = Some [(name, Some def)] /\
     rewritten st s' target (relocatedUri o name) (VObj target) def).
Proof.
  intros Hroots Hrefs Hnone Hrun.
  destruct (children_rewritten (rewriteNode fuel o)
              (fun (_ : addr) acc v => acc ++ [v]) VObj (Shake.roots o)
              (rewriteNode_rewritten fuel))
    with (s := st) (sh := sh) (acc := @nil value) (acc' := roots)
         (s' := s') (sh' := sh')
    as (_ & (vs & Hacc & Hlen & Hmade) & _ & _ & Hnew);
    [|apply grows_refl|done|by left|exact Hrun|].
  { intros root Hroot. simpl. by eapply Forall_forall in Hroots. }
  rewrite (foldl_push (Shake.roots o) vs [] Hlen) in Hacc. simpl in Hacc.
  subst roots. split.
  - apply Forall2_fmap_l. apply Hmade, grows_refl.
  - destruct (Hnew Hnone) as [?|(def & Hdef & Hdefined)]; [by left|].
    right. exists def. split; [done|]. apply Hdefined, grows_refl.
Qed.

End Rewriting.

(** C7 (amended).  On a graph that refers to itself in one node, tree
    shaking returns and stores exactly one definition.  The documents are
    trees or directed acyclic graphs when references are left aside, there
    is no transform, and plain objects inherit [__proto__].  [target] is
    not a root; some reference that the walk from the roots reaches points
    to it, and every resolved reference that the walk reaches points to it
    or to a root; the last segment of the URI of such a reference is not
    the name of an inherited property.  Then, with enough fuel,
    [treeShakeReferences] gives a result whose definitions have exactly
    one entry.  Its name is the last segment of the URI of a reference to
    [target].  Its value is what the rewrite phase makes of [target]: every
    reference to [target] in it, such as the friend of the person, is a new
    object whose only property is the keyword of the reference with the
    name under the definitions URI, registered as a reference with that
    URI.  The roots are rewritten in the same way. *)
Theorem treeShakeReferences_self_referential `{Host} (o : Shake.options)
  (st : State) (rank : addr -> nat) (bound : nat) (target : addr) :
  treeShaped st rank bound ->
  Forall (fun root => root < length (heap st)) (Shake.roots o) ->
  Shake.transform o = None ->
  is_Some (objectProto "__proto__") ->
  selfReferential o st target ->
  exists enough,
    forall fuel, enough <= fuel ->
      exists out st' name def,
        treeShakeReferences fuel o st = Some (out, st') /\
        Shake.outDefs out = Some [(name, Some def)] /\
        (exists node r,
           reached o st node /\ getReference st (VObj node) = Some r /\
           Reference.target (deref st r) = Some (VObj target) /\
           name = nameOfUri (Reference.uri (deref st r))) /\
        rewritten st st' target (relocatedUri o name) (VObj target) def /\
        Forall2 (rewritten st st' target (relocatedUri o name))
          (VObj <$> Shake.roots o) (Shake.outRoots out).
Proof.
  intros Hshaped Hroots Hnone Hproto Hself.
  destruct (markRoots_total o st rank bound Hshaped (S (length (heap st)))
              Hroots (le_n _)) as (sh & Hmark & Hdefs).
  set (enough := Nat.max (S (length (heap st)))
                   (S (length (Shake.refs sh) * S (S bound) + S (S bound)))).
  assert (Hmark' : markRoots enough o st = Some sh).
  { revert Hmark. unfold markRoots. apply forEach_mono.
    intros root s s'. apply collectReferences_mono. unfold enough. lia. }
  assert (Htr : transformFrame (length (heap st)) o)
    by (intros f Hf; congruence).
  destruct (rewriteRoots_total o st (Shake.refs sh) (fun a => S (rank a))
              (S (S bound)) (treeShaped_bound _ _ _ Hshaped) Htr Hproto
              ltac:(lia) (fun a => Nat.lt_0_succ _) enough sh Hroots eq_refl
              Hdefs)
    as (roots & st' & sh' & Hrw); [unfold enough; lia|].
  destruct (markRoots_self o st target Hself enough sh Hmark')
    as (_ & node & r & Hnode & Hr & Ht & Hrefs).
  set (name := nameOfUri (Reference.uri (deref st r))) in *.
  assert (Hown : objectProto name = None)
    by (by apply (names_own _ _ _ Hself node r)).
  assert (Hplain : name <> "__proto__").
  { intros Heq. destruct Hproto as [x Hx]. rewrite Heq in Hown. congruence. }
  destruct (rewriteRoots_rewritten o st rank bound target name Hshaped Hnone
              Hown Hplain enough sh roots st' sh' Hroots Hrefs Hdefs Hrw)
    as [Hrewritten [[_ Hquiet]|(def & Hdef & Hmade)]].
  { destruct (roots_not_quiet o st target Hself) as (root & Hroot & Hnot).
    destruct Hnot. by apply Hquiet. }
  exists enough. intros fuel Hfuel.
  exists (Shake.mkOutput roots (Shake.defs sh')), st', name, def.
  split; [|split; [done|split; [by exists node, r|by split]]].
  apply (treeShakeReferences_mono enough fuel); [done|].
  unfold treeShakeReferences. by rewrite Hmark', Hrw.
Qed.

Lemma cyclicState_reference (node : value) (r : rid) :
  getReference cyclicState node = Some r -> node = VObj 1 /\ r = 0.
Proof.
  assert (Hrefs : Context.references (context cyclicState)
                  = Some {[1 := 0]}) by (vm_compute; reflexivity).
  unfold getReference. rewrite Hrefs.
  destruct node as [| | | |a|]; try done. simpl.
  intros Hr. apply lookup_singleton_Some in Hr as [<- <-]. done.
Qed.

Lemma cyclicState_selfReferential : selfReferential cyclicOptions cyclicState 3.
Proof.
  assert (Hto : forall node t, targetOf cyclicState (VObj node) = Some t ->
                               node = 1 /\ t = VObj 3).
  { intros node t. unfold targetOf.
    destruct (getReference cyclicState (VObj node)) as [r|] eqn:Hr; [|done].
    apply cyclicState_reference in Hr as [[= ->] ->].
    vm_compute. by intros [= <-]. }
  split.
  - intros Hin. apply list_elem_of_singleton in Hin. discriminate Hin.
  - exists 1. split; [|vm_compute; reflexivity].
    apply (reached_child _ _ 2); [|vm_compute; repeat constructor].
    apply (reached_child _ _ 3); [|vm_compute; repeat constructor].
    apply (reached_child _ _ 4); [|vm_compute; repeat constructor].
    apply (reached_child _ _ 5); [|vm_compute; repeat constructor].
    apply reached_root. by left.
  - intros node t _ Ht. left. by apply Hto in Ht as [_ ->].
  - intros node r _ Hr _. apply cyclicState_reference in Hr as [_ ->].
    vm_compute. reflexivity.
Qed.

(** C7, witness: the person that is its own friend, under the [$defs]
    of the root. *)
Lemma treeShakeReferences_self_referential_witness :
  selfReferential cyclicOptions cyclicState 3 /\
  exists enough,
    forall fuel, enough <= fuel ->
      exists out st' def,
        treeShakeReferences fuel cyclicOptions cyclicState = Some (out, st') /\
        Shake.outDefs out = Some [("person", Some def)] /\
        rewritten cyclicState st' 3 "#/components/schemas/person"
          (VObj 3) def.
Proof.
  split; [exact cyclicState_selfReferential|].
  destruct (treeShakeReferences_self_referential cyclicOptions cyclicState
              (fun a => a) 6 3 cyclicState_shaped) as [enough Hrun].
  - repeat constructor.
  - reflexivity.
  - by eexists.
  - exact cyclicState_selfReferential.
  - exists enough. intros fuel Hfuel.
    destruct (Hrun fuel Hfuel)
      as (out & st' & name & def & Hout & Hdefs & Hname & Hmade & _).
    destruct Hname as (node & r & _ & Hr & _ & Hname).
    apply cyclicState_reference in Hr as [_ ->].
    assert (Hperson : name = "person") by (rewrite Hname; reflexivity).
    subst name. by exists out, st', def.
Defined.

(** C7, counterexample.  Two graphs with a cycle through a reference.
    The person that is its own friend, tree-shaken with the person among
    the roots: whatever the fuel, a result has no definitions at all.  Two
    persons that are each other's friend: whatever the fuel, a result has
    two definitions. *)
Lemma treeShakeReferences_cycles :
  is_Some (treeShakeReferences 9 rootedOptions cyclicState) /\
  (forall fuel out st',
     treeShakeReferences fuel rootedOptions cyclicState = Some (out, st') ->
     Shake.outDefs out = None) /\
  is_Some (treeShakeReferences 9 pairOptions pairState) /\
  (forall fuel out st',
     treeShakeReferences fuel pairOptions pairState = Some (out, st') ->
     Shake.outDefs out
       = Some [("bob", Some (VObj 9)); ("alice", Some (VObj 7))]).
Proof.
  assert (Hany : forall o st defs,
            Shake.outDefs ∘ fst <$> treeShakeReferences 9 o st = Some defs ->
            forall fuel out st',
              treeShakeReferences fuel o st = Some (out, st') ->
              Shake.outDefs out = defs).
  { intros o st defs Hnine fuel out st' Hrun.
    destruct (treeShakeReferences 9 o st) as [[out9 st9]|] eqn:H9; [|done].
    injection Hnine as <-.
    destruct (le_ge_dec fuel 9) as [Hle|Hge].
    - apply (treeShakeReferences_mono fuel 9) in Hrun; [|done]. congruence.
    - apply (treeShakeReferences_mono 9 fuel) in H9; [|done]. congruence. }
  split; [|split; [|split]].
  - vm_compute. by eexists.
  - apply Hany. vm_compute. reflexivity.
  - vm_compute. by eexists.
  - apply Hany. vm_compute. reflexivity.
Qed.
Lemma registersOnly_refl (st : State) : registersOnly st st.
Proof. by split; [|split]. Qed.

Lemma registersOnly_trans (st1 st2 st3 : State) :
  registersOnly st1 st2 -> registersOnly st2 st3 -> registersOnly st1 st3.
Proof.
  intros (Hh & Hs & Hr) (Hh' & Hs' & Hr').
  split; [congruence|]. split; [congruence|]. auto.
Qed.

Lemma registerReference_registersOnly (st : State) (node : addr)
  (key uri : string) :
  registersOnly st (registerReference st node key uri).2 /\
  is_Some (getReference (registerReference st node key uri).2 (VObj node)).
Proof.
  destruct (getReference st (VObj node)) as [r|] eqn:Hget.
  - assert (Hsame : registerReference st node key uri = (r, st)).
    { unfold registerReference. unfold getReference in Hget.
      by rewrite Hget. }
    rewrite Hsame. split; [apply registersOnly_refl|]. cbn [snd].
    rewrite Hget. by eexists.
  - unfold registerReference. unfold getReference in Hget. rewrite Hget.
    simpl. split.
    + split; [done|]. split; [done|].
      intros other r. unfold getReference. destruct other as [| | | |a|];
        try done.
      simpl. intros Ha.
      rewrite lookup_insert_ne by (intros ->; congruence).
      by destruct (Context.references (context st)).
    + unfold getReference. simpl. rewrite lookup_insert_eq. by eexists.
Qed.

Lemma forEachUntil_chain {A : Type}
  (body : A -> State -> option (completion unit * State)) (l : list A)
  (R : State -> State -> Prop) (P : A -> State -> Prop) (st0 : State) :
  (forall s, R s s) ->
  (forall s1 s2 s3, R s1 s2 -> R s2 s3 -> R s1 s3) ->
  (forall x s s', P x s -> R s s' -> P x s') ->
  (forall x s c s', x ∈ l -> R st0 s -> body x s = Some (c, s') ->
     R s s' /\ (c = Normal tt -> P x s')) ->
  forall st c st',
    R st0 st ->
    forEachUntil body l st = Some (c, st') ->
    R st st' /\ (c = Normal tt -> forall x, x ∈ l -> P x st').
Proof.
  intros Hrefl Htrans Hmono.
  induction l as [|x l IH]; intros Hbody st c st' Hst.
  - simpl. intros [= <- <-]. split; [done|].
    intros _ y Hy. by apply elem_of_nil in Hy.
  - simpl. destruct (body x st) as [[[[]|e] s1]|] eqn:Hx; [| |done].
    + destruct (Hbody x st (Normal tt) s1) as [Hr Hp]; [by left | done.. |].
      intros Hrun.
      apply IH in Hrun as [Hr' Hp'].
      * split; [by eapply Htrans|]. intros Hc y Hy.
        apply elem_of_cons in Hy as [->|Hy]; [|by apply Hp'].
        eapply Hmono; [by apply Hp | done].
      * intros y s c' s' Hy. apply Hbody. by right.
      * by eapply Htrans.
    + intros [= <- <-].
      destruct (Hbody x st (Throw e) s1) as [Hr _]; [by left | done.. |].
      done.
Qed.

Lemma forEachUntil_total {A : Type}
  (body : A -> State -> option (completion unit * State)) (l : list A)
  (I : State -> Prop) :
  (forall x s, x ∈ l -> I s -> exists c s', body x s = Some (c, s') /\ I s') ->
  forall st, I st ->
    exists c st', forEachUntil body l st = Some (c, st') /\ I st'.
Proof.
  induction l as [|x l IH]; intros Hbody st Hst; simpl; [by eauto|].
  destruct (Hbody x st) as (c & s1 & -> & Hs1); [by left | done |].
  destruct c as [[]|e]; [|by eauto].
  apply IH; [|done]. intros y s Hy. apply Hbody. by right.
Qed.

Lemma imap_values {K : Type} (f : nat -> K) (l : list value) :
  (imap (fun i item => (f i, item)) l).*2 = l.
Proof.
  revert f. induction l as [|x l IH]; intros f; [done|].
  simpl. f_equal. apply (IH (f ∘ S)).
Qed.

Lemma childEntries_values (h : Heap) (a : addr) :
  (childEntries h a).*2 = values h a.
Proof.
  unfold childEntries, values. destruct (h !! a) as [[items|props]|]; [| |done].
  - apply imap_values.
  - by rewrite <- list_fmap_compose.
Qed.

Section Detect.
Context `{Host} `{UriLibrary}.
Variable keys : list string.

Lemma detectReference_registersOnly (st : State) (node : value)
  (key : string) :
  registersOnly st (detectReference st node key).2 /\
  (forall r uri,
     (detectReference st node key).1 = Normal r ->
     getChild (heap st) node key = Some (VStr uri) ->
     is_Some (getReference (detectReference st node key).2 node)).
Proof.
  unfold detectReference.
  destruct node as [| | | |a|name];
    try (split; [apply registersOnly_refl|done]).
  2: { assert (Hnone : forall uri,
                 getChild (heap st) (VHost name) key <> Some (VStr uri)).
       { intros uri. simpl. destruct (hostTypeOf name); [done|..];
           by destruct (hostProperty name key) as [[| |]|]. }
       destruct (getChild (heap st) (VHost name) key) as [[| | |uri| |]|];
         try (split; [apply registersOnly_refl|done]).
       split; [apply registersOnly_refl|]. intros r uri' _ Hchild.
       by destruct (Hnone uri'). }
  destruct (getChild (heap st) (VObj a) key) as [[| | |uri| |]|];
    try (split; [apply registersOnly_refl|done]).
  destruct (match currentBaseUri st with Some _ => _ | None => _ end)
    as [uri'|e]; [|split; [apply registersOnly_refl|done]].
  destruct (registerReference_registersOnly st a key uri') as [Hr Hs].
  destruct (registerReference st a key uri') as [r st1]. simpl in *.
  split; [done|]. intros _ _ _ _. done.
Qed.

Lemma visitChild_registersOnly
  (self : value -> State -> option (completion unit * State))
  (Q : State -> Prop) (key : Frame.key) (child : value) (h : Heap) :
  (forall s s', Q s -> (forall v, getReference s' v = getReference s v) ->
                Q s') ->
  (forall s c s', heap s = h -> self child s = Some (c, s') ->
     registersOnly s s' /\ (c = Normal tt -> Q s')) ->
  forall st c st',
    heap st = h ->
    visitChild self key child st = Some (c, st') ->
    registersOnly st st' /\ (c = Normal tt -> Q st').
Proof.
  intros Hstable Hself st c st' Hheap. unfold visitChild.
  set (frame := Frame.mk (length (frameObjs st)) (Context.stack (context st))).
  change (pushFrame st)
    with (frame,
          withContext
            (withFrameObjs st (frameObjs st ++ [Frame.mkFields None None None]))
            (Context.withStack (context st) (Some frame))).
  cbv beta iota.
  set (st2 := setNode _ frame key child).
  assert (Hs2 : Context.stack (context st2) = Some frame) by reflexivity.
  assert (Hh2 : heap st2 = heap st) by reflexivity.
  assert (Hr2 : forall v, getReference st2 v = getReference st v)
    by reflexivity.
  assert (Hparent : Frame.parent frame = Context.stack (context st))
    by reflexivity.
  clearbody st2 frame.
  destruct (self child st2) as [[[[]|e] st3]|] eqn:Hrun; [| |done].
  - destruct (Hself st2 (Normal tt) st3) as [(Hh & Hs & Hr) Hq];
      [congruence | done |].
    rewrite unnestFrame_spec, decide_True by congruence.
    intros [= <- <-]. split.
    + split; [simpl; congruence|]. split; [done|]. intros node r Hn.
      apply Hr. by rewrite Hr2.
    + intros _. eapply Hstable; [by apply Hq | done].
  - destruct (Hself st2 (Throw e) st3) as [(Hh & Hs & Hr) _];
      [congruence | done |].
    rewrite unwindFrame_spec, decide_True by congruence.
    intros [= <- <-]. split; [|done].
    split; [simpl; congruence|]. split; [done|]. intros node r Hn.
    apply Hr. by rewrite Hr2.
Qed.

Lemma detectReferences_sound (h : Heap) (fuel : nat) :
  forall node st c st',
    heap st = h ->
    detectReferences fuel keys node st = Some (c, st') ->
    registersOnly st st' /\
    (c = Normal tt ->
     forall v, descendant h node v -> refersUnder h keys v ->
               is_Some (getReference st' v)).
Proof.
  induction fuel as [|fuel IH]; intros node st c st' Hheap; [done|].
  simpl. unfold detectBody.
  set (detect := fun key st =>
         match detectReference st node key with
         | (Normal _, st) => Some (Normal tt, st)
         | (Throw e, st) => Some (Throw e, st)
         end).
  destruct (forEachUntil detect keys st) as [[c1 st1]|] eqn:Hkeys; [|done].
  apply (forEachUntil_chain detect keys registersOnly
           (fun key s => forall uri,
              getChild h node key = Some (VStr uri) ->
              is_Some (getReference s node)) st) in Hkeys
    as [Hr1 Hp1];
    [|apply registersOnly_refl|apply registersOnly_trans| | |
     apply registersOnly_refl].
  2: { intros key s s' Hp (_ & _ & Hr) uri Hu.
       destruct (Hp uri Hu) as [r Hs]. exists r. by apply Hr. }
  2: { intros key s c' s' _ (Hhs & _ & _). unfold detect.
       destruct (detectReference_registersOnly s node key) as [Hr Hp].
       destruct (detectReference s node key) as [[r|e] s1] eqn:Hd;
         intros [= <- <-]; (split; [done|]); [|done].
       intros _ uri Hu. simpl in Hp. apply (Hp r uri eq_refl).
       by rewrite Hhs, Hheap. }
  assert (Hself : forall v : value,
            (refersUnder h keys v -> v = node ->
             c1 = Normal tt -> is_Some (getReference st1 v))).
  { intros v (key & uri & Hkey & Hu) -> Hc. by apply (Hp1 Hc key Hkey uri). }
  destruct c1 as [[]|e].
  2: { intros [= <- <-]. done. }
  destruct node as [| | | |a|];
    try (intros [= <- <-]; split; [done|]; intros _ v Hd Hv;
         inversion Hd; subst; by apply Hself).
  assert (Hh1 : heap st1 = h) by (destruct Hr1 as (-> & _); done).
  rewrite Hh1. intros Hrun.
  apply (forEachUntil_chain _ _ registersOnly
           (fun entry s => forall v, descendant h entry.2 v ->
                                     refersUnder h keys v ->
                                     is_Some (getReference s v)) st1) in Hrun
    as [Hr2 Hp2];
    [|apply registersOnly_refl|apply registersOnly_trans| | |
     apply registersOnly_refl].
  2: { intros entry s s' Hp (_ & _ & Hr) v Hd Hv.
       destruct (Hp v Hd Hv) as [r Hs]. exists r. by apply Hr. }
  2: { intros [key child] s c' s' _ (Hhs & _ & _). simpl.
       apply (visitChild_registersOnly _
                (fun s => forall v, descendant h child v ->
                                    refersUnder h keys v ->
                                    is_Some (getReference s v)) key child h).
       - intros s2 s3 Hq Hsame v Hd Hv. rewrite Hsame. by apply Hq.
       - intros s2 c2 s3 Hh2. by apply IH.
       - congruence. }
  split; [by eapply registersOnly_trans|].
  intros Hc v Hd Hv. inversion Hd as [|a' child v' Hchild Hbelow]; subst.
  - destruct (Hself (VObj a) Hv eq_refl eq_refl) as [r Hr].
    exists r. destruct Hr2 as (_ & _ & Hmono). by apply Hmono.
  - rewrite <- childEntries_values in Hchild.
    apply list_elem_of_fmap in Hchild as [[key child'] [-> Hentry]].
    by apply (Hp2 eq_refl (key, child') Hentry).
Qed.

Lemma detectReferences_total (h : Heap) (rank : addr -> nat) (fuel : nat) :
  (forall a b, VObj b ∈ values h a -> rank b < rank a) ->
  forall node st,
    heap st = h ->
    depthOf rank node < fuel ->
    exists c st',
      detectReferences fuel keys node st = Some (c, st') /\ heap st' = h.
Proof.
  intros Hrank. induction fuel as [|fuel IH]; intros node st Hheap Hfuel; [lia|].
  simpl. unfold detectBody.
  destruct (forEachUntil_total
              (fun key st =>
                 match detectReference st node key with
                 | (Normal _, st) => Some (Normal tt, st)
                 | (Throw e, st) => Some (Throw e, st)
                 end) keys (fun s => heap s = h)) with (st := st)
    as (c1 & st1 & -> & Hh1); [|done|].
  { intros key s _ Hs.
    destruct (detectReference_registersOnly s node key) as [(Hh & _) _].
    destruct (detectReference s node key) as [[r|e] s1]; simpl in *;
      eexists _, s1; (split; [done | congruence]). }
  destruct c1 as [[]|e]; [|by eauto].
  destruct node as [| | | |a|]; try by eauto.
  rewrite Hh1.
  apply forEachUntil_total; [|done].
  intros [key child] s Hentry Hs. simpl.
  assert (Hchild : child ∈ values h a).
  { rewrite <- childEntries_values. by apply (list_elem_of_fmap_2 snd) in Hentry. }
  unfold visitChild.
  set (frame := Frame.mk (length (frameObjs s)) (Context.stack (context s))).
  change (pushFrame s)
    with (frame,
          withContext
            (withFrameObjs s (frameObjs s ++ [Frame.mkFields None None None]))
            (Context.withStack (context s) (Some frame))).
  cbv beta iota.
  set (s2 := setNode _ frame key child).
  assert (Hh2 : heap s2 = h) by (rewrite <- Hs; reflexivity).
  clearbody s2.
  destruct (IH child s2 Hh2) as (c & s3 & -> & Hh3).
  { destruct child as [| | | |b|]; simpl in *; [lia..| |lia].
    specialize (Hrank a b Hchild). lia. }
  destruct c as [[]|e].
  - rewrite unnestFrame_spec.
    destruct (decide _); eexists _, _; (split; [done|]); simpl; congruence.
  - rewrite unwindFrame_spec.
    destruct (decide _); eexists _, _; (split; [done|]); simpl; congruence.
Qed.

(** X24.  On documents that are trees or directed acyclic graphs,
    [detectReferences] returns.  Whatever it returns or throws, it leaves
    the documents and the stack as they were and keeps every reference
    that was registered; when it returns normally, every node of the tree
    that holds a string under one of the keywords is registered as a
    reference. *)
Theorem detectReferences_registers (rank : addr -> nat) (node : value)
  (st : State) (fuel : nat) :
  (forall a b, VObj b ∈ values (heap st) a -> rank b < rank a) ->
  depthOf rank node < fuel ->
  exists c st',
    detectReferences fuel keys node st = Some (c, st') /\
    heap st' = heap st /\
    Context.stack (context st') = Context.stack (context st) /\
    (forall v r, getReference st v = Some r -> getReference st' v = Some r) /\
    (c = Normal tt ->
     forall v, descendant (heap st) node v -> refersUnder (heap st) keys v ->
               is_Some (getReference st' v)).
Proof.
  intros Hrank Hfuel.
  destruct (detectReferences_total (heap st) rank fuel Hrank node st eq_refl
              Hfuel) as (c & st' & Hrun & _).
  exists c, st'. split; [done|].
  destruct (detectReferences_sound (heap st) fuel node st c st' eq_refl Hrun)
    as ((Hh & Hs & Hr) & Hcover).
  done.
Qed.

End Detect.

(** X24, witness: the schema of the person that is its own friend,
    before anything is registered. *)
Lemma detectReferences_registers_witness :
  exists c st',
    @detectReferences ecmaHost lenientUris 7 ["$ref"] (VObj 5)
      unregisteredState = Some (c, st') /\
    (c = Normal tt -> is_Some (getReference st' (VObj 1))).
Proof.
  destruct (@detectReferences_registers ecmaHost lenientUris ["$ref"]
              (fun a => a) (VObj 5) unregisteredState 7)
    as (c & st' & Hrun & _ & _ & _ & Hcover).
  - intros a b Hin. unfold values in Hin.
    do 6 (destruct a as [|a];
          [simpl in Hin;
           repeat (apply elem_of_cons in Hin as [Hin|Hin];
                   [try discriminate Hin; injection Hin as ->; simpl; lia|]);
           by apply elem_of_nil in Hin|]).
    simpl in Hin. by apply elem_of_nil in Hin.
  - simpl. lia.
  - exists c, st'. split; [exact Hrun|]. intros Hc.
    apply (Hcover Hc).
    + apply (descendant_below _ 5 (VObj 4)); [by left|].
      apply (descendant_below _ 4 (VObj 3)); [by left|].
      apply (descendant_below _ 3 (VObj 2)); [by right; left|].
      apply (descendant_below _ 2 (VObj 1)); [by right; left|].
      apply descendant_here.
    + exists "$ref", "#/$defs/person". split; [by left | reflexivity].
Defined.

(** The traversal step is [nestFrame] on the unit of work that sets the
    frame and visits the child. *)
Lemma visitChild_nestFrame (self : value -> State -> completion unit * State)
  (key : Frame.key) (child : value) (st : State) :
  visitChild (fun v s => Some (self v s)) key child st
    = Some (settled
              (nestFrame
                 (fun frame s =>
                    match self child (setNode s frame key child) with
                    | (Normal u, s') => (Normal (Plain u), s')
                    | (Throw e, s') => (Throw e, s')
                    end) st)).
Proof.
  rewrite nestFrame_unfold. unfold visitChild.
  destruct (pushFrame st) as [frame st1]. cbn [fst snd].
  destruct (self child (setNode st1 frame key child)) as [[u|e] st2].
  - by destruct (unnestFrame frame st2 u) as [[u'|e] st3].
  - unfold unwindFrame. by destruct (Frame.same _ _).
Qed.

(** ** Creating a context *)

Lemma setResource_fold (resources : list Resource.t) :
  forall ctx m c,
    Context.resources ctx = Some m ->
    Context.canonical ctx = Some c ->
    foldl setResource ctx resources
      = Context.withCanonical
          (Context.withResources ctx
             (Some (foldl (fun m r => <[Resource.node r := r]> m) m
                      resources)))
          (Some (foldl registerCanonical c resources)).
Proof.
  induction resources as [|r resources IH]; intros ctx m c Hm Hc.
  - destruct ctx. simpl in *. by subst.
  - cbn [foldl].
    rewrite (IH (setResource ctx r) (<[Resource.node r := r]> m)
               (registerCanonical c r)).
    + unfold setResource. by destruct (Resource.uri r), ctx.
    + unfold setResource. destruct ctx. simpl in *. subst.
      by destruct (Resource.uri r).
    + unfold setResource, registerCanonical. destruct ctx. simpl in *. subst.
      by destruct (Resource.uri r).
Qed.

(** X25.  A context created with an array of initial resources is the
    context created without them in which the resources have been
    registered with [setResource], one after the other in the order of
    the array.  A context created with a [Map] of resources has them by
    node, and no canonical URI besides those of [options.canonical]. *)
Theorem createContext_resources (resolver : option fid)
  (resources : list Resource.t) (entries : list (addr * Resource.t))
  (canonical : option (gmap string Resource.t)) :
  createContextWith
    (Some (ContextOptions.mk resolver
             (Some (ContextOptions.FromArray resources)) None None))
    = foldl setResource (createContext resolver) resources /\
  createContextWith
    (Some (ContextOptions.mk resolver
             (Some (ContextOptions.FromMap entries)) canonical None))
    = Context.mk None resolver (Some (list_to_map entries))
        (Some (default ∅ canonical)) (Some ∅) None.
Proof.
  split.
  - rewrite (setResource_fold resources (createContext resolver) ∅ ∅)
      by done.
    unfold createContextWith, initContext. simpl. by destruct resolver.
  - unfold createContextWith, initContext. simpl. by destruct resolver.
Qed.

